(** * Cross-shard coordination in the sharded Quorum fork

    A shallow embedding of the lock manager, the state-commit filter,
    the foreign-data cache, the block processor loop and the worker's
    reference-head handling, followed by the properties established
    about them.

    Conventions.  Go maps are [gmap]s; a [range] over a map is an
    iteration over an arbitrary enumeration of it, so a function that
    ranges over an argument map takes that enumeration as an association
    list.  Go's [uint64] and [int] are [Z] with the wrap-around written
    out where arithmetic happens.  A run-time panic (nil dereference,
    slice out of range) is [None]. *)

From Stdlib Require Import ZArith List Lia Bool.
From Stdlib Require Strings.Byte.
From Stdlib Require Import Floats.SpecFloat.
From stdpp Require Import gmap list.

Abbreviation byte := Byte.byte (only parsing).

Abbreviation Address := N (only parsing).
Abbreviation Hash := N (only parsing).

(** ** Machine integers *)

Definition wrap_uint64 (z : Z) : Z := (z mod 2 ^ 64)%Z.
Definition wrap_int (z : Z) : Z := ((z + 2 ^ 63) mod 2 ^ 64 - 2 ^ 63)%Z.

(** ** Byte strings *)

(** [b[lo:hi]]: out of range is a run-time panic. *)
Definition slice {A} (b : list A) (lo hi : nat) : option (list A) :=
  if bool_decide (lo ≤ hi ∧ hi ≤ length b)
  then Some (take (hi - lo) (drop lo b))
  else None.

(** [b[lo:]]. *)
Definition slice_from {A} (b : list A) (lo : nat) : option (list A) :=
  slice b lo (length b).

(** [binary.BigEndian.Uint64] and friends: the big-endian value of the
    bytes read. *)
Definition be_uint (b : list byte) : Z :=
  foldl (λ acc x, (acc * 256 + Z.of_N (Byte.to_N x))%Z) 0%Z b.

(** [binary.BigEndian.Uint64(b)] panics when [b] is shorter than eight
    bytes and reads the first eight. *)
Definition BigEndian_Uint64 (b : list byte) : option Z :=
  be_uint <$> slice b 0 8.

(** [binary.BigEndian.Uint16(b)]: the first two bytes. *)
Definition BigEndian_Uint16 (b : list byte) : option Z :=
  be_uint <$> slice b 0 2.

Definition wrap_uint16 (z : Z) : Z := (z mod 2 ^ 16)%Z.

(** The package [common] is outside the files at hand; its conversions
    from bytes to a hash and to an address are taken as given. *)
Class Common := {
  BytesToHash : list byte → Hash;
  BytesToAddress : list byte → Address
}.

(** ** core/types *)

Module types.

(** Transaction kinds. *)
Definition StateCommit : Z := 0%Z.
Definition IntraShard : Z := 1%Z.
Definition CrossShard : Z := 2%Z.
Definition ContractInit : Z := 3%Z.
Definition CrossShardLocal : Z := 4%Z.
Definition Others : Z := 5%Z.

(** The fields of [Transaction] the coordination code reads. *)
Record Transaction := {
  tx_TxType : Z;
  tx_Hash : Hash;
  tx_Payload : list byte
}.

Definition Data (tx : Transaction) : list byte := tx_Payload tx.

(** [CKeys]: the keys of one contract touched by a cross-shard
    transaction; [WKeys] are the written ones. *)
Record CKeys := {
  ck_Addr : Address;
  ck_Keys : list Hash;
  ck_WKeys : list Hash
}.

Definition AddKey (ck : CKeys) (key : Hash) : CKeys :=
  {| ck_Addr := ck_Addr ck; ck_Keys := ck_Keys ck ++ [key];
     ck_WKeys := ck_WKeys ck |}.

(** [KeyVal]: the values a remote shard sends for one contract. *)
Record KeyVal := {
  kv_Addr : Address;
  kv_Balance : Z;
  kv_Nonce : Z;
  kv_Data : list Hash
}.

(** [CData]: the cached foreign account. *)
Record CData := {
  cd_Addr : Address;
  cd_Balance : Z;
  cd_Nonce : Z;
  cd_Data : gmap Hash Hash
}.

(** The value of [GetAllRWSet], and the [AllContracts] field of a
    cross-shard transaction: shard to the contracts it contributes, as
    enumerated by [range]. *)
Abbreviation AllKeys := (list (Z * list CKeys)) (only parsing).

Record CrossTx := {
  ctx_Shards : list Z;
  ctx_Tx : Transaction;
  ctx_AllContracts : AllKeys
}.

(** [CrossShardTxs]: index to transaction. *)
Record CrossShardTxs := { Txs : gmap Z CrossTx }.

Definition NewCrossShardTxs : CrossShardTxs := {| Txs := ∅ |}.

Definition TxCount (cst : CrossShardTxs) : Z := Z.of_nat (size (Txs cst)).

(** [GetRWSet], the loop over the keys of one contract.  [index] is a
    [uint16] and wraps. *)
Fixpoint rwset_keys `{Common} (numKeys : nat) (data : list byte)
    (index : Z) (cKeys : CKeys) : option (CKeys * Z) :=
  match numKeys with
  | O => Some (cKeys, index)
  | S n =>
      key ← BytesToHash <$>
            slice data (Z.to_nat index) (Z.to_nat (wrap_uint16 (index + 32)));
      let index := wrap_uint16 (index + 32) in
      let cKeys := {| ck_Addr := ck_Addr cKeys;
                      ck_Keys := ck_Keys cKeys ++ [key];
                      ck_WKeys := ck_WKeys cKeys |} in
      flag ← data !! Z.to_nat index;
      let isWrite := bool_decide (Byte.to_N flag = 1%N) in
      let cKeys := if isWrite
                   then {| ck_Addr := ck_Addr cKeys;
                           ck_Keys := ck_Keys cKeys;
                           ck_WKeys := ck_WKeys cKeys ++ [key] |}
                   else cKeys in
      rwset_keys n data (wrap_uint16 (index + 1)) cKeys
  end.

(** [GetRWSet]: the read-write set of one shard. *)
Fixpoint rwset_contracts `{Common} (numContracts : nat) (data : list byte)
    (index : Z) (allKeys : list CKeys) : option (list CKeys * Z) :=
  match numContracts with
  | O => Some (allKeys, index)
  | S n =>
      addr ← BytesToAddress <$>
             slice data (Z.to_nat index) (Z.to_nat (wrap_uint16 (index + 20)));
      let index := wrap_uint16 (index + 20) in
      numKeys ← be_uint <$>
                slice data (Z.to_nat index)
                      (Z.to_nat (wrap_uint16 (index + 2)));
      let index := wrap_uint16 (index + 2) in
      '(cKeys, index) ←
        rwset_keys (Z.to_nat numKeys) data index
          {| ck_Addr := addr; ck_Keys := []; ck_WKeys := [] |};
      rwset_contracts n data index (allKeys ++ [cKeys])
  end.

Definition GetRWSet `{Common} (numContracts : Z) (index : Z)
    (data : list byte) : option (list CKeys * Z) :=
  rwset_contracts (Z.to_nat numContracts) data index [].

(** [GetAllRWSet], the loop over the shards.  [allKeys] is declared
    outside the loop and keeps its value when a shard lists no
    contract. *)
Fixpoint rwset_shards `{Common} (numShard : nat) (data : list byte)
    (index : Z) (allKeys : list CKeys) (shards : list Z)
    (allContracts : gmap Z (list CKeys))
  : option (gmap Z (list CKeys) * list Z * Z) :=
  match numShard with
  | O => Some (allContracts, shards, index)
  | S n =>
      shard ← be_uint <$>
              slice data (Z.to_nat index)
                      (Z.to_nat (wrap_uint16 (index + 2)));
      let shards := shards ++ [shard] in
      let index := wrap_uint16 (index + 2) in
      numContracts ← be_uint <$>
                     slice data (Z.to_nat index)
                      (Z.to_nat (wrap_uint16 (index + 2)));
      let index := wrap_uint16 (index + 2) in
      '(allKeys, index) ←
        (if bool_decide (0 < numContracts)%Z
         then GetRWSet numContracts index data
         else Some (allKeys, index));
      rwset_shards n data index allKeys shards
        (<[shard := allKeys]> allContracts)
  end.

(** [GetAllRWSet]: every read-write set of a cross-shard
    transaction. *)
Definition GetAllRWSet `{Common} (numShard : Z) (data : list byte)
  : option (gmap Z (list CKeys) * list Z * Z) :=
  rwset_shards (Z.to_nat numShard) data 0 [] [] ∅.

(** [DecodeCrossTx], the loop over the shard words.  Every round
    consumes 32 bytes of [data], so [fuel] rounds of the loop are all
    that can succeed when [fuel] is the length of [data]. *)
Fixpoint cross_shards (fuel : nat) (myshard : Z) (data : list byte)
    (i length : Z) (index : Z) (shards : list Z) (involved : bool)
  : option (Z * list Z * bool) :=
  if bool_decide (i < length)%Z then
    match fuel with
    | O => None
    | S fuel' =>
        shard ← be_uint <$>
                slice data (Z.to_nat (index + 24)) (Z.to_nat (index + 32));
        cross_shards fuel' myshard data (i + 1)%Z length (index + 32)%Z
          (shards ++ [shard])
          (if bool_decide (shard = myshard) then true else involved)
    end
  else Some (index, shards, involved).

(** [DecodeCrossTx]: the shards a cross-shard transaction names. *)
Definition DecodeCrossTx (myshard : Z) (data : list byte)
  : option (Z * list Z * bool) :=
  length ← be_uint <$> slice data 88 96;
  cross_shards (List.length data) myshard data 0 length 96 [] false.

(** [DecodeStateCommit], as declared: four results. *)
Definition DecodeStateCommit `{Common} (stx : Transaction)
  : option (Z * Z * Z * Hash) :=
  data ← slice_from (Data stx) 4;
  let index := 0 in
  shard ← be_uint <$> slice data (index + 24) (index + 32);
  let index := index + 32 in
  commit ← be_uint <$> slice data (index + 24) (index + 32);
  let index := index + 32 in
  report ← be_uint <$> slice data (index + 24) (index + 32);
  let index := index + 32 in
  root ← BytesToHash <$> slice_from data index;
  Some (shard, commit, report, root).

(** [Commitment] of a shard. *)
Record Commitment := {
  Shard : Z;
  BlockNum : Z;
  RefNum : Z;
  StateRoot : Hash
}.

(** [Commitments] of all the shards; an entry may hold a nil
    pointer. *)
Record Commitments := { Commits : gmap Z (option Commitment) }.

Definition GetCommit (cm : Commitments) (shard : Z) : option Commitment :=
  default None (Commits cm !! shard).

(** [CLock]: currently locked keys of a contract.  A value [-1] is a
    write lock, a non-negative value a read count. *)
Record CLock := {
  cl_Addr : Address;
  cl_Keys : gmap Hash Z
}.

Definition NewCLock (addr : Address) : CLock :=
  {| cl_Addr := addr; cl_Keys := ∅ |}.

(** [DataCache]: foreign data for one reference block. *)
Record DataCache := {
  dc_RefNum : Z;
  Status : bool;
  Required : Z;
  Received : Z;
  Keyval : gmap Address CKeys;
  AddrToShard : gmap Address Z;
  ShardStatus : gmap Z bool;
  dc_Commits : gmap Z (option Commitment);
  Values : gmap Address CData
}.

Definition NewDataCache (bnum : Z) (status : bool) : DataCache :=
  {| dc_RefNum := bnum; Status := status; Required := 0; Received := 0;
     Keyval := ∅; AddrToShard := ∅; ShardStatus := ∅; dc_Commits := ∅;
     Values := ∅ |}.

(** The inner loop of [AddData]: [cdata.Data[keys[i]] = data[i]] for
    [i] below [len(data)]; [keys[i]] out of range panics. *)
Fixpoint fill_data (keys data : list Hash) (acc : gmap Hash Hash)
  : option (gmap Hash Hash) :=
  match data with
  | [] => Some acc
  | val :: data' =>
      match keys with
      | [] => None
      | key :: keys' => fill_data keys' data' (<[key := val]> acc)
      end
  end.

(** The outer loop of [AddData] over the contracts received. *)
Fixpoint add_values (keyval : gmap Address CKeys) (vals : list KeyVal)
    (values : gmap Address CData) : option (gmap Address CData) :=
  match vals with
  | [] => Some values
  | v :: vals' =>
      let caddr := kv_Addr v in
      ck ← keyval !! caddr;
      d ← fill_data (ck_Keys ck) (kv_Data v) ∅;
      add_values keyval vals'
        (<[caddr := {| cd_Addr := caddr; cd_Balance := kv_Balance v;
                       cd_Nonce := kv_Nonce v; cd_Data := d |}]> values)
  end.

(** [AddData]: record the data of [shard]. *)
Definition AddData (dc : DataCache) (shard : Z) (vals : list KeyVal)
  : option DataCache :=
  if negb (default false (ShardStatus dc !! shard))
     && bool_decide (0 < length vals)
  then
    values ← add_values (Keyval dc) vals (Values dc);
    let received := wrap_int (Received dc + 1) in
    Some {| dc_RefNum := dc_RefNum dc;
            Status := if bool_decide (received = Required dc) then true
                      else Status dc;
            Required := Required dc;
            Received := received;
            Keyval := Keyval dc;
            AddrToShard := AddrToShard dc;
            ShardStatus := <[shard := true]> (ShardStatus dc);
            dc_Commits := dc_Commits dc;
            Values := values |}
  else Some dc.

Definition set_Keyval (dc : DataCache) (kv : gmap Address CKeys)
  : DataCache :=
  {| dc_RefNum := dc_RefNum dc; Status := Status dc;
     Required := Required dc; Received := Received dc;
     Keyval := kv; AddrToShard := AddrToShard dc;
     ShardStatus := ShardStatus dc; dc_Commits := dc_Commits dc;
     Values := Values dc |}.

(** [dc.Keyval[caddr].AddKey(key)]: a nil entry panics. *)
Definition add_key (caddr : Address) (dc : DataCache) (key : Hash)
  : option DataCache :=
  ck ← Keyval dc !! caddr;
  Some (set_Keyval dc (<[caddr := AddKey ck key]> (Keyval dc))).

(** [InitKeys], innermost: one contract of one shard of one
    transaction. *)
Definition init_contract (shard : Z) (dc : DataCache) (contract : CKeys)
  : option DataCache :=
  let caddr := ck_Addr contract in
  let dc1 :=
    match AddrToShard dc !! caddr with
    | Some _ => dc
    | None =>
        {| dc_RefNum := dc_RefNum dc; Status := Status dc;
           Required := Required dc; Received := Received dc;
           Keyval := <[caddr := {| ck_Addr := caddr; ck_Keys := [];
                                   ck_WKeys := [] |}]> (Keyval dc);
           AddrToShard := <[caddr := shard]> (AddrToShard dc);
           ShardStatus := ShardStatus dc; dc_Commits := dc_Commits dc;
           Values := Values dc |}
    end in
  foldl (λ acc key, acc ≫= λ d, add_key caddr d key)
        (Some dc1) (ck_Keys contract).

(** [InitKeys], one shard of one transaction: register the shard when
    it is new, then its contracts.  [commits.GetCommit] on a nil
    [commits] panics. *)
Definition init_shard (myshard : Z) (commits : option Commitments)
    (dc : DataCache) (entry : Z * list CKeys) : option DataCache :=
  let '(shard, allKeys) := entry in
  dc1 ← match ShardStatus dc !! shard with
        | Some _ => Some dc
        | None =>
            if bool_decide (shard = myshard)
            then Some {| dc_RefNum := dc_RefNum dc; Status := Status dc;
                         Required := Required dc; Received := Received dc;
                         Keyval := Keyval dc; AddrToShard := AddrToShard dc;
                         ShardStatus := <[shard := true]> (ShardStatus dc);
                         dc_Commits := dc_Commits dc; Values := Values dc |}
            else
              cm ← commits;
              Some {| dc_RefNum := dc_RefNum dc; Status := Status dc;
                      Required := wrap_int (Required dc + 1);
                      Received := Received dc;
                      Keyval := Keyval dc; AddrToShard := AddrToShard dc;
                      ShardStatus := <[shard := false]> (ShardStatus dc);
                      dc_Commits :=
                        <[shard := GetCommit cm shard]> (dc_Commits dc);
                      Values := Values dc |}
        end;
  foldl (λ acc contract, acc ≫= λ d, init_contract shard d contract)
        (Some dc1) allKeys.

(** [InitKeys], one transaction: skipped unless [myshard] takes
    part. *)
Definition init_tx (myshard : Z) (commits : option Commitments)
    (dc : DataCache) (ctx : CrossTx) : option DataCache :=
  if existsb (λ shard, bool_decide (shard = myshard)) (ctx_Shards ctx)
  then foldl (λ acc entry, acc ≫= λ d, init_shard myshard commits d entry)
             (Some dc) (ctx_AllContracts ctx)
  else Some dc.

(** [InitKeys]: reset the counters, register what every pending
    transaction needs, and report readiness.  [ctxs] enumerates
    [ctxs.Txs]. *)
Definition InitKeys (dc : DataCache) (myshard : Z) (ctxs : list CrossTx)
    (commits : option Commitments) : option (DataCache * bool) :=
  let dc0 := {| dc_RefNum := dc_RefNum dc; Status := Status dc;
                Required := 0; Received := 0;
                Keyval := Keyval dc; AddrToShard := AddrToShard dc;
                ShardStatus := ShardStatus dc;
                dc_Commits := dc_Commits dc; Values := Values dc |} in
  dc1 ← foldl (λ acc ctx, acc ≫= λ d, init_tx myshard commits d ctx)
              (Some dc0) ctxs;
  if bool_decide (Received dc1 = Required dc1)
  then Some ({| dc_RefNum := dc_RefNum dc1; Status := true;
                Required := Required dc1; Received := Received dc1;
                Keyval := Keyval dc1; AddrToShard := AddrToShard dc1;
                ShardStatus := ShardStatus dc1;
                dc_Commits := dc_Commits dc1; Values := Values dc1 |}, true)
  else Some (dc1, false).

(** [CommitNum] of [Commitments]: the committed block of a shard, 0
    when the shard has no entry; an entry that holds a nil pointer
    panics. *)
Definition CommitNum (cm : Commitments) (shard : Z) : option Z :=
  match Commits cm !! shard with
  | Some commit => BlockNum <$> commit
  | None => Some 0%Z
  end.

(** [CopyCommits], one shard: a fresh copy of the commit of [commits].
    A nil [commits] and a nil commit both panic. *)
Definition copy_commit (commits : option Commitments)
    (acc : option (gmap Z (option Commitment))) (shard : Z)
  : option (gmap Z (option Commitment)) :=
  m ← acc;
  src ← commits;
  commit ← GetCommit src shard;
  Some (<[shard := Some {| Shard := shard; BlockNum := BlockNum commit;
                           RefNum := RefNum commit;
                           StateRoot := StateRoot commit |}]> m).

(** [CopyCommits]: carry the commits of the shards [1 .. numShard-1]
    over from [commits]. *)
Definition CopyCommits (cm : Commitments) (numShard : Z)
    (commits : option Commitments) : option Commitments :=
  m ← foldl (copy_commit commits) (Some (Commits cm))
            (seqZ 1 (numShard - 1));
  Some {| Commits := m |}.

(** [TxDifference]: the transactions of [a] whose hash no transaction
    of [b] has. *)
Definition TxDifference (a b : list Transaction) : list Transaction :=
  let remove := foldl (λ (m : gmap Hash unit) tx, <[tx_Hash tx := tt]> m)
                      ∅ b in
  foldl (λ keep tx, match remove !! tx_Hash tx with
                    | Some _ => keep
                    | None => keep ++ [tx]
                    end)
        [] a.

(** The signature value [V] of a transaction is a [*big.Int] that may
    be nil.  [x.Uint64()] is the low 64 bits of the magnitude,
    [x.Int64()] the same bits read as an [int64] and negated for a
    negative [x], [x.BitLen()] the length of the magnitude in bits. *)
Definition big_low64 (x : Z) : Z := wrap_uint64 (Z.abs x).

Definition big_Int64 (x : Z) : Z :=
  let v := wrap_int (big_low64 x) in
  if bool_decide (x < 0)%Z then wrap_int (- v) else v.

Definition big_BitLen (x : Z) : Z :=
  if bool_decide (x = 0%Z) then 0%Z else (Z.log2 (Z.abs x) + 1)%Z.

(** [isProtectedV]: a nil [V] panics. *)
Definition isProtectedV (V : option Z) : option bool :=
  v ← V;
  if bool_decide (big_BitLen v ≤ 8)%Z
  then Some (negb (bool_decide (big_low64 v = 27%Z)
                   || bool_decide (big_low64 v = 28%Z)))
  else Some true.

(** [IsPrivate] of a transaction, as a function of its [V]. *)
Definition IsPrivate (V : option Z) : bool :=
  match V with
  | None => false
  | Some v => bool_decide (big_low64 v = 37%Z)
              || bool_decide (big_low64 v = 38%Z)
  end.

(** [SetPrivate]: the [V] it leaves; a nil [V] panics. *)
Definition SetPrivate (V : option Z) : option (option Z) :=
  if IsPrivate V then Some V
  else v ← V;
       Some (Some (if bool_decide (big_Int64 v = 28%Z) then 38%Z
                   else 37%Z)).

End types.

Import types.

(** ** Lock tables shared by the chain and the worker *)

(** [keys[key]] on a Go map: the zero value when the key is absent. *)
Definition key_val (keys : gmap Hash Z) (key : Hash) : Z :=
  default 0%Z (keys !! key).

(** One read lock:
    [if !kok { Keys[key] = 0 }; Keys[key] = Keys[key] + 1]. *)
Definition read_lock (keys : gmap Hash Z) (key : Hash) : gmap Hash Z :=
  let keys0 := match keys !! key with
               | Some _ => keys
               | None => <[key := 0%Z]> keys
               end in
  <[key := wrap_int (key_val keys0 key + 1)]> keys0.

(** One write lock: [Keys[key] = -1]. *)
Definition write_lock (keys : gmap Hash Z) (key : Hash) : gmap Hash Z :=
  <[key := (-1)%Z]> keys.

(** The body shared by [updateLockStatus] and [addNewLocks] for one
    contract: create the [CLock] when absent, count the reads, then mark
    the writes. *)
Definition lock_contract (locks : gmap Address CLock) (cKeys : CKeys)
  : gmap Address CLock :=
  let addr := ck_Addr cKeys in
  let cl := match locks !! addr with
            | Some cl => cl
            | None => NewCLock addr
            end in
  let keys1 := foldl read_lock (cl_Keys cl) (ck_Keys cKeys) in
  let keys2 := foldl write_lock keys1 (ck_WKeys cKeys) in
  <[addr := {| cl_Addr := cl_Addr cl; cl_Keys := keys2 |}]> locks.

(** The per-contract request handed to [checkLockStatus]: every key of
    [Keys] mapped to [false], then every key of [WKeys] to [true]. *)
Definition lockMap_of (cKeys : CKeys) : gmap Hash bool :=
  let m := foldl (λ m key, <[key := false]> m) ∅ (ck_Keys cKeys) in
  foldl (λ m key, <[key := true]> m) m (ck_WKeys cKeys).

(** The loop of [CheckGLock] over the requested keys. *)
Definition glock_conflict (gLockedKeys : gmap Hash Z)
    (addrKeys : gmap Hash bool) : bool :=
  existsb (λ kv : Hash * bool,
             match gLockedKeys !! kv.1 with
             | Some gval => kv.2 || (gval <? 0)%Z
             | None => false
             end)
          (map_to_list addrKeys).

(** The loop of [checkLockStatus] over the tentative table. *)
Definition clock_conflict (cLockedKeys : gmap Hash Z)
    (addrKeys : gmap Hash bool) : bool :=
  existsb (λ kv : Hash * bool,
             match cLockedKeys !! kv.1 with
             | Some cval => (cval <? 0)%Z || kv.2
             | None => false
             end)
          (map_to_list addrKeys).

(** ** core: the chain *)

Module core.

Record Receipt := {
  rc_Status : Z;
  rc_Logs : option (list (list byte))  (* the [Data] of every log *)
}.

Record Block := {
  b_Number : Z;
  b_RefNumber : Z;
  b_Hash : Hash;
  b_GasLimit : Z;
  b_Transactions : list Transaction
}.

(** The coordination fields of [BlockChain].  [gLocked] stands for
    [gLocked.Locks]; the mutexes are left out. *)
Record BlockChain := {
  myshard : Z;
  pendingCrossTxs : gmap Z CrossShardTxs;
  foreignData : gmap Z DataCache;
  myLatestCommit : Commitment;
  gLocked : gmap Address CLock;
  lockedAddrMap : gmap Z (gmap Address bool);
  lastCommit : gmap Z Commitment;
  lastCtx : gmap Z Z;
  procCtxs : gmap Hash bool
}.

Definition set_locks (bc : BlockChain) (g : gmap Address CLock)
    (idx : gmap Z (gmap Address bool)) : BlockChain :=
  {| myshard := myshard bc; pendingCrossTxs := pendingCrossTxs bc;
     foreignData := foreignData bc; myLatestCommit := myLatestCommit bc;
     gLocked := g; lockedAddrMap := idx;
     lastCommit := lastCommit bc; lastCtx := lastCtx bc;
     procCtxs := procCtxs bc |}.

Definition set_lastCommit (bc : BlockChain) (lc : gmap Z Commitment)
  : BlockChain :=
  {| myshard := myshard bc; pendingCrossTxs := pendingCrossTxs bc;
     foreignData := foreignData bc; myLatestCommit := myLatestCommit bc;
     gLocked := gLocked bc; lockedAddrMap := lockedAddrMap bc;
     lastCommit := lc; lastCtx := lastCtx bc;
     procCtxs := procCtxs bc |}.

Definition set_lastCtx (bc : BlockChain) (lc : gmap Z Z) : BlockChain :=
  {| myshard := myshard bc; pendingCrossTxs := pendingCrossTxs bc;
     foreignData := foreignData bc; myLatestCommit := myLatestCommit bc;
     gLocked := gLocked bc; lockedAddrMap := lockedAddrMap bc;
     lastCommit := lastCommit bc; lastCtx := lc;
     procCtxs := procCtxs bc |}.

(** [CommitNum]: the latest committed block. *)
Definition CommitNum (bc : BlockChain) : Z := BlockNum (myLatestCommit bc).

(** [CtxExist]: whether a reference number has a cross-shard
    transaction. *)
Definition CtxExist (bc : BlockChain) (num : Z) : bool :=
  match pendingCrossTxs bc !! num with
  | None => false
  | Some ctx => bool_decide (0 < TxCount ctx)%Z
  end.

Definition IsProcessed (bc : BlockChain) (hash : Hash) : bool :=
  bool_decide (is_Some (procCtxs bc !! hash)).

Definition AddProcessed (bc : BlockChain) (thash : Hash) : BlockChain :=
  {| myshard := myshard bc; pendingCrossTxs := pendingCrossTxs bc;
     foreignData := foreignData bc; myLatestCommit := myLatestCommit bc;
     gLocked := gLocked bc; lockedAddrMap := lockedAddrMap bc;
     lastCommit := lastCommit bc; lastCtx := lastCtx bc;
     procCtxs := <[thash := false]> (procCtxs bc) |}.

(** [addNewLocks], one contract of [shard]: lock its keys globally and
    enter it in the shard's index. *)
Definition add_contract_locks (shard : Z)
    (st : gmap Address CLock * gmap Z (gmap Address bool)) (cKeys : CKeys)
  : gmap Address CLock * gmap Z (gmap Address bool) :=
  let '(g, idx) := st in
  let addr := ck_Addr cKeys in
  let addrs := default ∅ (idx !! shard) in
  let idx' := match addrs !! addr with
              | Some _ => idx
              | None => <[shard := <[addr := false]> addrs]> idx
              end in
  (lock_contract g cKeys, idx').

(** [addNewLocks], one shard. *)
Definition add_shard_locks
    (st : gmap Address CLock * gmap Z (gmap Address bool))
    (entry : Z * list CKeys)
  : gmap Address CLock * gmap Z (gmap Address bool) :=
  let '(g, idx) := st in
  let '(shard, sKeys) := entry in
  let idx0 := match idx !! shard with
              | Some _ => idx
              | None => <[shard := ∅]> idx
              end in
  foldl (add_contract_locks shard) (g, idx0) sKeys.

(** [addNewLocks]: global locks for a committed cross-shard
    transaction. *)
Definition addNewLocks (bc : BlockChain) (allKeys : AllKeys) : BlockChain :=
  let '(g, idx) := foldl add_shard_locks (gLocked bc, lockedAddrMap bc)
                         allKeys in
  set_locks bc g idx.

(** [CheckGLock]: [bc.gLocked.Locks[addr].Keys] dereferences the
    entry, so an absent contract is a panic. *)
Definition CheckGLock (locks : gmap Address CLock) (addr : Address)
    (addrKeys : gmap Hash bool) : option bool :=
  match locks !! addr with
  | Some cl => Some (glock_conflict (cl_Keys cl) addrKeys)
  | None => None
  end.

(** The release of a shard's locks on its state commit, as written in
    [UpdateRefStatus] and in the post-processing of [Process]: nothing
    happens unless the index holds a non-empty entry for the shard. *)
Definition unlock_shard (bc : BlockChain) (shard : Z) : BlockChain :=
  match lockedAddrMap bc !! shard with
  | Some lockedAddrs =>
      if bool_decide (0 < size lockedAddrs)
      then set_locks bc
             (foldl (λ g kv, delete kv.1 g) (gLocked bc)
                    (map_to_list lockedAddrs))
             (delete shard (lockedAddrMap bc))
      else bc
  | None => bc
  end.

(** The keys of a cross-shard transaction, the way both
    [UpdateRefStatus] and [Process] extract them. *)
Definition cross_keys `{Common} (tx : Transaction)
  : option (list Z * AllKeys) :=
  data ← slice_from (Data tx) 4;
  '(_, shards, _) ← DecodeCrossTx 0 data;
  let numShards := Z.of_nat (length shards) in
  let index := ((2 + 1 + numShards) * 32 + 32 + 2)%Z in
  rest ← slice_from data (Z.to_nat index);
  '(allKeys, _, _) ← GetAllRWSet (wrap_uint16 numShards) rest;
  Some (shards, map_to_list allKeys).

(** [UpdateRefStatus], the success flag of one transaction: receipt
    status 1, logs present, and the first log reporting 1. *)
Definition tx_status (txType : Z) (receipt : Receipt) : option bool :=
  let rStatus := bool_decide (rc_Status receipt = 1%Z) in
  match rc_Logs receipt with
  | Some logs =>
      if rStatus then
        if bool_decide (txType = CrossShard) || bool_decide (txType = StateCommit)
        then
          log0 ← logs !! 0;
          eventOut ← slice_from log0 24 ≫= BigEndian_Uint64;
          Some (bool_decide (eventOut = 1%Z))
        else Some false
      else Some false
  | None => Some false
  end.

(** [UpdateRefStatus], one transaction of the block at height
    [bNum]. *)
Definition ref_status_tx `{Common} (bNum : Z) (bc : BlockChain)
    (tx : Transaction) (receipt : Receipt) : option BlockChain :=
  let txType := tx_TxType tx in
  tStatus ← tx_status txType receipt;
  if tStatus : bool then
    if bool_decide (txType = CrossShard) then
      let bc := AddProcessed bc (tx_Hash tx) in
      '(shards, allKeys) ← cross_keys tx;
      let bc := set_lastCtx bc
                  (foldl (λ m shard, <[shard := bNum]> m) (lastCtx bc) shards) in
      Some (addNewLocks bc allKeys)
    else if bool_decide (txType = StateCommit) then
      '(shard, commit, report, root) ← DecodeStateCommit tx;
      let bc := unlock_shard bc shard in
      lcommit ← lastCommit bc !! shard;
      if bool_decide (RefNum lcommit ≤ report)%Z
      then Some (set_lastCommit bc
                   (<[shard := {| Shard := shard; BlockNum := commit;
                                  RefNum := report; StateRoot := root |}]>
                      (lastCommit bc)))
      else Some bc
    else Some bc
  else Some bc.

Fixpoint ref_status_txs `{Common} (bNum : Z) (bc : BlockChain)
    (i : nat) (txs : list Transaction) (receipts : list Receipt)
  : option BlockChain :=
  match txs with
  | [] => Some bc
  | tx :: txs' =>
      receipt ← receipts !! i;
      bc' ← ref_status_tx bNum bc tx receipt;
      ref_status_txs bNum bc' (S i) txs' receipts
  end.

(** [UpdateRefStatus]: absorb a reference block.  The log files it
    appends to are not part of the state and are left out. *)
Definition UpdateRefStatus `{Common} (bc : BlockChain) (block : Block)
    (receipts : list Receipt) : option BlockChain :=
  ref_status_txs (b_Number block) bc 0 (b_Transactions block) receipts.

Definition set_pendingCrossTxs (bc : BlockChain)
    (pending : gmap Z CrossShardTxs) : BlockChain :=
  {| myshard := myshard bc; pendingCrossTxs := pending;
     foreignData := foreignData bc; myLatestCommit := myLatestCommit bc;
     gLocked := gLocked bc; lockedAddrMap := lockedAddrMap bc;
     lastCommit := lastCommit bc; lastCtx := lastCtx bc;
     procCtxs := procCtxs bc |}.

(** One loop of [CleanPendingTx]: range over the map and delete the
    entries below [blockNum] that are still there. *)
Definition clean_below {A} (blockNum : Z) (m : gmap Z A) : gmap Z A :=
  foldl (λ acc (kv : Z * A),
           if bool_decide (kv.1 < blockNum)%Z
           then match acc !! kv.1 with
                | Some _ => delete kv.1 acc
                | None => acc
                end
           else acc)
        m (map_to_list m).

(** [CleanPendingTx]: drop the commitments and the pending cross-shard
    transactions of the reference blocks below [blockNum].
    [commitments] is the field of that name of the chain. *)
Definition CleanPendingTx (commitments : gmap Z Commitments)
    (bc : BlockChain) (blockNum : Z) : gmap Z Commitments * BlockChain :=
  (clean_below blockNum commitments,
   set_pendingCrossTxs bc (clean_below blockNum (pendingCrossTxs bc))).

(** [mergeReceipts]: the public receipts, each replaced by the private
    receipt of the same transaction when there is one.  [m[h]] on a
    missing key is a nil pointer, hence the [option]. *)
Section MergeReceipts.

Context {R : Type} (TxHash : R → Hash).

Definition mergeReceipts (pub priv : list R) : list (option R) :=
  let m := foldl (λ (m : gmap Hash R) receipt, <[TxHash receipt := receipt]> m)
                 ∅ pub in
  let m := foldl (λ (m : gmap Hash R) receipt, <[TxHash receipt := receipt]> m)
                 m priv in
  foldl (λ ret pubReceipt, ret ++ [m !! TxHash pubReceipt]) [] pub.

End MergeReceipts.

(** *** The state processor *)

Section Processor.

Context `{Common}.

(** The state database, the error type and the transaction executor are
    outside the files at hand.  [Snapshot] returns the revision
    identifier together with the database that remembers it. *)
Variables (St Err : Type).
Variable Prepare : St → Hash → Hash → Z → St.
Variable Snapshot : St → Z * St.
Variable RevertToSnapshot : St → Z → St.
Variable ApplyDAOHardFork : St → St.
Variable Finalize : St → list Transaction → list Receipt → St.

(** What [ApplyTransaction] leaves behind: the gas pool, both state
    databases and the gas counter as it mutated them, and either an
    error or the receipt with the optional private receipt. *)
Record applied := {
  ap_gp : Z;
  ap_statedb : St;
  ap_privateState : St;
  ap_usedGas : Z;
  ap_result : Err + Receipt * option Receipt
}.

Variable ApplyTransaction :
  BlockChain → Z → option DataCache → St → St → Transaction → Z → applied.

(** The variables of [Process] that live across the transactions. *)
Record proc := {
  p_statedb : St;
  p_privateState : St;
  p_gp : Z;
  p_usedGas : Z;
  p_receipts : list Receipt;
  p_privateReceipts : list Receipt;
  p_allLogs : list (list byte);
  p_dc : option DataCache;
  p_curr : Z
}.

Definition logs_of (r : Receipt) : list (list byte) :=
  default [] (rc_Logs r).

(** Whether the pending cross-shard transactions of reference height
    [curr] hold the transaction with hash [thash]. *)
Definition pending_at (bc : BlockChain) (curr : Z) (thash : Hash) : bool :=
  match pendingCrossTxs bc !! curr with
  | Some cst =>
      existsb (λ kv : Z * CrossTx, bool_decide (thash = tx_Hash (ctx_Tx kv.2)))
              (map_to_list (Txs cst))
  | None => false
  end.

(** The search [for curr <= end] for the reference height that holds
    the transaction.  [curr++] wraps at the top of [uint64]; a search
    that would go round is [None]. *)
Fixpoint seek_dc (fuel : nat) (bc : BlockChain) (thash : Hash)
    (dc : option DataCache) (curr end_ : Z) : option (option DataCache * Z) :=
  if bool_decide (curr ≤ end_)%Z then
    if pending_at bc curr thash then Some (foreignData bc !! curr, curr)
    else match fuel with
         | O => None
         | S fuel' => seek_dc fuel' bc thash dc (wrap_uint64 (curr + 1)) end_
         end
  else Some (dc, curr).

(** Everything up to and including the call of [ApplyTransaction] for
    the transaction at position [i]: the two revisions taken, the cache
    handed over, the position of the search, and the outcome. *)
Record attempt := {
  at_snap : Z;
  at_psnap : Z;
  at_dc : option DataCache;
  at_curr : Z;
  at_applied : applied
}.

Definition apply_at (bc : BlockChain) (block : Block) (end_ : Z)
    (i : nat) (tx : Transaction) (st : proc) : option attempt :=
  let statedb := Prepare (p_statedb st) (tx_Hash tx) (b_Hash block)
                         (Z.of_nat i) in
  let privateState := Prepare (p_privateState st) (tx_Hash tx) (b_Hash block)
                              (Z.of_nat i) in
  let '(snap, statedb) := Snapshot statedb in
  let '(psnap, privateState) := Snapshot privateState in
  '(dc, curr) ←
    (if bool_decide (tx_TxType tx ≠ CrossShardLocal)
     then Some (None, p_curr st)
     else seek_dc (Z.to_nat (end_ - p_curr st + 1)) bc (tx_Hash tx)
                  (p_dc st) (p_curr st) end_);
  Some {| at_snap := snap; at_psnap := psnap; at_dc := dc; at_curr := curr;
          at_applied := ApplyTransaction bc (p_gp st) dc statedb privateState
                                         tx (p_usedGas st) |}.

(** The body of the loop of [Process] over the transactions. *)
Definition process_tx (bc : BlockChain) (block : Block) (end_ : Z)
    (i : nat) (tx : Transaction) (st : proc) : option (Err + proc) :=
  a ← apply_at bc block end_ i tx st;
  let ap := at_applied a in
  match ap_result ap with
  | inl err =>
      if bool_decide (tx_TxType tx = CrossShardLocal)
      then Some (inr {| p_statedb :=
                          RevertToSnapshot (ap_statedb ap) (at_snap a);
                        p_privateState :=
                          RevertToSnapshot (ap_privateState ap) (at_psnap a);
                        p_gp := ap_gp ap; p_usedGas := ap_usedGas ap;
                        p_receipts := p_receipts st;
                        p_privateReceipts := p_privateReceipts st;
                        p_allLogs := p_allLogs st;
                        p_dc := at_dc a; p_curr := at_curr a |})
      else Some (inl err)
  | inr (receipt, privateReceipt) =>
      Some (inr {| p_statedb := ap_statedb ap;
                   p_privateState := ap_privateState ap;
                   p_gp := ap_gp ap; p_usedGas := ap_usedGas ap;
                   p_receipts := p_receipts st ++ [receipt];
                   p_privateReceipts :=
                     match privateReceipt with
                     | Some pr => p_privateReceipts st ++ [pr]
                     | None => p_privateReceipts st
                     end;
                   p_allLogs :=
                     match privateReceipt with
                     | Some pr => (p_allLogs st ++ logs_of receipt) ++ logs_of pr
                     | None => p_allLogs st ++ logs_of receipt
                     end;
                   p_dc := at_dc a; p_curr := at_curr a |})
  end.

Fixpoint process_txs (bc : BlockChain) (block : Block) (end_ : Z)
    (i : nat) (txs : list Transaction) (st : proc) : option (Err + proc) :=
  match txs with
  | [] => Some (inr st)
  | tx :: txs' =>
      match process_tx bc block end_ i tx st with
      | Some (inr st') => process_txs bc block end_ (S i) txs' st'
      | other => other
      end
  end.

(** The lock update of [Process] for one transaction of a block of the
    reference shard.  It addresses the lock tables through the fields
    [lockedAddr] and [lockedAddrMap] of the chain; they are read here as
    the global table and the shard index of [BlockChain]. *)
Definition post_tx (bc : BlockChain) (tx : Transaction) (receipt : Receipt)
  : option BlockChain :=
  let txType := tx_TxType tx in
  let status := bool_decide (rc_Status receipt = 1%Z) in
  if status && bool_decide (txType = StateCommit) then
    '(shard, _, _, _) ← DecodeStateCommit tx;
    Some (unlock_shard bc shard)
  else if status && bool_decide (txType = CrossShard) then
    '(_, allKyes) ← cross_keys tx;
    Some (addNewLocks bc allKyes)
  else Some bc.

Fixpoint post_txs (bc : BlockChain) (i : nat) (txs : list Transaction)
    (receipts : list Receipt) : option BlockChain :=
  match txs with
  | [] => Some bc
  | tx :: txs' =>
      receipt ← receipts !! i;
      bc' ← post_tx bc tx receipt;
      post_txs bc' (S i) txs' receipts
  end.

(** What [Process] returns on success, with the state it leaves. *)
Record processed := {
  pr_receipts : list Receipt;
  pr_privateReceipts : list Receipt;
  pr_allLogs : list (list byte);
  pr_usedGas : Z;
  pr_statedb : St;
  pr_privateState : St;
  pr_chain : BlockChain
}.

(** [Process]: run the transactions of [block], update the locks on the
    reference shard, and finalize.  [daoFork] is the hard-fork test on
    the chain configuration. *)
Definition Process (bc : BlockChain) (daoFork : bool) (block : Block)
    (start end_ : Z) (statedb privateState : St)
  : option (Err + processed) :=
  let statedb := if daoFork then ApplyDAOHardFork statedb else statedb in
  r ← process_txs bc block end_ 0 (b_Transactions block)
        {| p_statedb := statedb; p_privateState := privateState;
           p_gp := b_GasLimit block; p_usedGas := 0;
           p_receipts := []; p_privateReceipts := []; p_allLogs := [];
           p_dc := None; p_curr := start |};
  match r with
  | inl err => Some (inl err)
  | inr st =>
      bc' ← (if bool_decide (myshard bc = 0%Z)
             then post_txs bc 0 (b_Transactions block) (p_receipts st)
             else Some bc);
      Some (inr {| pr_receipts := p_receipts st;
                   pr_privateReceipts := p_privateReceipts st;
                   pr_allLogs := p_allLogs st;
                   pr_usedGas := p_usedGas st;
                   pr_statedb := Finalize (p_statedb st)
                                   (b_Transactions block) (p_receipts st);
                   pr_privateState := p_privateState st;
                   pr_chain := bc' |})
  end.

End Processor.

Arguments ap_gp {St Err} _.
Arguments ap_statedb {St Err} _.
Arguments ap_privateState {St Err} _.
Arguments ap_usedGas {St Err} _.
Arguments ap_result {St Err} _.
Arguments p_statedb {St} _.
Arguments p_privateState {St} _.
Arguments p_gp {St} _.
Arguments p_usedGas {St} _.
Arguments p_receipts {St} _.
Arguments p_privateReceipts {St} _.
Arguments p_allLogs {St} _.
Arguments p_dc {St} _.
Arguments p_curr {St} _.
Arguments at_snap {St Err} _.
Arguments at_psnap {St Err} _.
Arguments at_dc {St Err} _.
Arguments at_curr {St Err} _.
Arguments at_applied {St Err} _.
Arguments pr_receipts {St} _.
Arguments pr_privateReceipts {St} _.
Arguments pr_allLogs {St} _.
Arguments pr_usedGas {St} _.
Arguments pr_statedb {St} _.
Arguments pr_privateState {St} _.
Arguments pr_chain {St} _.

(** *** The transfer functions of the EVM context *)

(** [vm.StateDB], as far as the transfer functions use it. *)
Class StateDB (DB : Type) := {
  GetBalance : DB → Address → Z;
  GetNonce : DB → Address → Z;
  SubBalance : DB → Address → Z → DB;
  AddBalance : DB → Address → Z → DB
}.

(** [x.Uint64()] on a [big.Int]: the low 64 bits of the magnitude. *)
Definition big_Uint64 (x : Z) : Z := wrap_uint64 (Z.abs x).

(** [CanTransfer]: whether the account holds enough funds.  A nil
    cache is [None] in the first argument; the result [None] is the
    panic of [dc.Values[addr].Balance] on a nil entry. *)
Definition CanTransfer `{StateDB DB} (dc : option DataCache) (bshard : Z)
    (db : DB) (addr : Address) (amount : Z) : option bool :=
  match dc with
  | Some dc =>
      match AddrToShard dc !! addr with
      | Some shard =>
          balance ← (if bool_decide (shard ≠ bshard)
                     then cd_Balance <$> Values dc !! addr
                     else Some (GetBalance db addr));
          Some (bool_decide (amount ≤ balance)%Z)
      | None => Some false
      end
  | None => Some (bool_decide (amount ≤ GetBalance db addr)%Z)
  end.

Definition set_Balance (cd : CData) (balance : Z) : CData :=
  {| cd_Addr := cd_Addr cd; cd_Balance := balance; cd_Nonce := cd_Nonce cd;
     cd_Data := cd_Data cd |}.

Definition local_account `{StateDB DB} (db : DB) (addr : Address) : CData :=
  {| cd_Addr := addr; cd_Balance := big_Uint64 (GetBalance db addr);
     cd_Nonce := GetNonce db addr; cd_Data := ∅ |}.

Definition cached_account (addr : Address) (vals : CData) : CData :=
  {| cd_Addr := addr; cd_Balance := cd_Balance vals;
     cd_Nonce := cd_Nonce vals; cd_Data := ∅ |}.

(** [Transfer], the debit of a sender on another shard.  When the cache
    has no values for the sender the entry is written under
    [recipient], as in the source. *)
Definition debit_remote `{StateDB DB} (dc : DataCache)
    (dcChanges : gmap Address CData) (db : DB) (sender recipient : Address)
    (amount : Z) : option (gmap Address CData) :=
  let dcChanges :=
    match dcChanges !! sender with
    | Some _ => dcChanges
    | None =>
        match Values dc !! sender with
        | Some vals => <[sender := cached_account sender vals]> dcChanges
        | None => <[recipient := local_account db recipient]> dcChanges
        end
    end in
  cd ← dcChanges !! sender;
  Some (<[sender := set_Balance cd (wrap_uint64 (cd_Balance cd
                                                   - big_Uint64 amount))]>
          dcChanges).

(** [Transfer], the credit of a recipient on another shard. *)
Definition credit_remote `{StateDB DB} (dc : DataCache)
    (dcChanges : gmap Address CData) (db : DB) (recipient : Address)
    (amount : Z) : option (gmap Address CData) :=
  let dcChanges :=
    match dcChanges !! recipient with
    | Some _ => dcChanges
    | None =>
        match Values dc !! recipient with
        | Some vals => <[recipient := cached_account recipient vals]> dcChanges
        | None => <[recipient := local_account db recipient]> dcChanges
        end
    end in
  cd ← dcChanges !! recipient;
  Some (<[recipient := set_Balance cd (wrap_uint64 (cd_Balance cd
                                                      + big_Uint64 amount))]>
          dcChanges).

(** [Transfer]: move [amount] from [sender] to [recipient], in the
    database for local accounts and in [dcChanges] for remote ones. *)
Definition Transfer `{StateDB DB} (bshard : Z) (dc : option DataCache)
    (dcChanges : gmap Address CData) (db : DB) (sender recipient : Address)
    (amount : Z) : option (gmap Address CData * DB) :=
  match dc with
  | Some dc =>
      let sshard := default 0%Z (AddrToShard dc !! sender) in
      '(dcChanges, db) ←
        (if bool_decide (sshard ≠ bshard)
         then ch ← debit_remote dc dcChanges db sender recipient amount;
              Some (ch, db)
         else Some (dcChanges, SubBalance db sender amount));
      let rshard := default 0%Z (AddrToShard dc !! recipient) in
      if bool_decide (rshard ≠ bshard)
      then ch ← credit_remote dc dcChanges db recipient amount;
           Some (ch, db)
      else Some (dcChanges, AddBalance db recipient amount)
  | None =>
      Some (dcChanges, AddBalance (SubBalance db sender amount) recipient amount)
  end.

End core.

(** ** float64 *)

(** Go's [float64] is IEEE 754 binary64: the operations are the ones of
    [SpecFloat] at 53 bits of precision, each rounded on its own (no
    fused multiply-add), comparisons compare the values, and the
    conversion to [int64] truncates toward zero.  The conversion of a
    NaN, an infinity or a value out of range is left to the platform by
    the language; it is [None] here. *)
Module f64.











End f64.

(** ** miner: the worker *)

Module miner.

(** The coordination fields of [worker].  [gLocked], [lastCommit],
    [lastCtx] and [lockedAddrMap] are the very tables of the chain the
    worker was built with, so they are read through [chain]. *)
Record worker := {
  chain : core.BlockChain;
  cLocked : gmap Address CLock;
  cUnlocked : gmap Address CLock;
  addrShardMap : gmap Address Z
}.

Definition set_cLocked (w : worker) (c : gmap Address CLock) : worker :=
  {| chain := chain w; cLocked := c; cUnlocked := cUnlocked w;
     addrShardMap := addrShardMap w |}.

Definition set_cUnlocked (w : worker) (c : gmap Address CLock) : worker :=
  {| chain := chain w; cLocked := cLocked w; cUnlocked := c;
     addrShardMap := addrShardMap w |}.

(** The reset at the start of every attempt in [commitNewWork]. *)
Definition reset_tentative (w : worker) : worker :=
  {| chain := chain w; cLocked := ∅; cUnlocked := ∅;
     addrShardMap := addrShardMap w |}.

(** [updateLockStatus]: temporarily lock the keys of an admitted
    transaction. *)
Definition updateLockStatus (w : worker) (allKeys : AllKeys) : worker :=
  set_cLocked w
    (foldl (λ locks (shardKeys : Z * list CKeys),
              foldl lock_contract locks shardKeys.2)
           (cLocked w) allKeys).

(** [checkLockStatus]: [true] when a requested key of [addr] is
    locked.  [CheckGLock] is reached only under [galok], where its
    lookup succeeds. *)
Definition checkLockStatus (w : worker) (addr : Address)
    (addrKeys : gmap Hash bool) : bool :=
  let galok := bool_decide (is_Some (core.gLocked (chain w) !! addr)) in
  let calok := bool_decide (is_Some (cLocked w !! addr)) in
  if negb galok && negb calok then false
  else if match cLocked w !! addr with
          | Some cl => clock_conflict (cl_Keys cl) addrKeys
          | None => false
          end then true
  else if negb (bool_decide (is_Some (cUnlocked w !! addr))) && galok
  then match core.CheckGLock (core.gLocked (chain w)) addr addrKeys with
       | Some true => true
       | _ => false
       end
  else false.

(** [checkTxStatus]: [true] when the transaction is eligible. *)
Definition checkTxStatus (w : worker) (allKeys : AllKeys) : bool :=
  forallb (λ shardKeys : Z * list CKeys,
             forallb (λ cKeys, negb (checkLockStatus w (ck_Addr cKeys)
                                       (lockMap_of cKeys)))
                     shardKeys.2)
          allKeys.

(** The keys of a pending cross-shard transaction, as
    [NewValidCrossTransactions] extracts them. *)
Definition tx_keys `{Common} (tx : Transaction) : option AllKeys :=
  data ← slice_from (Data tx) 4;
  '(index, shards, _) ← DecodeCrossTx 0 data;
  let numShards := Z.of_nat (length shards) in
  let index := (index + 32 + 2)%Z in
  rest ← slice_from data (Z.to_nat index);
  '(allKeys, _, _) ← GetAllRWSet (wrap_uint16 numShards) rest;
  Some (map_to_list allKeys).

(** The state of the loops of [NewValidCrossTransactions]: the worker,
    the admitted transactions per creator, and the lines written to
    the [attempt] file (hash and verdict). *)
Record admission := {
  adm_worker : worker;
  newCtxs : gmap Address (list Transaction);
  attempts : list (Hash * bool)
}.

(** [NewValidCrossTransactions], one transaction of [creator]. *)
Definition admit_tx `{Common} (creator : Address) (st : admission)
    (tx : Transaction) : option admission :=
  let w := adm_worker st in
  if negb (bool_decide (tx_TxType tx = CrossShard)) then Some st
  else if core.IsProcessed (chain w) (tx_Hash tx) then Some st
  else
    allKyes ← tx_keys tx;
    let include := checkTxStatus w allKyes in
    Some {| adm_worker := if include then updateLockStatus w allKyes else w;
            newCtxs := if include
                       then <[creator := default [] (newCtxs st !! creator)
                                           ++ [tx]]> (newCtxs st)
                       else newCtxs st;
            attempts := attempts st ++ [(tx_Hash tx, include)] |}.

Definition admit_txs `{Common} (st : option admission)
    (entry : Address * list Transaction) : option admission :=
  foldl (λ acc tx, acc ≫= λ st, admit_tx entry.1 st tx) st entry.2.

(** [NewValidCrossTransactions]: the pending cross-shard transactions
    that can be included now.  [crossTxs] enumerates the argument
    map. *)
Definition admit_from `{Common} (st : admission)
    (crossTxs : list (Address * list Transaction)) : option admission :=
  foldl admit_txs (Some st) crossTxs.

Definition NewValidCrossTransactions `{Common} (w : worker)
    (crossTxs : list (Address * list Transaction)) : option admission :=
  admit_from {| adm_worker := w; newCtxs := ∅; attempts := [] |} crossTxs.

(** [unlockKeys]: mark every locked contract of [shard] as about to be
    unlocked. *)
Definition unlockKeys (w : worker) (shard : Z) : worker :=
  let lockedAddrs := default ∅ (core.lockedAddrMap (chain w) !! shard) in
  set_cUnlocked w
    (foldl (λ cu (kv : Address * bool),
              match cu !! kv.1 with
              | Some _ => cu
              | None => <[kv.1 := NewCLock kv.1]> cu
              end)
           (cUnlocked w) (map_to_list lockedAddrs)).

(** [NewValidStateCommitments], the scan of one sender's commits: the
    best candidate so far with its reference and block numbers. *)
Definition scan_commit `{Common} (lastCtx : Z)
    (st : option (option Transaction * Z * Z)) (tx : Transaction)
  : option (option Transaction * Z * Z) :=
  '(maxTx, maxRef, maxCom) ← st;
  '(_, commit, report, _) ← DecodeStateCommit tx;
  if bool_decide (lastCtx ≤ report)%Z then
    if bool_decide (maxRef < report)%Z then Some (Some tx, report, commit)
    else if bool_decide (report = maxRef) then
      if bool_decide (maxCom < commit)%Z then Some (Some tx, maxRef, commit)
      else Some (maxTx, maxRef, maxCom)
    else Some (maxTx, maxRef, maxCom)
  else Some (maxTx, maxRef, maxCom).

(** [NewValidStateCommitments], one sender. *)
Definition filter_sender `{Common}
    (st : option (worker * gmap Address (list Transaction)))
    (entry : Address * list Transaction)
  : option (worker * gmap Address (list Transaction)) :=
  '(w, newCommits) ← st;
  let '(addr, txs) := entry in
  let shard := default 0%Z (addrShardMap w !! addr) in
  lastCommit ← core.lastCommit (chain w) !! shard;
  let lastCtx := default 0%Z (core.lastCtx (chain w) !! shard) in
  '(maxTx, _, _) ← foldl (scan_commit lastCtx)
                     (Some (None, RefNum lastCommit, BlockNum lastCommit))
                     txs;
  match maxTx with
  | Some tx =>
      _ ← DecodeStateCommit tx;
      Some (unlockKeys w shard, <[addr := [tx]]> newCommits)
  | None => Some (w, newCommits)
  end.

(** [NewValidStateCommitments]: filter the state commitments.
    [stateTxs] enumerates the argument map. *)
Definition NewValidStateCommitments `{Common} (w : worker)
    (stateTxs : list (Address * list Transaction))
  : option (worker * gmap Address (list Transaction)) :=
  foldl filter_sender (Some (w, ∅)) stateTxs.

(** *** The work loop *)

(** [time.Duration] counts nanoseconds. *)
Definition Second : Z := 1000000000%Z.

Definition commitInterruptNone : Z := 0%Z.
Definition commitInterruptNewHead : Z := 1%Z.
Definition commitInterruptResubmit : Z := 2%Z.

(** The variables of [newWorkLoop] that live across the events:
    [has_interrupt] tells whether [interrupt] points to a flag yet. *)
Record workLoop := {
  recommit : Z;
  minRecommit : Z;
  has_interrupt : bool;
  timestamp : Z
}.

(** What the loop does to the rest of the node, in order. *)
Inductive effect :=
| NotifyUpdate (refNum : Z)
| CrossWork
| ReorgLog (newRefNum localNum commitNum now : Z)
| TxPoolResetHead (head : Z)
| ChainSetHead (head : Z)
| NewChainHead (reorg : bool)
| Sleep (duration : Z)
| StoreInterrupt (signal : Z)
| NewWorkReq (reorg noempty : bool) (timestamp : Z)
| TimerReset (duration : Z)
| ClearNewTxs.

(** The closure [commit]: abort the work in flight with signal [s] and
    submit a new request. *)
Definition commit (lp : workLoop) (noempty reorg : bool) (s : Z)
  : workLoop * list effect :=
  ({| recommit := recommit lp; minRecommit := minRecommit lp;
      has_interrupt := true; timestamp := timestamp lp |},
   (if has_interrupt lp then [StoreInterrupt s] else []) ++
   [NewWorkReq reorg noempty (timestamp lp); TimerReset (recommit lp);
    ClearNewTxs]).

(** The scan [for curRefNum <= newRefNum] for a reference height with a
    pending cross-shard transaction.  [curRefNum++] wraps at the top of
    [uint64]; a scan that would go round is [None]. *)
Fixpoint scan_ctx (fuel : nat) (bc : core.BlockChain)
    (curRefNum newRefNum : Z) : option bool :=
  if bool_decide (curRefNum ≤ newRefNum)%Z then
    if core.CtxExist bc curRefNum then Some true
    else match fuel with
         | O => None
         | S fuel' =>
             scan_ctx fuel' bc (wrap_uint64 (curRefNum + 1)) newRefNum
         end
  else Some false.

(** The case [head := <-w.rChainHeadCh] of [newWorkLoop].  [bc] is the
    local chain with its head [parentBlock]; [isHandler] tells whether
    the engine is a [consensus.Handler]; [now] and [logTime] are the two
    readings of the clock. *)
Definition on_ref_head (lp : workLoop) (bc : core.BlockChain)
    (isHandler : bool) (parentBlock block : core.Block) (now logTime : Z)
  : option (workLoop * list effect) :=
  let parentNum := core.b_Number parentBlock in
  let commitNum := core.CommitNum bc in
  if bool_decide (commitNum ≤ parentNum)%Z then
    let curRefNum := wrap_uint64 (core.b_RefNumber parentBlock + 1) in
    let newRefNum := core.b_Number block in
    reorg ← scan_ctx (Z.to_nat (newRefNum - curRefNum + 1)) bc
                     curRefNum newRefNum;
    let lp := {| recommit := recommit lp; minRecommit := minRecommit lp;
                 has_interrupt := has_interrupt lp; timestamp := now |} in
    if reorg : bool then
      let rewind :=
        if bool_decide (commitNum < parentNum)%Z
        then [ReorgLog newRefNum parentNum commitNum logTime;
              TxPoolResetHead commitNum; ChainSetHead commitNum] ++
             (if isHandler then [NewChainHead true] else [])
        else [] in
      let '(lp', submitted) := commit lp false reorg commitInterruptNewHead in
      Some (lp', [NotifyUpdate (core.b_Number block); CrossWork] ++ rewind ++
                 [Sleep (2 * Second)] ++ submitted)
    else Some (lp, [NotifyUpdate (core.b_Number block); CrossWork])
  else Some (lp, [NotifyUpdate (core.b_Number block)]).





End miner.

(** ** Payloads for worked examples *)

Definition byte_of (z : Z) : byte :=
  default Byte.x00 (Byte.of_N (Z.to_N (z mod 256))).

(** [n] bytes, big-endian. *)
Fixpoint be_bytes (n : nat) (z : Z) : list byte :=
  match n with
  | O => []
  | S n' => be_bytes n' (z / 256) ++ [byte_of z]
  end.

Definition word32 (z : Z) : list byte := be_bytes 32 z.

(** The read-write sets in the layout [GetAllRWSet] walks. *)
Definition encode_rwset (allKeys : AllKeys) : list byte :=
  flat_map (λ entry : Z * list CKeys,
    be_bytes 2 entry.1 ++ be_bytes 2 (Z.of_nat (length entry.2)) ++
    flat_map (λ cKeys : CKeys,
      be_bytes 20 (Z.of_N (ck_Addr cKeys)) ++
      be_bytes 2 (Z.of_nat (length (ck_Keys cKeys))) ++
      flat_map (λ key : Hash,
        be_bytes 32 (Z.of_N key) ++
        [if bool_decide (key ∈ ck_WKeys cKeys) then Byte.x01 else Byte.x00])
        (ck_Keys cKeys))
      entry.2)
    allKeys.

(** A cross-shard payload: selector, two head words, the shard count
    and the shards, a length word, the shard count again, and the
    read-write sets. *)
Definition encode_cross (shards : list Z) (allKeys : AllKeys) : list byte :=
  be_bytes 4 0 ++ word32 0 ++ word32 0 ++
  word32 (Z.of_nat (length shards)) ++ flat_map word32 shards ++
  word32 0 ++ be_bytes 2 (Z.of_nat (length shards)) ++ encode_rwset allKeys.

(** A state-commit payload: selector and the five words. *)
Definition encode_commit (shard block_num ref_num : Z)
    (state_root block_hash : Hash) : list byte :=
  be_bytes 4 0 ++ word32 shard ++ word32 block_num ++ word32 ref_num ++
  be_bytes 32 (Z.of_N state_root) ++ be_bytes 32 (Z.of_N block_hash).

(** A conversion for the examples: the value of the trailing bytes, the
    leading ones cropped. *)
Definition trailing_value (size : nat) (b : list byte) : N :=
  Z.to_N (be_uint (drop (length b - size) b)).

Definition be_common : Common :=
  {| BytesToHash := trailing_value 32; BytesToAddress := trailing_value 20 |}.

Definition empty_chain : core.BlockChain :=
  {| core.myshard := 0; core.pendingCrossTxs := ∅; core.foreignData := ∅;
     core.myLatestCommit := {| Shard := 0; BlockNum := 0; RefNum := 0;
                               StateRoot := 0%N |};
     core.gLocked := ∅; core.lockedAddrMap := ∅; core.lastCommit := ∅;
     core.lastCtx := ∅; core.procCtxs := ∅ |}.

Definition empty_worker : miner.worker :=
  {| miner.chain := empty_chain; miner.cLocked := ∅; miner.cUnlocked := ∅;
     miner.addrShardMap := ∅ |}.

(** The admission scenario: [ex_T1] writes the pair [(10, 1)] of a
    contract of shard 2, [ex_T2] reads it. *)
Definition ex_T1 : AllKeys :=
  [(2%Z, [{| ck_Addr := 10%N; ck_Keys := [1%N]; ck_WKeys := [1%N] |}])].
Definition ex_T2 : AllKeys :=
  [(2%Z, [{| ck_Addr := 10%N; ck_Keys := [1%N]; ck_WKeys := [] |}])].
Definition ex_tx1 : Transaction :=
  {| tx_TxType := CrossShard; tx_Hash := 101%N;
     tx_Payload := encode_cross [2%Z] ex_T1 |}.
Definition ex_tx2 : Transaction :=
  {| tx_TxType := CrossShard; tx_Hash := 102%N;
     tx_Payload := encode_cross [2%Z] ex_T2 |}.

(** The state-commit scenario: shard 2 last committed block 5 against
    reference block 3, and its latest cross-shard transaction sits at
    reference height 4. *)
Definition commit_tx (hash : Hash) (shard block_num ref_num : Z)
  : Transaction :=
  {| tx_TxType := StateCommit; tx_Hash := hash;
     tx_Payload := encode_commit shard block_num ref_num 77%N 88%N |}.



(** The unlock scenario: contract 10 of shard 2 is write-locked on key
    1; a state commit of shard 2 (block 9, reference 5) arrives in the
    reference block at height 7. *)
Definition ex_locked_chain : core.BlockChain :=
  {| core.myshard := 0; core.pendingCrossTxs := ∅; core.foreignData := ∅;
     core.myLatestCommit := {| Shard := 0; BlockNum := 0; RefNum := 0;
                               StateRoot := 0%N |};
     core.gLocked :=
       {[ 10%N := {| cl_Addr := 10%N; cl_Keys := {[ 1%N := (-1)%Z ]} |} ]};
     core.lockedAddrMap := {[ 2%Z := {[ 10%N := false ]} ]};
     core.lastCommit :=
       {[ 2%Z := {| Shard := 2; BlockNum := 5; RefNum := 3;
                    StateRoot := 0%N |} ]};
     core.lastCtx := {[ 2%Z := 4%Z ]}; core.procCtxs := ∅ |}.

Definition ok_receipt : core.Receipt :=
  {| core.rc_Status := 1; core.rc_Logs := Some [word32 1] |}.

Definition ex_commit_block : core.Block :=
  {| core.b_Number := 7; core.b_RefNumber := 0; core.b_Hash := 700%N;
     core.b_GasLimit := 1000000;
     core.b_Transactions := [commit_tx 301 2 9 5] |}.

(** The same block with a cross-shard transaction behind the commit that
    writes key 1 of contract 10 again. *)
Definition ex_relock_block : core.Block :=
  {| core.b_Number := 7; core.b_RefNumber := 0; core.b_Hash := 701%N;
     core.b_GasLimit := 1000000;
     core.b_Transactions := [commit_tx 301 2 9 5; ex_tx1] |}.

(** A toy executor for the processor: the state is a counter, a
    snapshot's revision is the counter's value, every transaction adds
    its hash to both counters, and the transactions with an odd hash
    fail afterwards. *)
Definition toy_apply (bc : core.BlockChain) (gp : Z) (dc : option DataCache)
    (statedb privateState : Z) (tx : Transaction) (usedGas : Z)
  : core.applied Z Z :=
  {| core.ap_gp := gp - 1; core.ap_statedb := statedb + Z.of_N (tx_Hash tx);
     core.ap_privateState := privateState + Z.of_N (tx_Hash tx);
     core.ap_usedGas := usedGas + 1;
     core.ap_result :=
       if N.odd (tx_Hash tx) then inl (Z.of_N (tx_Hash tx))
       else inr ({| core.rc_Status := 1; core.rc_Logs := None |}, None) |}%Z.

Definition toy_Process :=
  core.Process (H := be_common) Z Z (λ st _ _ _, st) (λ st, (st, st))
    (λ _ rev, rev) (λ st, st) (λ st _ _, st) toy_apply.

Definition toy_block (txs : list Transaction) : core.Block :=
  {| core.b_Number := 1; core.b_RefNumber := 0; core.b_Hash := 900%N;
     core.b_GasLimit := 100; core.b_Transactions := txs |}.

Definition toy_tx (txType : Z) (hash : Hash) : Transaction :=
  {| tx_TxType := txType; tx_Hash := hash; tx_Payload := [] |}.

Definition worker_chain : core.BlockChain :=
  {| core.myshard := 1; core.pendingCrossTxs := ∅; core.foreignData := ∅;
     core.myLatestCommit := {| Shard := 1; BlockNum := 0; RefNum := 0;
                               StateRoot := 0%N |};
     core.gLocked := ∅; core.lockedAddrMap := ∅; core.lastCommit := ∅;
     core.lastCtx := ∅; core.procCtxs := ∅ |}.

(** The reorganisation scenario: the local head is block 10 built
    against reference block 4, the last own commit is block 6, and
    reference block 6 holds a cross-shard transaction for this shard;
    the reference head moves to 7. *)
Definition ex_reorg_chain : core.BlockChain :=
  {| core.myshard := 1;
     core.pendingCrossTxs :=
       {[ 6%Z := {| Txs := {[ 0%Z := {| ctx_Shards := [1%Z; 2%Z];
                                        ctx_Tx := toy_tx CrossShardLocal 61;
                                        ctx_AllContracts := ex_T1 |} ]} |} ]};
     core.foreignData := ∅;
     core.myLatestCommit := {| Shard := 1; BlockNum := 6; RefNum := 4;
                               StateRoot := 0%N |};
     core.gLocked := ∅; core.lockedAddrMap := ∅; core.lastCommit := ∅;
     core.lastCtx := ∅; core.procCtxs := ∅ |}.

Definition ex_local_head : core.Block :=
  {| core.b_Number := 10; core.b_RefNumber := 4; core.b_Hash := 1000%N;
     core.b_GasLimit := 100; core.b_Transactions := [] |}.

Definition ex_ref_head : core.Block :=
  {| core.b_Number := 7; core.b_RefNumber := 0; core.b_Hash := 7000%N;
     core.b_GasLimit := 100; core.b_Transactions := [] |}.

Definition ex_loop : miner.workLoop :=
  {| miner.recommit := 3 * miner.Second; miner.minRecommit := miner.Second;
     miner.has_interrupt := true; miner.timestamp := 0 |}.

(** The foreign-data scenario: worker shard 1 needs contract 20 of
    shard 2 for a cross-shard transaction that also touches its own
    contract 10. *)
Definition ex_ctx : CrossTx :=
  {| ctx_Shards := [1%Z; 2%Z]; ctx_Tx := toy_tx CrossShardLocal 61;
     ctx_AllContracts :=
       [(1%Z, [{| ck_Addr := 10%N; ck_Keys := [1%N]; ck_WKeys := [1%N] |}]);
        (2%Z, [{| ck_Addr := 20%N; ck_Keys := [2%N]; ck_WKeys := [] |}])] |}.

Definition ex_commits : Commitments :=
  {| Commits := {[ 2%Z := Some {| Shard := 2; BlockNum := 5; RefNum := 3;
                                  StateRoot := 0%N |} ]} |}.

Definition ex_vals : list KeyVal :=
  [{| kv_Addr := 20%N; kv_Balance := 500; kv_Nonce := 1; kv_Data := [9%N] |}].

(** A state database for the examples: balances and nonces by
    address. *)
Record memdb := {
  balances : gmap Address Z;
  nonces : gmap Address Z
}.

#[local] Instance memdb_StateDB : core.StateDB memdb := {|
  core.GetBalance db addr := default 0%Z (balances db !! addr);
  core.GetNonce db addr := default 0%Z (nonces db !! addr);
  core.SubBalance db addr amount :=
    {| balances := <[addr := (default 0 (balances db !! addr) - amount)%Z]>
                     (balances db);
       nonces := nonces db |};
  core.AddBalance db addr amount :=
    {| balances := <[addr := (default 0 (balances db !! addr) + amount)%Z]>
                     (balances db);
       nonces := nonces db |}
|}.

(** The transfer scenario on worker shard 1: contract 10 is local,
    contract 20 lives on shard 2 and its values have not arrived,
    account 30 is not part of the transaction but rich locally. *)
Definition ex_cache : DataCache :=
  {| dc_RefNum := 5; Status := false; Required := 1; Received := 0;
     Keyval := ∅; AddrToShard := {[ 10%N := 1%Z; 20%N := 2%Z ]};
     ShardStatus := {[ 1%Z := true; 2%Z := false ]}; dc_Commits := ∅;
     Values := ∅ |}.

Definition ex_db : memdb :=
  {| balances := {[ 10%N := 100%Z; 20%N := 7%Z; 30%N := 1000000%Z ]};
     nonces := ∅ |}.

(** The locked chain seen by a miner that knows sender 22 as an account
    of shard 2. *)
Definition ex_locked_worker : miner.worker :=
  {| miner.chain := ex_locked_chain; miner.cLocked := ∅;
     miner.cUnlocked := ∅; miner.addrShardMap := {[ 22%N := 2%Z ]} |}.

(** The cache of the foreign-data scenario once [InitKeys] has
    registered [ex_ctx] for worker shard 1, and once shard 2 has
    delivered [ex_vals]. *)
Definition ex_keyed_cache : DataCache :=
  {| dc_RefNum := 5; Status := false; Required := 1; Received := 0;
     Keyval := {[ 10%N := {| ck_Addr := 10%N; ck_Keys := [1%N];
                             ck_WKeys := [] |};
                  20%N := {| ck_Addr := 20%N; ck_Keys := [2%N];
                             ck_WKeys := [] |} ]};
     AddrToShard := {[ 10%N := 1%Z; 20%N := 2%Z ]};
     ShardStatus := {[ 1%Z := true; 2%Z := false ]};
     dc_Commits := {[ 2%Z := Some {| Shard := 2; BlockNum := 5; RefNum := 3;
                                     StateRoot := 0%N |} ]};
     Values := ∅ |}.

Definition ex_filled_cache : DataCache :=
  {| dc_RefNum := 5; Status := true; Required := 1; Received := 1;
     Keyval := Keyval ex_keyed_cache;
     AddrToShard := AddrToShard ex_keyed_cache;
     ShardStatus := {[ 1%Z := true; 2%Z := true ]};
     dc_Commits := dc_Commits ex_keyed_cache;
     Values := {[ 20%N := {| cd_Addr := 20%N; cd_Balance := 500;
                             cd_Nonce := 1; cd_Data := {[ 2%N := 9%N ]} |} ]}
  |}.

(** Receipts for the merge examples: a transaction hash and a tag. *)
Definition ex_pub : list (Hash * Z) := [(1%N, 10%Z); (2%N, 20%Z); (3%N, 30%Z)].
Definition ex_priv : list (Hash * Z) := [(2%N, 21%Z); (2%N, 22%Z)].

(** ** Vocabulary of the statements *)


(** Some amount passes the transfer check for [addr]. *)
Definition can_be_source `{core.StateDB DB} (dc : option DataCache)
    (bshard : Z) (db : DB) (addr : Address) : Prop :=
  ∃ amount, core.CanTransfer dc bshard db addr amount = Some true.


(** The operations applied to a cache entry. *)
Inductive cache_op :=
| OpInitKeys (myshard : Z) (ctxs : list CrossTx) (commits : option Commitments)
| OpAddData (shard : Z) (vals : list KeyVal).

Definition run_op (dc : DataCache) (op : cache_op) : option DataCache :=
  match op with
  | OpInitKeys myshard ctxs commits => fst <$> InitKeys dc myshard ctxs commits
  | OpAddData shard vals => AddData dc shard vals
  end.

Definition run_ops (dc : DataCache) (ops : list cache_op) : option DataCache :=
  foldl (λ acc op, acc ≫= λ d, run_op d op) (Some dc) ops.

(** The ready flag says exactly that everything required has been
    received. *)
Definition ready_iff_complete (dc : DataCache) : Prop :=
  Status dc = true ↔ Received dc = Required dc.


(** The contracts the index records under a shard. *)
Definition indexed (bc : core.BlockChain) (shard : Z) : gmap Address bool :=
  default ∅ (core.lockedAddrMap bc !! shard).

(** Between [bc] and [bc'], shard [s] has been released: no contract
    recorded under it keeps an entry in the global lock table, and its
    own entry in the index is gone. *)
Definition shard_released (bc bc' : core.BlockChain) (s : Z) : Prop :=
  (∀ addr, is_Some (indexed bc s !! addr) → core.gLocked bc' !! addr = None) ∧
  core.lockedAddrMap bc' !! s = None.


(** The shard [NewValidStateCommitments] judges a sender against. *)
Definition sender_shard (w : miner.worker) (addr : Address) : Z :=
  default 0%Z (miner.addrShardMap w !! addr).


(** What makes a candidate acceptable for a sender of [w]: it is not
    below the shard's latest cross-shard transaction and it strictly
    increases (reference number, block number) over the last commit. *)
Definition acceptable `{Common} (w : miner.worker) (addr : Address)
    (tx : Transaction) : Prop :=
  ∃ shard commit report root lc,
    DecodeStateCommit tx = Some (shard, commit, report, root) ∧
    core.lastCommit (miner.chain w) !! sender_shard w addr = Some lc ∧
    (default 0 (core.lastCtx (miner.chain w) !! sender_shard w addr)
       ≤ report)%Z ∧
    (RefNum lc < report ∨ (report = RefNum lc ∧ BlockNum lc < commit))%Z.


(** The tentative entry of the pair [(a, k)]. *)
Definition tentative (w : miner.worker) (a : Address) (k : Hash) : option Z :=
  miner.cLocked w !! a ≫= λ cl, cl_Keys cl !! k.

(** The key set of a transaction contains the pair [(a, k)], read or
    written. *)
Definition touches (allKeys : AllKeys) (a : Address) (k : Hash) : Prop :=
  ∃ (shardKeys : Z * list CKeys) (cKeys : CKeys),
    shardKeys ∈ allKeys ∧ cKeys ∈ shardKeys.2 ∧ ck_Addr cKeys = a ∧
    (k ∈ ck_Keys cKeys ∨ k ∈ ck_WKeys cKeys).

(** The state [Process] starts its loop from. *)
Definition process_start (St : Type) (ApplyDAOHardFork : St → St)
    (daoFork : bool) (block : core.Block) (start : Z)
    (statedb privateState : St) : core.proc St :=
  {| core.p_statedb := if daoFork then ApplyDAOHardFork statedb else statedb;
     core.p_privateState := privateState;
     core.p_gp := core.b_GasLimit block; core.p_usedGas := 0;
     core.p_receipts := []; core.p_privateReceipts := [];
     core.p_allLogs := []; core.p_dc := None; core.p_curr := start |}.

(** The request for key [k] of a contract, as [checkTxStatus] builds
    it: absent when the contract does not name the key, [true] when it
    writes it. *)
Definition request_of (cKeys : CKeys) (k : Hash) : option bool :=
  if bool_decide (k ∈ ck_WKeys cKeys) then Some true
  else if bool_decide (k ∈ ck_Keys cKeys) then Some false
  else None.

(** A requested key meets a tentative lock it cannot share: the lock is
    a write lock or the request is a write. *)
Definition tentative_conflict (w : miner.worker) (addr : Address)
    (addrKeys : gmap Hash bool) : Prop :=
  ∃ key kval cl cval,
    addrKeys !! key = Some kval ∧ miner.cLocked w !! addr = Some cl ∧
    cl_Keys cl !! key = Some cval ∧ ((cval < 0)%Z ∨ kval = true).

(** A requested key meets a global lock it cannot share, on a contract
    that no state commit of this attempt is about to unlock. *)
Definition global_conflict (w : miner.worker) (addr : Address)
    (addrKeys : gmap Hash bool) : Prop :=
  ∃ key kval gl gval,
    addrKeys !! key = Some kval ∧ miner.cUnlocked w !! addr = None ∧
    core.gLocked (miner.chain w) !! addr = Some gl ∧
    cl_Keys gl !! key = Some gval ∧ (kval = true ∨ (gval < 0)%Z).

(** The entry of the pair [(a, k)] in a lock table. *)
Definition lock_entry (locks : gmap Address CLock) (a : Address) (k : Hash)
  : option Z :=
  locks !! a ≫= λ cl, cl_Keys cl !! k.

(** How often a key is listed. *)
Definition occurrences (k : Hash) (l : list Hash) : Z :=
  Z.of_nat (length (filter (λ x, x = k) l)).

(** Every contract with a global lock entry is recorded in the index
    under some shard, so that a state commit of that shard releases
    it. *)
Definition locks_indexed (g : gmap Address CLock)
    (idx : gmap Z (gmap Address bool)) : Prop :=
  ∀ addr, is_Some (g !! addr) →
          ∃ shard m, idx !! shard = Some m ∧ is_Some (m !! addr).



(** The key set of a transaction writes the pair [(a, k)]. *)
Definition writes (allKeys : AllKeys) (a : Address) (k : Hash) : Prop :=
  ∃ (shardKeys : Z * list CKeys) (cKeys : CKeys),
    shardKeys ∈ allKeys ∧ cKeys ∈ shardKeys.2 ∧ ck_Addr cKeys = a ∧
    k ∈ ck_WKeys cKeys.

(** Every written key of the contract is among its keys. *)
Definition written_keys_listed (cKeys : CKeys) : Prop :=
  ∀ k, k ∈ ck_WKeys cKeys → k ∈ ck_Keys cKeys.

(** The cache can take the values [v]: the contract was registered by
    [InitKeys] with at least as many keys as [v] brings values. *)
Definition registered (dc : DataCache) (v : KeyVal) : Prop :=
  ∃ ck, Keyval dc !! kv_Addr v = Some ck ∧
        length (kv_Data v) ≤ length (ck_Keys ck).

(** The contracts with a shard are the contracts with a key list. *)
Definition keyed (dc : DataCache) : Prop :=
  ∀ a, is_Some (AddrToShard dc !! a) ↔ is_Some (Keyval dc !! a).

(** The cache knows the contract and all the keys it lists. *)
Definition covers (dc : DataCache) (contract : CKeys) : Prop :=
  is_Some (AddrToShard dc !! ck_Addr contract) ∧
  ∃ ck, Keyval dc !! ck_Addr contract = Some ck ∧
        ∀ k, k ∈ ck_Keys contract → k ∈ ck_Keys ck.

(** [dc'] knows every contract, key and shard that [dc] knows. *)
Definition cache_extends (dc dc' : DataCache) : Prop :=
  (∀ a, is_Some (AddrToShard dc !! a) → is_Some (AddrToShard dc' !! a)) ∧
  (∀ a ck, Keyval dc !! a = Some ck →
           ∃ ck', Keyval dc' !! a = Some ck' ∧
                  ∀ k, k ∈ ck_Keys ck → k ∈ ck_Keys ck') ∧
  (∀ s, is_Some (ShardStatus dc !! s) → is_Some (ShardStatus dc' !! s)).

(** From [bc] to [bc'] no shard gains or loses its last commit, and the
    reference number of a last commit does not go down. *)
Definition commits_advance (bc bc' : core.BlockChain) : Prop :=
  ∀ shard,
    match core.lastCommit bc !! shard with
    | Some lc => ∃ lc', core.lastCommit bc' !! shard = Some lc' ∧
                        (RefNum lc ≤ RefNum lc')%Z
    | None => core.lastCommit bc' !! shard = None
    end.

(** * Properties *)

(** ** Admission against a held write lock *)

Section TentativeLocks.

Implicit Types (w : miner.worker) (a : Address) (k : Hash) (cKeys : CKeys).

Lemma lockMap_of_requested cKeys k :
  k ∈ ck_Keys cKeys ∨ k ∈ ck_WKeys cKeys → is_Some (lockMap_of cKeys !! k).
Proof.
  unfold lockMap_of.
  assert (Hkeep : ∀ (b : bool) (l : list Hash) (m : gmap Hash bool),
             is_Some (m !! k) →
             is_Some (foldl (λ m key, <[key := b]> m) m l !! k)).
  { intros b l. induction l as [|x l IH]; intros m Hm; simpl; [done|].
    apply IH. destruct (decide (x = k)) as [->|Hne].
    - rewrite lookup_insert_eq. eauto.
    - by rewrite lookup_insert_ne. }
  assert (Hadd : ∀ (b : bool) (l : list Hash) (m : gmap Hash bool),
             k ∈ l → is_Some (foldl (λ m key, <[key := b]> m) m l !! k)).
  { intros b l. induction l as [|x l IH]; intros m Hin; simpl.
    - by apply elem_of_nil in Hin.
    - apply elem_of_cons in Hin as [<-|Hin].
      + apply Hkeep. rewrite lookup_insert_eq. eauto.
      + by apply IH. }
  intros [Hr|Hw].
  - apply Hkeep. by apply Hadd.
  - by apply Hadd.
Qed.

Lemma clock_conflict_held_write (keys : gmap Hash Z)
    (addrKeys : gmap Hash bool) k :
  keys !! k = Some (-1)%Z → is_Some (addrKeys !! k) →
  clock_conflict keys addrKeys = true.
Proof.
  intros Hk [b Hb]. unfold clock_conflict.
  apply existsb_exists. exists (k, b). split.
  - apply list_elem_of_In. by apply elem_of_map_to_list.
  - simpl. by rewrite Hk.
Qed.

Lemma checkLockStatus_held_write w a k (addrKeys : gmap Hash bool) :
  tentative w a k = Some (-1)%Z → is_Some (addrKeys !! k) →
  miner.checkLockStatus w a addrKeys = true.
Proof.
  unfold tentative, miner.checkLockStatus. intros Ht Hreq.
  destruct (miner.cLocked w !! a) as [cl|] eqn:Hcl; simpl in Ht; [|done].
  rewrite (clock_conflict_held_write _ _ k Ht Hreq).
  rewrite (bool_decide_eq_true_2 (is_Some (Some cl))); [|eauto].
  by rewrite andb_false_r.
Qed.

Lemma checkTxStatus_held_write w a k (allKeys : AllKeys) :
  tentative w a k = Some (-1)%Z → touches allKeys a k →
  miner.checkTxStatus w allKeys = false.
Proof.
  intros Ht (shardKeys & cKeys & Hs & Hc & Ha & Hk).
  unfold miner.checkTxStatus.
  apply not_true_is_false. intros Hall.
  rewrite forallb_forall in Hall.
  specialize (Hall shardKeys (proj1 (list_elem_of_In _ _) Hs)).
  rewrite forallb_forall in Hall.
  specialize (Hall cKeys (proj1 (list_elem_of_In _ _) Hc)).
  rewrite Ha in Hall.
  rewrite (checkLockStatus_held_write w a k) in Hall; [done|done|].
  by apply lockMap_of_requested.
Qed.

Lemma read_lock_other (keys : gmap Hash Z) k key :
  key ≠ k → read_lock keys key !! k = keys !! k.
Proof.
  intros Hne. unfold read_lock.
  rewrite lookup_insert_ne; [|done].
  destruct (keys !! key); [done|]. by rewrite lookup_insert_ne.
Qed.

Lemma read_locks_other (l : list Hash) (keys : gmap Hash Z) k :
  k ∉ l → foldl read_lock keys l !! k = keys !! k.
Proof.
  revert keys. induction l as [|x l IH]; intros keys Hnin; simpl; [done|].
  apply not_elem_of_cons in Hnin as [Hne Hnin].
  rewrite IH; [|done]. by apply read_lock_other.
Qed.

Lemma write_locks_other (l : list Hash) (keys : gmap Hash Z) k :
  k ∉ l → foldl write_lock keys l !! k = keys !! k.
Proof.
  revert keys. induction l as [|x l IH]; intros keys Hnin; simpl; [done|].
  apply not_elem_of_cons in Hnin as [Hne Hnin].
  rewrite IH; [|done]. unfold write_lock. by rewrite lookup_insert_ne.
Qed.

(** Locking the keys of a contract leaves every pair it does not name
    as it was. *)
Lemma lock_contract_other (locks : gmap Address CLock) cKeys a k :
  ¬ (ck_Addr cKeys = a ∧ (k ∈ ck_Keys cKeys ∨ k ∈ ck_WKeys cKeys)) →
  (lock_contract locks cKeys !! a ≫= λ cl, cl_Keys cl !! k)
  = (locks !! a ≫= λ cl, cl_Keys cl !! k).
Proof.
  intros Hnot. unfold lock_contract.
  destruct (decide (ck_Addr cKeys = a)) as [Ha|Ha].
  - subst a. rewrite lookup_insert_eq. simpl.
    rewrite write_locks_other; [|tauto].
    rewrite read_locks_other; [|tauto].
    by destruct (locks !! ck_Addr cKeys).
  - by rewrite lookup_insert_ne.
Qed.

Lemma updateLockStatus_other w (allKeys : AllKeys) a k :
  ¬ touches allKeys a k →
  tentative (miner.updateLockStatus w allKeys) a k = tentative w a k.
Proof.
  unfold tentative, miner.updateLockStatus. simpl.
  generalize (miner.cLocked w). clear w.
  induction allKeys as [|shardKeys allKeys IH]; intros locks Hnot; [done|].
  simpl. rewrite IH.
  - assert (Hin : ∀ cKeys, cKeys ∈ shardKeys.2 →
               ¬ (ck_Addr cKeys = a ∧
                  (k ∈ ck_Keys cKeys ∨ k ∈ ck_WKeys cKeys))).
    { intros cKeys Hc [Ha Hk]. apply Hnot.
      exists shardKeys, cKeys. repeat split; try done. apply elem_of_cons; auto. }
    revert locks Hin. generalize (shardKeys.2).
    induction l as [|cKeys l IHl]; intros locks Hin; [done|].
    simpl. rewrite IHl.
    + apply lock_contract_other, Hin, elem_of_cons; auto.
    + intros c Hc. apply Hin, elem_of_cons; auto.
  - intros (sk & ck & Hs & Hrest). apply Hnot.
    exists sk, ck. split; [apply elem_of_cons; auto|done].
Qed.

(** One pending transaction keeps a held write lock and is admitted
    only when its key set avoids the locked pair. *)
Lemma admit_tx_held_write `{Common} creator (st st' : miner.admission)
    (tx : Transaction) a k :
  tentative (miner.adm_worker st) a k = Some (-1)%Z →
  miner.admit_tx creator st tx = Some st' →
  tentative (miner.adm_worker st') a k = Some (-1)%Z ∧
  ∀ c t, t ∈ default [] (miner.newCtxs st' !! c) →
         t ∈ default [] (miner.newCtxs st !! c) ∨
         ∃ allKeys, miner.tx_keys t = Some allKeys ∧ ¬ touches allKeys a k.
Proof.
  intros Ht. unfold miner.admit_tx.
  destruct (negb _); [intros [= <-]; auto|].
  destruct (core.IsProcessed _ _); [intros [= <-]; auto|].
  destruct (miner.tx_keys tx) as [allKyes|] eqn:Hkeys; simpl; [|done].
  intros [= <-]. simpl.
  destruct (miner.checkTxStatus _ allKyes) eqn:Hinc.
  - assert (Hnot : ¬ touches allKyes a k).
    { intros Htouch.
      rewrite (checkTxStatus_held_write _ a k) in Hinc; done. }
    split; [by rewrite updateLockStatus_other|].
    intros c t. destruct (decide (creator = c)) as [->|Hne].
    + rewrite lookup_insert_eq. simpl.
      intros [Hold| ->%list_elem_of_singleton]%elem_of_app; eauto.
    + rewrite lookup_insert_ne; auto.
  - auto.
Qed.

Lemma admit_from_held_write `{Common} (crossTxs : list (Address * list Transaction))
    (st st' : miner.admission) a k :
  tentative (miner.adm_worker st) a k = Some (-1)%Z →
  miner.admit_from st crossTxs = Some st' →
  tentative (miner.adm_worker st') a k = Some (-1)%Z ∧
  ∀ c t, t ∈ default [] (miner.newCtxs st' !! c) →
         t ∈ default [] (miner.newCtxs st !! c) ∨
         ∃ allKeys, miner.tx_keys t = Some allKeys ∧ ¬ touches allKeys a k.
Proof.
  unfold miner.admit_from.
  assert (Hnone : ∀ (A B : Type) (f : A → B → option A) (l : list B),
             foldl (λ acc x, acc ≫= λ s, f s x) None l = None).
  { intros A B f l. induction l; simpl; auto. }
  assert (Hinner : ∀ creator (txs : list Transaction) (s s' : miner.admission),
             tentative (miner.adm_worker s) a k = Some (-1)%Z →
             foldl (λ acc tx, acc ≫= λ s, miner.admit_tx creator s tx)
                   (Some s) txs = Some s' →
             tentative (miner.adm_worker s') a k = Some (-1)%Z ∧
             ∀ c t, t ∈ default [] (miner.newCtxs s' !! c) →
                    t ∈ default [] (miner.newCtxs s !! c) ∨
                    ∃ allKeys, miner.tx_keys t = Some allKeys ∧
                               ¬ touches allKeys a k).
  { intros creator txs. induction txs as [|tx txs IH]; intros s s' Hs.
    - intros [= <-]. auto.
    - simpl. destruct (miner.admit_tx creator s tx) as [s1|] eqn:Hstep.
      + intros Hrest.
        destruct (admit_tx_held_write _ _ _ _ _ _ Hs Hstep) as [Hs1 Hnew1].
        destruct (IH _ _ Hs1 Hrest) as [Hs' Hnew']. split; [done|].
        intros c t Hin. destruct (Hnew' c t Hin) as [Hold|Hfresh]; auto.
      + rewrite Hnone. done. }
  revert st. induction crossTxs as [|[creator txs] crossTxs IH]; intros st Hs.
  - intros [= <-]. auto.
  - simpl. unfold miner.admit_txs at 2. simpl.
    destruct (foldl _ (Some st) txs) as [s1|] eqn:Hstep.
    + intros Hrest.
      destruct (Hinner _ _ _ _ Hs Hstep) as [Hs1 Hnew1].
      destruct (IH _ Hs1 Hrest) as [Hs' Hnew']. split; [done|].
      intros c t Hin. destruct (Hnew' c t Hin) as [Hold|Hfresh]; auto.
    + intros Hrest. exfalso. revert Hrest. clear -Hnone.
      induction crossTxs as [|e l IHl]; simpl; [done|].
      unfold miner.admit_txs at 2. simpl. by rewrite Hnone.
Qed.

End TentativeLocks.

(** C1.  Once the tentative entry of a pair [(a, k)] is the write lock
    [-1], it stays [-1] through the rest of the attempt, every admission
    check whose key set contains the pair reports a conflict, and no
    transaction whose key set contains the pair is admitted afterwards.
    In particular, on empty tables a transaction writing [(A, 1)] is
    admitted, a following one reading [(A, 1)] is rejected, and the
    entry is left at [-1]. *)
Theorem held_write_lock_rejects_requests `{Common} :
  (∀ (st st' : miner.admission) (crossTxs : list (Address * list Transaction))
     (a : Address) (k : Hash),
      tentative (miner.adm_worker st) a k = Some (-1)%Z →
      miner.admit_from st crossTxs = Some st' →
      tentative (miner.adm_worker st') a k = Some (-1)%Z ∧
      (∀ allKeys, touches allKeys a k →
                  miner.checkTxStatus (miner.adm_worker st') allKeys = false) ∧
      (∀ c t, t ∈ default [] (miner.newCtxs st' !! c) →
              t ∈ default [] (miner.newCtxs st !! c) ∨
              ∃ allKeys, miner.tx_keys t = Some allKeys ∧
                         ¬ touches allKeys a k)) ∧
  (miner.checkTxStatus empty_worker ex_T1 = true ∧
   miner.checkTxStatus (miner.updateLockStatus empty_worker ex_T1) ex_T2
     = false ∧
   tentative (miner.updateLockStatus empty_worker ex_T1) 10%N 1%N
     = Some (-1)%Z).
Proof.
  split.
  - intros st st' crossTxs a k Hheld Hrun.
    destruct (admit_from_held_write _ _ _ _ _ Hheld Hrun) as [Hkept Hnew].
    split; [done|]. split; [|done].
    intros allKeys Htouch. by apply (checkTxStatus_held_write _ a k).
  - by vm_compute.
Qed.

(** The scenario on payload bytes: starting from the worker that has
    admitted [ex_tx1], the pending [ex_tx2] is processed. *)
Lemma held_write_lock_rejects_requests_witness :
  let st := {| miner.adm_worker := miner.updateLockStatus empty_worker ex_T1;
               miner.newCtxs := {[ 7%N := [ex_tx1] ]};
               miner.attempts := [(101%N, true)] |} in
  let st' := {| miner.adm_worker := miner.updateLockStatus empty_worker ex_T1;
                miner.newCtxs := {[ 7%N := [ex_tx1] ]};
                miner.attempts := [(101%N, true); (102%N, false)] |} in
  tentative (miner.adm_worker st) 10%N 1%N = Some (-1)%Z ∧
  miner.admit_from (H := be_common) st [(7%N, [ex_tx2])] = Some st' ∧
  tentative (miner.adm_worker st') 10%N 1%N = Some (-1)%Z.
Proof.
  intros st st'.
  assert (Hheld : tentative (miner.adm_worker st) 10%N 1%N = Some (-1)%Z)
    by (vm_compute; reflexivity).
  assert (Hrun : miner.admit_from (H := be_common) st [(7%N, [ex_tx2])]
                 = Some st') by (vm_compute; reflexivity).
  split; [exact Hheld|]. split; [exact Hrun|].
  exact (proj1 (proj1 (held_write_lock_rejects_requests (H := be_common))
                  st st' [(7%N, [ex_tx2])] 10%N 1%N Hheld Hrun)).
Defined.

(** ** The state-commit filter *)

Section StateCommitFilter.

Context `{Common}.

Implicit Types (w : miner.worker) (tx : Transaction).

(** The scan keeps either the last commit untouched, or a candidate of
    the list that beats it and clears the cross-shard bound. *)
Lemma scan_commits_best (lastCtx R0 B0 : Z) (txs : list Transaction)
    (maxTx : option Transaction) (maxRef maxCom : Z) :
  foldl (miner.scan_commit lastCtx) (Some (None, R0, B0)) txs
    = Some (maxTx, maxRef, maxCom) →
  match maxTx with
  | None => maxRef = R0 ∧ maxCom = B0
  | Some tx =>
      tx ∈ txs ∧
      (∃ shard root,
          DecodeStateCommit tx = Some (shard, maxCom, maxRef, root)) ∧
      (lastCtx ≤ maxRef)%Z ∧
      (R0 < maxRef ∨ (maxRef = R0 ∧ B0 < maxCom))%Z
  end.
Proof.
  set (Inv := λ (seen : list Transaction) (st : option Transaction * Z * Z),
         match st.1.1 with
         | None => st.1.2 = R0 ∧ st.2 = B0
         | Some tx =>
             tx ∈ seen ∧
             (∃ shard root,
                 DecodeStateCommit tx = Some (shard, st.2, st.1.2, root)) ∧
             (lastCtx ≤ st.1.2)%Z ∧
             (R0 < st.1.2 ∨ (st.1.2 = R0 ∧ B0 < st.2))%Z
         end).
  assert (Hgen : ∀ (rest seen : list Transaction) st st',
             Inv seen st →
             foldl (miner.scan_commit lastCtx) (Some st) rest = Some st' →
             Inv (seen ++ rest) st').
  { induction rest as [|tx rest IH]; intros seen st st' Hinv.
    - intros [= <-]. by rewrite app_nil_r.
    - simpl. destruct st as [[mTx mRef] mCom]. simpl.
      destruct (DecodeStateCommit tx) as [[[[shard commit] report] root]|]
        eqn:Hdec; simpl.
      + replace (seen ++ tx :: rest) with ((seen ++ [tx]) ++ rest)
          by (by rewrite <- app_assoc).
        assert (Hweak : Inv (seen ++ [tx]) (mTx, mRef, mCom)).
        { unfold Inv in *. simpl in *. destruct mTx; [|done].
          destruct Hinv as (Hin & Hrest). split; [|done].
          apply elem_of_app; auto. }
        assert (Hlex : (R0 < mRef ∨ (mRef = R0 ∧ B0 ≤ mCom))%Z).
        { unfold Inv in Hinv. simpl in Hinv. destruct mTx; lia. }
        assert (Hhere : tx ∈ seen ++ [tx]).
        { apply elem_of_app. right. by apply list_elem_of_singleton. }
        repeat case_bool_decide; apply IH; try done;
          unfold Inv; simpl; (split; [done|]);
          (split; [by subst; eauto|]); lia.
      + intros Hnone. exfalso. revert Hnone. clear.
        induction rest as [|x rest IHr]; simpl; [done|]. exact IHr. }
  intros Hrun. apply (Hgen txs [] _ _) in Hrun; [|by unfold Inv].
  unfold Inv in Hrun. simpl in Hrun. by destruct maxTx.
Qed.

Lemma filter_sender_none (l : list (Address * list Transaction)) :
  foldl miner.filter_sender None l = None.
Proof. induction l; simpl; auto. Qed.

(** One sender leaves the chain and the sender map alone, and whatever
    it enters for its address is a single acceptable candidate of its
    list. *)
Lemma filter_sender_step w w' (nc nc' : gmap Address (list Transaction))
    (addr : Address) (txs : list Transaction) :
  miner.filter_sender (Some (w, nc)) (addr, txs) = Some (w', nc') →
  miner.chain w' = miner.chain w ∧
  miner.addrShardMap w' = miner.addrShardMap w ∧
  ((nc' = nc) ∨
   (∃ tx, nc' = <[addr := [tx]]> nc ∧ tx ∈ txs ∧ acceptable w addr tx)).
Proof.
  unfold miner.filter_sender. simpl.
  destruct (core.lastCommit (miner.chain w) !! _) as [lc|] eqn:Hlc;
    simpl; [|done].
  destruct (foldl _ _ txs) as [[[maxTx maxRef] maxCom]|] eqn:Hscan;
    simpl; [|done].
  apply scan_commits_best in Hscan.
  destruct maxTx as [tx|].
  - destruct Hscan as (Hin & (shard & root & Hdec) & Hctx & Hlex).
    rewrite Hdec. simpl. intros [= <- <-].
    split; [done|]. split; [done|]. right. exists tx.
    split; [done|]. split; [done|].
    exists shard, maxCom, maxRef, root, lc. unfold sender_shard. auto.
  - intros [= <- <-]. auto.
Qed.

Lemma filter_senders w w' (stateTxs : list (Address * list Transaction))
    (nc nc' : gmap Address (list Transaction)) :
  foldl miner.filter_sender (Some (w, nc)) stateTxs = Some (w', nc') →
  miner.chain w' = miner.chain w ∧
  miner.addrShardMap w' = miner.addrShardMap w ∧
  ∀ addr txs, nc' !! addr = Some txs →
    nc !! addr = Some txs ∨
    ∃ tx cands, txs = [tx] ∧ (addr, cands) ∈ stateTxs ∧ tx ∈ cands ∧
                acceptable w addr tx.
Proof.
  revert w nc. induction stateTxs as [|[addr cands] rest IH]; intros w nc.
  - intros [= <- <-]. auto.
  - cbn [foldl].
    destruct (miner.filter_sender (Some (w, nc)) (addr, cands))
      as [[w1 nc1]|] eqn:Hstep; [|by rewrite filter_sender_none].
    intros Hrest.
    destruct (filter_sender_step _ _ _ _ _ _ Hstep) as (Hc1 & Hm1 & Hnc1).
    destruct (IH _ _ Hrest) as (Hc' & Hm' & Hnc').
    split; [congruence|]. split; [congruence|].
    intros a txs Ha.
    assert (Hsame : ∀ t, acceptable w1 a t → acceptable w a t).
    { unfold acceptable, sender_shard. rewrite Hc1, Hm1. auto. }
    destruct (Hnc' a txs Ha) as [Hold|(tx & cs & -> & Hin & Htx & Hacc)].
    + destruct Hnc1 as [->|(tx & -> & Htx & Hacc)]; [auto|].
      destruct (decide (addr = a)) as [->|Hne].
      * rewrite lookup_insert_eq in Hold. injection Hold as <-.
        right. exists tx, cands. repeat split; auto. apply elem_of_cons; auto.
      * rewrite lookup_insert_ne in Hold; auto.
    + right. exists tx, cs. repeat split; auto. apply elem_of_cons; auto.
Qed.

End StateCommitFilter.




(** ** Release of a shard's locks on its state commit *)

Section Release.

Context `{Common}.

Lemma delete_all_lookup (l : list (Address * bool)) (g : gmap Address CLock)
    (addr : Address) :
  addr ∈ l.*1 → foldl (λ g kv, delete kv.1 g) g l !! addr = None.
Proof.
  assert (Hkeep : ∀ (l : list (Address * bool)) (g : gmap Address CLock),
             g !! addr = None →
             foldl (λ g kv, delete kv.1 g) g l !! addr = None).
  { clear l g. induction l as [|kv l IH]; intros g Hg; simpl; [done|].
    apply IH. destruct (decide (kv.1 = addr)) as [->|Hne].
    - apply lookup_delete_eq.
    - by rewrite lookup_delete_ne. }
  revert g. induction l as [|kv l IH]; intros g Hin; simpl in *.
  - by apply elem_of_nil in Hin.
  - apply elem_of_cons in Hin as [->|Hin].
    + apply Hkeep, lookup_delete_eq.
    + by apply IH.
Qed.

(** The release itself: every contract the index held under the shard
    loses its global entry, and a non-empty index entry is dropped. *)
Lemma unlock_shard_spec (bc : core.BlockChain) (s : Z) :
  (∀ addr, is_Some (indexed bc s !! addr) →
           core.gLocked (core.unlock_shard bc s) !! addr = None) ∧
  (indexed bc s ≠ ∅ →
   core.lockedAddrMap (core.unlock_shard bc s) !! s = None) ∧
  core.lastCommit (core.unlock_shard bc s) = core.lastCommit bc.
Proof.
  unfold core.unlock_shard, indexed.
  destruct (core.lockedAddrMap bc !! s) as [m|] eqn:Hm; simpl.
  - case_bool_decide as Hsize; simpl.
    + split; [|split; [|done]].
      * intros addr [b Hb]. apply delete_all_lookup.
        apply list_elem_of_fmap. exists (addr, b). split; [done|].
        by apply elem_of_map_to_list.
      * intros _. apply lookup_delete_eq.
    + assert (m = ∅) as ->.
      { apply map_size_empty_iff. lia. }
      split; [|split; [done|done]].
      intros addr [b Hb]. by rewrite lookup_empty in Hb.
  - split; [|split; [done|done]].
    intros addr [b Hb]. by rewrite lookup_empty in Hb.
Qed.

End Release.

(** C3, as amended.  Right after the step that handles a successful
    [StateCommit] of shard [s] -- in [UpdateRefStatus] as in the lock
    update of [Process] -- no contract that the index recorded under [s]
    keeps an entry in the global lock table, whatever the tables held
    before, and the entry of [s] in the index is removed when it was not
    empty. *)
Theorem state_commit_step_releases_shard `{Common} :
  (∀ (bNum : Z) (bc bc' : core.BlockChain) (tx : Transaction)
     (receipt : core.Receipt) (s commit report : Z) (root : Hash),
      tx_TxType tx = StateCommit →
      core.tx_status StateCommit receipt = Some true →
      DecodeStateCommit tx = Some (s, commit, report, root) →
      core.ref_status_tx bNum bc tx receipt = Some bc' →
      (∀ addr, is_Some (indexed bc s !! addr) →
               core.gLocked bc' !! addr = None) ∧
      (indexed bc s ≠ ∅ → core.lockedAddrMap bc' !! s = None)) ∧
  (∀ (bc bc' : core.BlockChain) (tx : Transaction)
     (receipt : core.Receipt) (s commit report : Z) (root : Hash),
      tx_TxType tx = StateCommit →
      core.rc_Status receipt = 1%Z →
      DecodeStateCommit tx = Some (s, commit, report, root) →
      core.post_tx bc tx receipt = Some bc' →
      (∀ addr, is_Some (indexed bc s !! addr) →
               core.gLocked bc' !! addr = None) ∧
      (indexed bc s ≠ ∅ → core.lockedAddrMap bc' !! s = None)).
Proof.
  split.
  - intros bNum bc bc' tx receipt s commit report root Hty Hst Hdec.
    unfold core.ref_status_tx. rewrite Hty, Hst, Hdec. simpl.
    destruct (unlock_shard_spec bc s) as (Hg & Hidx & Hlc).
    destruct (core.lastCommit (core.unlock_shard bc s) !! s) as [lc|];
      simpl; [|done].
    case_bool_decide; intros [= <-]; auto.
  - intros bc bc' tx receipt s commit report root Hty Hst Hdec.
    unfold core.post_tx. rewrite Hty, Hst, Hdec. simpl. intros [= <-].
    destruct (unlock_shard_spec bc s) as (Hg & Hidx & _). auto.
Qed.

(** The unlock scenario: the commit of shard 2 empties the global table
    and removes the shard from the index. *)
Lemma state_commit_step_releases_shard_witness :
  ∃ bc',
    core.ref_status_tx (H := be_common) 7 ex_locked_chain
      (commit_tx 301 2 9 5) ok_receipt = Some bc' ∧
    core.gLocked bc' !! 10%N = None ∧
    core.lockedAddrMap bc' !! 2%Z = None.
Proof.
  eexists. split; [vm_compute; reflexivity|].
  match goal with
  | |- core.gLocked ?b !! _ = _ ∧ _ =>
      pose proof (proj1 (state_commit_step_releases_shard (H := be_common))
                    7%Z ex_locked_chain b (commit_tx 301 2 9 5) ok_receipt
                    2%Z 9%Z 5%Z 88%N eq_refl) as Hstep
  end.
  destruct Hstep as [Hlocks Hindex];
    [vm_compute; reflexivity | vm_compute; reflexivity
     | vm_compute; reflexivity |].
  split.
  - apply Hlocks. vm_compute. eauto.
  - apply Hindex. intros Heq. apply (f_equal (λ m, m !! 10%N)) in Heq.
    vm_compute in Heq. discriminate Heq.
Defined.

(** A cross-shard transaction that names shard 2 without any contract
    enters the shard in the index with no contract; the commit of shard
    2 then leaves that entry where it is. *)
Lemma state_commit_keeps_empty_index_entry :
  let bc := core.addNewLocks empty_chain [(2%Z, [])] in
  core.lockedAddrMap bc !! 2%Z = Some ∅ ∧
  core.lockedAddrMap (core.unlock_shard bc 2) !! 2%Z = Some ∅.
Proof. split; vm_compute; reflexivity. Qed.

(** A block that carries the commit of shard 2 and, behind it, a
    cross-shard transaction writing key 1 of contract 10: once the block
    is absorbed the contract is locked again and the shard is back in
    the index. *)
Lemma state_commit_block_leaves_shard_locked :
  is_Some (indexed ex_locked_chain 2 !! 10%N) ∧
  (∃ bc',
      core.UpdateRefStatus (H := be_common) ex_locked_chain ex_relock_block
        [ok_receipt; ok_receipt] = Some bc' ∧
      is_Some (core.gLocked bc' !! 10%N) ∧
      is_Some (core.lockedAddrMap bc' !! 2%Z) ∧
      ¬ shard_released ex_locked_chain bc' 2) ∧
  (∃ bc',
      core.post_txs (H := be_common) ex_locked_chain 0
        (core.b_Transactions ex_relock_block) [ok_receipt; ok_receipt]
        = Some bc' ∧
      is_Some (core.gLocked bc' !! 10%N) ∧
      is_Some (core.lockedAddrMap bc' !! 2%Z) ∧
      ¬ shard_released ex_locked_chain bc' 2).
Proof.
  split; [vm_compute; eauto|].
  split; eexists; (split; [vm_compute; reflexivity|]);
    (split; [vm_compute; eauto|]); (split; [vm_compute; eauto|]);
    intros [_ Hgone]; vm_compute in Hgone; discriminate Hgone.
Qed.

(** ** Failing transactions in [Process] *)

Section FailedTransaction.

Context `{Common}.
Variables (St Err : Type).
Variable Prepare : St → Hash → Hash → Z → St.
Variable Snapshot : St → Z * St.
Variable RevertToSnapshot : St → Z → St.
Variable ApplyDAOHardFork : St → St.
Variable Finalize : St → list Transaction → list core.Receipt → St.
Variable ApplyTransaction :
  core.BlockChain → Z → option DataCache → St → St → Transaction → Z →
  core.applied St Err.

Abbreviation process_txs :=
  (core.process_txs St Err Prepare Snapshot RevertToSnapshot ApplyTransaction).
Abbreviation process_tx :=
  (core.process_tx St Err Prepare Snapshot RevertToSnapshot ApplyTransaction).
Abbreviation apply_at :=
  (core.apply_at St Err Prepare Snapshot ApplyTransaction).
Abbreviation Process :=
  (core.Process St Err Prepare Snapshot RevertToSnapshot ApplyDAOHardFork
                Finalize ApplyTransaction).

Lemma process_txs_app bc block end_ (pre post : list Transaction) i
    (st : core.proc St) :
  process_txs bc block end_ i (pre ++ post) st
  = match process_txs bc block end_ i pre st with
    | Some (inr st') => process_txs bc block end_ (i + length pre) post st'
    | other => other
    end.
Proof.
  revert i st. induction pre as [|tx pre IH]; intros i st; simpl.
  - by rewrite Nat.add_0_r.
  - destruct (process_tx bc block end_ i tx st) as [[err|st']|]; [done| |done].
    rewrite IH. by rewrite Nat.add_succ_r.
Qed.

(** The revisions handed to a possible revert are the ones [Snapshot]
    returned on the databases as [Prepare] left them. *)
Lemma apply_at_revisions bc block end_ i tx (st : core.proc St)
    (a : core.attempt St Err) :
  apply_at bc block end_ i tx st = Some a →
  core.at_snap a
  = (Snapshot (Prepare (core.p_statedb st) (tx_Hash tx) (core.b_Hash block)
                       (Z.of_nat i))).1 ∧
  core.at_psnap a
  = (Snapshot (Prepare (core.p_privateState st) (tx_Hash tx)
                       (core.b_Hash block) (Z.of_nat i))).1.
Proof.
  unfold core.apply_at.
  destruct (Snapshot (Prepare (core.p_statedb st) _ _ _)) as [snap sdb].
  destruct (Snapshot (Prepare (core.p_privateState st) _ _ _))
    as [psnap pdb].
  destruct (if bool_decide _ then _ else _) as [[dc curr]|]; simpl; [|done].
  by intros [= <-].
Qed.

End FailedTransaction.

(** C4.  When the application of a transaction of the block returns an
    error: for a [CrossShardLocal] transaction both databases are
    reverted to the revisions taken right before the application, the
    receipts stay as they were, and the loop goes on with the next
    transaction; for any other kind [Process] returns the error. *)
Theorem process_failed_transaction `{Common} (St Err : Type)
    (Prepare : St → Hash → Hash → Z → St) (Snapshot : St → Z * St)
    (RevertToSnapshot : St → Z → St) (ApplyDAOHardFork : St → St)
    (Finalize : St → list Transaction → list core.Receipt → St)
    (ApplyTransaction :
       core.BlockChain → Z → option DataCache → St → St → Transaction → Z →
       core.applied St Err)
    (bc : core.BlockChain) (daoFork : bool) (block : core.Block)
    (start end_ : Z) (statedb privateState : St)
    (pre post : list Transaction) (tx : Transaction)
    (st : core.proc St) (a : core.attempt St Err) (err : Err) :
  let run := core.process_txs St Err Prepare Snapshot RevertToSnapshot
               ApplyTransaction bc block end_ in
  let st0 := process_start St ApplyDAOHardFork daoFork block start
               statedb privateState in
  core.b_Transactions block = pre ++ tx :: post →
  run 0 pre st0 = Some (inr st) →
  core.apply_at St Err Prepare Snapshot ApplyTransaction bc block end_
    (length pre) tx st = Some a →
  core.ap_result (core.at_applied a) = inl err →
  (tx_TxType tx = CrossShardLocal →
   ∃ st1,
     core.p_statedb st1
     = RevertToSnapshot (core.ap_statedb (core.at_applied a))
         (Snapshot (Prepare (core.p_statedb st) (tx_Hash tx)
                      (core.b_Hash block) (Z.of_nat (length pre)))).1 ∧
     core.p_privateState st1
     = RevertToSnapshot (core.ap_privateState (core.at_applied a))
         (Snapshot (Prepare (core.p_privateState st) (tx_Hash tx)
                      (core.b_Hash block) (Z.of_nat (length pre)))).1 ∧
     core.p_receipts st1 = core.p_receipts st ∧
     core.p_privateReceipts st1 = core.p_privateReceipts st ∧
     run 0 (pre ++ tx :: post) st0 = run (S (length pre)) post st1) ∧
  (tx_TxType tx ≠ CrossShardLocal →
   core.Process St Err Prepare Snapshot RevertToSnapshot ApplyDAOHardFork
     Finalize ApplyTransaction bc daoFork block start end_ statedb
     privateState = Some (inl err)).
Proof.
  intros run st0 Htxs Hpre Happly Herr.
  assert (Hrun : run 0 (pre ++ tx :: post) st0
                 = match core.process_tx St Err Prepare Snapshot
                           RevertToSnapshot ApplyTransaction bc block end_
                           (length pre) tx st with
                   | Some (inr st') => run (S (length pre)) post st'
                   | other => other
                   end).
  { unfold run. rewrite process_txs_app. fold run. rewrite Hpre. done. }
  destruct (apply_at_revisions _ _ _ _ _ _ _ _ _ _ _ _ Happly)
    as [Hsnap Hpsnap].
  unfold core.process_tx in Hrun. rewrite Happly in Hrun. simpl in Hrun.
  rewrite Herr in Hrun.
  split.
  - intros Hcsl. rewrite bool_decide_eq_true_2 in Hrun by done.
    eexists. rewrite <- Hsnap, <- Hpsnap.
    split; [|split; [|split; [|split; [|exact Hrun]]]]; reflexivity.
  - intros Hother. rewrite bool_decide_eq_false_2 in Hrun by done.
    unfold run, st0, process_start in Hrun.
    unfold core.Process. rewrite Htxs. cbv zeta.
    by rewrite Hrun.
Qed.

(** A block of a worker shard with a failing cross-shard-local
    transaction between two good ones, and the same block with the
    failing transaction of another kind. *)
Lemma process_failed_transaction_witness :
  let pre := [toy_tx IntraShard 2] in
  let post := [toy_tx IntraShard 4] in
  (∃ r, toy_Process worker_chain false
          (toy_block (pre ++ toy_tx CrossShardLocal 3 :: post)) 0 0
          1000%Z 2000%Z = Some (inr r) ∧
        length (core.pr_receipts r) = 2 ∧
        core.pr_statedb r = 1006%Z ∧ core.pr_privateState r = 2006%Z) ∧
  toy_Process worker_chain false
    (toy_block (pre ++ toy_tx IntraShard 3 :: post)) 0 0 1000%Z 2000%Z
  = Some (inl 3%Z).
Proof.
  intros pre post. split.
  - eexists. split; [vm_compute; reflexivity|]. by vm_compute.
  - set (st := {| core.p_statedb := 1002%Z; core.p_privateState := 2002%Z;
                  core.p_gp := 99%Z; core.p_usedGas := 1%Z;
                  core.p_receipts :=
                    [{| core.rc_Status := 1; core.rc_Logs := None |}];
                  core.p_privateReceipts := []; core.p_allLogs := [];
                  core.p_dc := None; core.p_curr := 0%Z |}).
    set (a := {| core.at_snap := 1002%Z; core.at_psnap := 2002%Z;
                 core.at_dc := None; core.at_curr := 0%Z;
                 core.at_applied :=
                   toy_apply worker_chain 99 None 1002 2002
                     (toy_tx IntraShard 3) 1 |}).
    apply (proj2 (process_failed_transaction (H := be_common) Z Z
             (λ st _ _ _, st) (λ st, (st, st)) (λ _ rev, rev) (λ st, st)
             (λ st _ _, st) toy_apply worker_chain false
             (toy_block (pre ++ toy_tx IntraShard 3 :: post)) 0%Z 0%Z
             1000%Z 2000%Z pre post (toy_tx IntraShard 3) st a 3%Z
             eq_refl eq_refl eq_refl eq_refl)).
    vm_compute. discriminate.
Defined.

(** ** A new reference head *)

Section ReferenceHead.

Implicit Types (bc : core.BlockChain) (cur new : Z).

Lemma wrap_uint64_small (z : Z) : (0 ≤ z < 2 ^ 64)%Z → wrap_uint64 z = z.
Proof. intros Hz. unfold wrap_uint64. by apply Z.mod_small. Qed.

(** The scan stops with [true] at the first height that has a pending
    cross-shard transaction. *)
Lemma scan_ctx_found bc (fuel : nat) cur new :
  (0 ≤ cur)%Z → (new < 2 ^ 64)%Z →
  (Z.to_nat (new - cur + 1) ≤ fuel)%nat →
  (∃ h, (cur ≤ h ≤ new)%Z ∧ core.CtxExist bc h = true) →
  miner.scan_ctx fuel bc cur new = Some true.
Proof.
  revert cur. induction fuel as [|fuel IH]; intros cur Hcur Hnew Hfuel
    (h & Hh & Hctx).
  - lia.
  - simpl. rewrite bool_decide_eq_true_2 by lia.
    destruct (core.CtxExist bc cur) eqn:Hhere; [done|].
    assert (h ≠ cur) by congruence.
    rewrite wrap_uint64_small by lia.
    apply IH; [lia|lia|lia|]. exists h. split; [lia|done].
Qed.

(** Without any such height in the range the scan ends with [false]. *)
Lemma scan_ctx_none bc (fuel : nat) cur new :
  (0 ≤ cur)%Z → (new < 2 ^ 64 - 1)%Z →
  (Z.to_nat (new - cur + 1) ≤ fuel)%nat →
  (∀ h, (cur ≤ h ≤ new)%Z → core.CtxExist bc h = false) →
  miner.scan_ctx fuel bc cur new = Some false.
Proof.
  revert cur. induction fuel as [|fuel IH]; intros cur Hcur Hnew Hfuel Hno.
  - simpl. rewrite bool_decide_eq_false_2 by lia. done.
  - simpl. case_bool_decide as Hle; [|done].
    rewrite Hno by lia.
    rewrite wrap_uint64_small by lia.
    apply IH; [lia|lia|lia|]. intros h Hh. apply Hno. lia.
Qed.

End ReferenceHead.

(** C5.  A new reference head while the local head is at or above the
    last own commit: the heights after the parent's reference height up
    to the new one are scanned for a pending cross-shard transaction.
    If there is one and the local head is strictly above the committed
    height, the worker logs (newRefNum, localNum, commitNum, now),
    rewinds the pool and the chain to the committed height, sleeps two
    seconds and submits a work request marked reorg; if there is none,
    nothing is rewound and nothing is submitted. *)
Theorem ref_head_reorg (lp : miner.workLoop) (bc : core.BlockChain)
    (isHandler : bool) (parentBlock block : core.Block) (now logTime : Z) :
  let parentNum := core.b_Number parentBlock in
  let parentRef := core.b_RefNumber parentBlock in
  let commitNum := core.CommitNum bc in
  let newRefNum := core.b_Number block in
  let lp' := {| miner.recommit := miner.recommit lp;
                miner.minRecommit := miner.minRecommit lp;
                miner.has_interrupt := true; miner.timestamp := now |} in
  (0 ≤ parentRef < 2 ^ 64 - 1)%Z → (newRefNum < 2 ^ 64 - 1)%Z →
  (commitNum ≤ parentNum)%Z →
  ((∃ h, (parentRef < h ≤ newRefNum)%Z ∧ core.CtxExist bc h = true) →
   (commitNum < parentNum)%Z →
   miner.on_ref_head lp bc isHandler parentBlock block now logTime
   = Some (lp',
           [miner.NotifyUpdate newRefNum; miner.CrossWork;
            miner.ReorgLog newRefNum parentNum commitNum logTime;
            miner.TxPoolResetHead commitNum; miner.ChainSetHead commitNum] ++
           (if isHandler then [miner.NewChainHead true] else []) ++
           [miner.Sleep (2 * miner.Second)] ++
           (if miner.has_interrupt lp
            then [miner.StoreInterrupt miner.commitInterruptNewHead]
            else []) ++
           [miner.NewWorkReq true false now;
            miner.TimerReset (miner.recommit lp); miner.ClearNewTxs])) ∧
  ((∀ h, (parentRef < h ≤ newRefNum)%Z → core.CtxExist bc h = false) →
   miner.on_ref_head lp bc isHandler parentBlock block now logTime
   = Some ({| miner.recommit := miner.recommit lp;
              miner.minRecommit := miner.minRecommit lp;
              miner.has_interrupt := miner.has_interrupt lp;
              miner.timestamp := now |},
           [miner.NotifyUpdate newRefNum; miner.CrossWork])).
Proof.
  intros parentNum parentRef commitNum newRefNum lp' Href Hnew Hcommit.
  unfold miner.on_ref_head.
  fold parentNum parentRef commitNum newRefNum.
  rewrite bool_decide_eq_true_2 by done.
  rewrite wrap_uint64_small by lia.
  split.
  - intros (h & Hh & Hctx) Habove.
    rewrite (scan_ctx_found bc _ (parentRef + 1) newRefNum);
      [|lia|lia|lia|exists h; split; [lia|done]].
    simpl. rewrite bool_decide_eq_true_2 by done.
    by destruct isHandler, (miner.has_interrupt lp).
  - intros Hno.
    rewrite (scan_ctx_none bc _ (parentRef + 1) newRefNum);
      [done|lia|lia|lia|].
    intros h Hh. apply Hno. lia.
Qed.

(** The reorganisation scenario: the record (7, 10, 6, now) is logged,
    pool and chain go back to block 6, and after two seconds a request
    marked reorg is submitted. *)
Lemma ref_head_reorg_witness :
  miner.on_ref_head ex_loop ex_reorg_chain true ex_local_head ex_ref_head
    1234 1235
  = Some ({| miner.recommit := 3 * miner.Second;
             miner.minRecommit := miner.Second;
             miner.has_interrupt := true; miner.timestamp := 1234 |},
          [miner.NotifyUpdate 7; miner.CrossWork;
           miner.ReorgLog 7 10 6 1235; miner.TxPoolResetHead 6;
           miner.ChainSetHead 6; miner.NewChainHead true;
           miner.Sleep (2 * miner.Second);
           miner.StoreInterrupt miner.commitInterruptNewHead;
           miner.NewWorkReq true false 1234;
           miner.TimerReset (3 * miner.Second); miner.ClearNewTxs]).
Proof.
  apply (proj1 (ref_head_reorg ex_loop ex_reorg_chain true ex_local_head
                  ex_ref_head 1234 1235
                  ltac:(vm_compute; split; [discriminate|reflexivity])
                  ltac:(vm_compute; reflexivity)
                  ltac:(vm_compute; discriminate))).
  - exists 6%Z. split; [vm_compute; split; [reflexivity|discriminate]|].
    vm_compute; reflexivity.
  - vm_compute; reflexivity.
Defined.

(** ** The foreign-data cache *)

Section ForeignData.

Implicit Types (dc : DataCache).

(** A property kept by every step is kept by a loop that may panic. *)
Lemma foldl_option_invariant {A B : Type} (P : A → Prop)
    (f : A → B → option A) (l : list B) (a a' : A) :
  (∀ x b x', P x → f x b = Some x' → P x') →
  P a →
  foldl (λ acc b, acc ≫= λ x, f x b) (Some a) l = Some a' →
  P a'.
Proof.
  intros Hstep. revert a. induction l as [|b l IH]; intros a Ha; simpl.
  - by intros [= <-].
  - destruct (f a b) as [a1|] eqn:Hf.
    + apply IH. by eapply Hstep.
    + intros Hnone. exfalso. revert Hnone. clear.
      induction l as [|y l IHl]; simpl; [done|exact IHl].
Qed.

Lemma add_key_Status caddr dc key dc' :
  add_key caddr dc key = Some dc' → Status dc' = Status dc.
Proof.
  unfold add_key. destruct (Keyval dc !! caddr); simpl; [|done].
  by intros [= <-].
Qed.

Lemma init_contract_Status shard dc contract dc' :
  init_contract shard dc contract = Some dc' → Status dc' = Status dc.
Proof.
  unfold init_contract. intros Hrun.
  apply (foldl_option_invariant (λ d, Status d = Status dc)) in Hrun;
    [done| |].
  - intros x key x' Hx Hkey. apply add_key_Status in Hkey. congruence.
  - by destruct (AddrToShard dc !! ck_Addr contract).
Qed.

Lemma init_shard_Status myshard commits dc entry dc' :
  init_shard myshard commits dc entry = Some dc' → Status dc' = Status dc.
Proof.
  unfold init_shard. destruct entry as [shard allKeys].
  destruct (match ShardStatus dc !! shard with
            | Some _ => Some dc
            | None => _
            end) as [dc1|] eqn:Hreg; simpl; [|done].
  assert (Status dc1 = Status dc) as <-.
  { destruct (ShardStatus dc !! shard); [by injection Hreg as <-|].
    case_bool_decide; [by injection Hreg as <-|].
    destruct commits; simpl in Hreg; [by injection Hreg as <-|done]. }
  intros Hrun.
  apply (foldl_option_invariant (λ d, Status d = Status dc1)) in Hrun;
    [done| |done].
  intros x c x' Hx Hc. apply init_contract_Status in Hc. congruence.
Qed.

Lemma init_tx_Status myshard commits dc ctx dc' :
  init_tx myshard commits dc ctx = Some dc' → Status dc' = Status dc.
Proof.
  unfold init_tx. destruct (existsb _ _); [|by intros [= <-]].
  intros Hrun.
  apply (foldl_option_invariant (λ d, Status d = Status dc)) in Hrun;
    [done| |done].
  intros x e x' Hx He. apply init_shard_Status in He. congruence.
Qed.

(** [InitKeys] sets the flag when the counters agree and leaves it
    alone otherwise. *)
Lemma InitKeys_Status dc myshard ctxs commits dc' (ready : bool) :
  InitKeys dc myshard ctxs commits = Some (dc', ready) →
  (Received dc' = Required dc' → Status dc' = true) ∧
  (Status dc = true → Status dc' = true).
Proof.
  unfold InitKeys.
  destruct (foldl _ _ ctxs) as [dc1|] eqn:Hrun; simpl; [|done].
  apply (foldl_option_invariant (λ d, Status d = Status dc)) in Hrun;
    [| |done].
  - case_bool_decide as Heq; intros [= <- <-]; simpl; [done|].
    split; [done|congruence].
  - intros x c x' Hx Hc. apply init_tx_Status in Hc. congruence.
Qed.

(** [AddData] sets the flag when the counters meet and leaves it alone
    otherwise. *)
Lemma AddData_Status dc shard vals dc' :
  AddData dc shard vals = Some dc' →
  ((Received dc = Required dc → Status dc = true) →
   Received dc' = Required dc' → Status dc' = true) ∧
  (Status dc = true → Status dc' = true).
Proof.
  unfold AddData. destruct (_ && _).
  - destruct (add_values _ _ _); simpl; [|done].
    intros [= <-]; simpl. case_bool_decide; [done|]. split; [done|auto].
  - intros [= <-]. auto.
Qed.

Lemma run_op_Status dc op dc' :
  run_op dc op = Some dc' →
  ((Received dc = Required dc → Status dc = true) →
   Received dc' = Required dc' → Status dc' = true) ∧
  (Status dc = true → Status dc' = true).
Proof.
  destruct op as [myshard ctxs commits|shard vals]; simpl.
  - destruct (InitKeys dc myshard ctxs commits) as [[d r]|] eqn:Hinit;
      simpl; [|done].
    intros [= <-]. apply InitKeys_Status in Hinit as [Hinv Hmono]. auto.
  - apply AddData_Status.
Qed.

End ForeignData.

(** C6, as amended.  The ready flag is monotone under every sequence of
    [InitKeys] and [AddData] operations, and on an entry whose first
    operation is [InitKeys], every later state in which the received
    counter equals the required counter has the flag set. *)
Theorem ready_flag_latches :
  (∀ (dc dc' : DataCache) (ops : list cache_op),
      run_ops dc ops = Some dc' → Status dc = true → Status dc' = true) ∧
  (∀ (dc dc' : DataCache) (myshard : Z) (ctxs : list CrossTx)
     (commits : option Commitments) (ops : list cache_op),
      run_ops dc (OpInitKeys myshard ctxs commits :: ops) = Some dc' →
      Received dc' = Required dc' → Status dc' = true).
Proof.
  split.
  - intros dc dc' ops Hrun Hready. unfold run_ops in Hrun.
    apply (foldl_option_invariant (λ d, Status d = true)) in Hrun.
    + done.
    + intros x op x' Hx Hop. by apply (run_op_Status _ _ _ Hop).
    + done.
  - intros dc dc' myshard ctxs commits ops. unfold run_ops. simpl.
    destruct (InitKeys dc myshard ctxs commits) as [[d r]|] eqn:Hinit; simpl.
    + intros Hrun.
      refine (foldl_option_invariant
                (λ d, Received d = Required d → Status d = true)
                _ _ _ _ _ _ Hrun).
      * intros x op x' Hx Hop. by apply (run_op_Status _ _ _ Hop).
      * apply (InitKeys_Status _ _ _ _ _ _ Hinit).
    + intros Hnone. exfalso. revert Hnone. clear.
      induction ops as [|y l IHl]; simpl; [done|exact IHl].
Qed.

(** The foreign-data scenario: after [InitKeys] one shard is required,
    and its data sets the flag. *)
Lemma ready_flag_latches_witness :
  ∃ dc',
    run_ops (NewDataCache 5 false)
      [OpInitKeys 1 [ex_ctx] (Some ex_commits); OpAddData 2 ex_vals]
    = Some dc' ∧
    Received dc' = Required dc' ∧ Status dc' = true.
Proof.
  eexists. split; [vm_compute; reflexivity|].
  split; [vm_compute; reflexivity|].
  apply (proj2 ready_flag_latches (NewDataCache 5 false) _ 1%Z [ex_ctx]
           (Some ex_commits) [OpAddData 2 ex_vals]);
    vm_compute; reflexivity.
Defined.

(** Data from a shard that was never registered moves the received
    counter past the required one while the flag stays set. *)
Lemma ready_flag_outlives_counters :
  ∃ dc',
    run_ops (NewDataCache 5 false)
      [OpInitKeys 1 [ex_ctx] (Some ex_commits); OpAddData 2 ex_vals;
       OpAddData 3 ex_vals] = Some dc' ∧
    Status dc' = true ∧ Required dc' = 1%Z ∧ Received dc' = 2%Z ∧
    ¬ ready_iff_complete dc'.
Proof.
  eexists. split; [vm_compute; reflexivity|].
  split; [reflexivity|]. split; [reflexivity|]. split; [reflexivity|].
  intros [Hready _]. specialize (Hready eq_refl). discriminate Hready.
Qed.

(** ** Transfers during cross-shard-local execution *)

Section Transfers.

Context `{core.StateDB DB}.

(** The transfer check dereferences the cached values of a remote
    address, present or not. *)
Lemma CanTransfer_remote_without_values (dc : DataCache) (bshard shard : Z)
    (db : DB) (addr : Address) (amount : Z) :
  AddrToShard dc !! addr = Some shard → shard ≠ bshard →
  Values dc !! addr = None →
  core.CanTransfer (Some dc) bshard db addr amount = None.
Proof.
  intros Hshard Hremote Hvals. unfold core.CanTransfer.
  rewrite Hshard, bool_decide_eq_true_2 by done. by rewrite Hvals.
Qed.

(** The debit of a remote sender without cached values enters the
    recipient in the changes and then dereferences the sender's
    entry. *)
Lemma Transfer_remote_sender_without_values (dc : DataCache)
    (dcChanges : gmap Address CData) (bshard shard : Z) (db : DB)
    (sender recipient : Address) (amount : Z) :
  AddrToShard dc !! sender = Some shard → shard ≠ bshard →
  Values dc !! sender = None → dcChanges !! sender = None →
  sender ≠ recipient →
  core.Transfer bshard (Some dc) dcChanges db sender recipient amount = None.
Proof.
  intros Hshard Hremote Hvals Hfresh Hne. unfold core.Transfer.
  rewrite Hshard. change (default 0%Z (Some shard)) with shard.
  rewrite (bool_decide_eq_true_2 (shard ≠ bshard)) by done.
  unfold core.debit_remote. rewrite Hfresh, Hvals.
  rewrite lookup_insert_ne by done. by rewrite Hfresh.
Qed.

End Transfers.

(** C7, at the failing input.  Contract 20 is mapped to shard 2 and has
    no cached values: on shard 1 the transfer check for it panics, a
    transfer out of it panics, and a transfer into it starts from the
    balance the local database holds for it, not from zero. *)
Theorem transfer_without_cached_values :
  AddrToShard ex_cache !! 20%N = Some 2%Z ∧
  Values ex_cache !! 20%N = None ∧
  core.CanTransfer (Some ex_cache) 1 ex_db 20%N 0 = None ∧
  core.Transfer 1 (Some ex_cache) ∅ ex_db 20%N 10%N 5 = None ∧
  (∃ ch db, core.Transfer 1 (Some ex_cache) ∅ ex_db 10%N 20%N 5
            = Some (ch, db) ∧
            cd_Balance <$> ch !! 20%N = Some 12%Z).
Proof.
  split; [vm_compute; reflexivity|].
  split; [vm_compute; reflexivity|].
  split; [vm_compute; reflexivity|].
  split; [vm_compute; reflexivity|].
  eexists _, _. split; vm_compute; reflexivity.
Qed.

(** C10.  With a cache at hand, the transfer check answers [false] for
    an address the cache does not map to a shard, whatever its local
    balance and the amount; no amount lets it be the source of a
    transfer. *)
Theorem can_transfer_unmapped_address `{core.StateDB DB} (dc : DataCache)
    (bshard : Z) (db : DB) (addr : Address) (amount : Z) :
  AddrToShard dc !! addr = None →
  core.CanTransfer (Some dc) bshard db addr amount = Some false ∧
  ¬ can_be_source (Some dc) bshard db addr.
Proof.
  intros Hunmapped.
  assert (Hcheck : ∀ a, core.CanTransfer (Some dc) bshard db addr a
                        = Some false).
  { intros a. unfold core.CanTransfer. by rewrite Hunmapped. }
  split; [apply Hcheck|].
  intros [a Ha]. rewrite Hcheck in Ha. discriminate Ha.
Qed.

(** Account 30 holds a million locally and is unknown to the cache: it
    cannot even send nothing. *)
Lemma can_transfer_unmapped_address_witness :
  core.GetBalance ex_db 30%N = 1000000%Z ∧
  core.CanTransfer (Some ex_cache) 1 ex_db 30%N 0 = Some false.
Proof.
  split; [vm_compute; reflexivity|].
  apply (can_transfer_unmapped_address ex_cache 1 ex_db 30%N 0).
  vm_compute; reflexivity.
Defined.

(** ** Decoding a state commit *)

(** C8, at the failing input.  On a well-formed payload of five words
    -- shard 2, block 9, reference 5, state root 77, block hash 88 --
    [DecodeStateCommit] yields four results; the fourth is the
    conversion of the last two words taken together, and the block hash
    is no result of its own. *)
Theorem decode_state_commit_four_results `{Common} :
  length (Data (commit_tx 301 2 9 5)) = (4 + 5 * 32)%nat ∧
  DecodeStateCommit (commit_tx 301 2 9 5)
  = Some (2%Z, 9%Z, 5%Z, BytesToHash (be_bytes 32 77 ++ be_bytes 32 88)).
Proof.
  split; [vm_compute; reflexivity|].
  unfold DecodeStateCommit.
  replace (slice_from (Data (commit_tx 301 2 9 5)) 4)
    with (Some (word32 2 ++ word32 9 ++ word32 5 ++
                be_bytes 32 77 ++ be_bytes 32 88))
    by (vm_compute; reflexivity).
  cbn [mbind option_bind].
  set (data := word32 2 ++ word32 9 ++ word32 5 ++
               be_bytes 32 77 ++ be_bytes 32 88).
  replace (be_uint <$> slice data (0 + 24) (0 + 32)) with (Some 2%Z)
    by (vm_compute; reflexivity).
  cbn [mbind option_bind].
  replace (be_uint <$> slice data (0 + 32 + 24) (0 + 32 + 32))
    with (Some 9%Z) by (vm_compute; reflexivity).
  cbn [mbind option_bind].
  replace (be_uint <$> slice data (0 + 32 + 32 + 24) (0 + 32 + 32 + 32))
    with (Some 5%Z) by (vm_compute; reflexivity).
  cbn [mbind option_bind].
  replace (slice_from data (0 + 32 + 32 + 32))
    with (Some (be_bytes 32 77 ++ be_bytes 32 88))
    by (vm_compute; reflexivity).
  reflexivity.
Qed.

(** ** The recommit interval *)

Section Float64.

















End Float64.




(** * Further properties of the code *)

(** ** The key rules of the lock manager *)

Section KeyRules.

Implicit Types (w : miner.worker) (addr : Address) (cKeys : CKeys).

Lemma foldl_insert_const_lookup (b : bool) (l : list Hash)
    (m : gmap Hash bool) (k : Hash) :
  foldl (λ m key, <[key := b]> m) m l !! k
  = if bool_decide (k ∈ l) then Some b else m !! k.
Proof.
  revert m. induction l as [|x l IH]; intros m; cbn [foldl].
  - case_bool_decide as Hin; [by apply elem_of_nil in Hin|done].
  - rewrite IH. destruct (decide (x = k)) as [->|Hne].
    + rewrite lookup_insert_eq.
      rewrite (bool_decide_eq_true_2 (k ∈ k :: l)) by (apply elem_of_cons; auto).
      by case_bool_decide.
    + rewrite lookup_insert_ne by done.
      repeat case_bool_decide; try done.
      * exfalso. apply H0. apply elem_of_cons; auto.
      * exfalso. apply elem_of_cons in H0 as [->|?]; done.
Qed.

(** The request map of a contract holds [true] for its written keys and
    [false] for the keys it only reads. *)
Lemma lockMap_of_lookup cKeys (k : Hash) :
  lockMap_of cKeys !! k = request_of cKeys k.
Proof.
  unfold lockMap_of, request_of. rewrite !foldl_insert_const_lookup.
  repeat case_bool_decide; done.
Qed.

Lemma clock_conflict_true (keys : gmap Hash Z) (addrKeys : gmap Hash bool) :
  clock_conflict keys addrKeys = true ↔
  ∃ key kval cval, addrKeys !! key = Some kval ∧ keys !! key = Some cval ∧
                   ((cval < 0)%Z ∨ kval = true).
Proof.
  unfold clock_conflict. rewrite existsb_exists. split.
  - intros ([key kval] & Hin%list_elem_of_In%elem_of_map_to_list & Hc).
    simpl in Hc. destruct (keys !! key) as [cval|] eqn:Hk; [|done].
    exists key, kval, cval. split; [done|]. split; [done|].
    apply orb_true_iff in Hc as [Hneg%Z.ltb_lt| ->]; auto.
  - intros (key & kval & cval & Hreq & Hk & Hc).
    exists (key, kval). split.
    + by apply list_elem_of_In, elem_of_map_to_list.
    + simpl. rewrite Hk. apply orb_true_iff.
      destruct Hc as [Hneg%Z.ltb_lt| ->]; auto.
Qed.

Lemma glock_conflict_true (keys : gmap Hash Z) (addrKeys : gmap Hash bool) :
  glock_conflict keys addrKeys = true ↔
  ∃ key kval gval, addrKeys !! key = Some kval ∧ keys !! key = Some gval ∧
                   (kval = true ∨ (gval < 0)%Z).
Proof.
  unfold glock_conflict. rewrite existsb_exists. split.
  - intros ([key kval] & Hin%list_elem_of_In%elem_of_map_to_list & Hc).
    simpl in Hc. destruct (keys !! key) as [gval|] eqn:Hk; [|done].
    exists key, kval, gval. split; [done|]. split; [done|].
    apply orb_true_iff in Hc as [->|Hneg%Z.ltb_lt]; auto.
  - intros (key & kval & gval & Hreq & Hk & Hc).
    exists (key, kval). split.
    + by apply list_elem_of_In, elem_of_map_to_list.
    + simpl. rewrite Hk. apply orb_true_iff.
      destruct Hc as [->|Hneg%Z.ltb_lt]; auto.
Qed.

End KeyRules.

(** [checkLockStatus] reports a lock exactly when a requested key
    meets a lock it cannot share. *)
Lemma checkLockStatus_conflicts (w : miner.worker) (addr : Address)
    (addrKeys : gmap Hash bool) :
  miner.checkLockStatus w addr addrKeys = true ↔
  tentative_conflict w addr addrKeys ∨ global_conflict w addr addrKeys.
Proof.
  unfold miner.checkLockStatus, tentative_conflict, global_conflict,
    core.CheckGLock.
  destruct (miner.cLocked w !! addr) as [cl|] eqn:Hcl;
    destruct (core.gLocked (miner.chain w) !! addr) as [gl|] eqn:Hgl;
    destruct (miner.cUnlocked w !! addr) as [ul|] eqn:Hul; simpl;
    try destruct (clock_conflict (cl_Keys cl) addrKeys) eqn:Hc;
    try destruct (glock_conflict (cl_Keys gl) addrKeys) eqn:Hg;
    try (apply clock_conflict_true in Hc as (key & kval & cval & ? & ? & ?));
    try (apply glock_conflict_true in Hg as (key' & kval' & gval & ? & ? & ?));
    split; try done;
    try (intros _; left; by eauto 10);
    try (intros _; right; by eauto 10);
    intros [(key0 & kval0 & cl0 & cval0 & Hreq & Hsome & Hk & Hrule)
           |(key0 & kval0 & gl0 & gval0 & Hreq & Hnone & Hsome & Hk & Hrule)];
    simplify_eq;
    try (assert (clock_conflict (cl_Keys cl0) addrKeys = true) as Habs
           by (apply clock_conflict_true; eauto 10); congruence);
    try (assert (glock_conflict (cl_Keys gl0) addrKeys = true) as Habs
           by (apply glock_conflict_true; eauto 10); congruence).
Qed.

(** X1.  The key rules.  [checkLockStatus] reports a lock exactly when a
    requested key meets a tentative lock and one of the two is a write,
    or when the contract is not about to be unlocked and a requested key
    meets a global lock and one of the two is a write; the request of a
    contract marks its written keys [true] and the keys it only reads
    [false]; and [checkTxStatus] finds a transaction eligible exactly
    when none of its contracts meets such a lock. *)
Theorem admission_key_rules (w : miner.worker) :
  (∀ addr (addrKeys : gmap Hash bool),
      miner.checkLockStatus w addr addrKeys = true ↔
      tentative_conflict w addr addrKeys ∨ global_conflict w addr addrKeys) ∧
  (∀ cKeys k, lockMap_of cKeys !! k = request_of cKeys k) ∧
  (∀ allKeys : AllKeys,
      miner.checkTxStatus w allKeys = true ↔
      ∀ (shardKeys : Z * list CKeys) cKeys,
        shardKeys ∈ allKeys → cKeys ∈ shardKeys.2 →
        ¬ tentative_conflict w (ck_Addr cKeys) (lockMap_of cKeys) ∧
        ¬ global_conflict w (ck_Addr cKeys) (lockMap_of cKeys)).
Proof.
  split; [apply checkLockStatus_conflicts|].
  split; [apply lockMap_of_lookup|].
  intros allKeys. unfold miner.checkTxStatus. rewrite forallb_forall.
  split.
  - intros Hall shardKeys cKeys Hs%list_elem_of_In Hc%list_elem_of_In.
    specialize (Hall shardKeys Hs). rewrite forallb_forall in Hall.
    specialize (Hall cKeys Hc). apply negb_true_iff in Hall.
    split; intros Hconf;
      assert (miner.checkLockStatus w (ck_Addr cKeys) (lockMap_of cKeys)
              = true) by (apply checkLockStatus_conflicts; auto);
      congruence.
  - intros Hnone shardKeys Hs%list_elem_of_In. apply forallb_forall.
    intros cKeys Hc%list_elem_of_In. apply negb_true_iff.
    destruct (Hnone shardKeys cKeys Hs Hc) as [Ht Hg].
    apply not_true_is_false. intros Hlock.
    apply checkLockStatus_conflicts in Hlock as [?|?]; auto.
Qed.

(** ** What locking a contract does to an entry *)

Section LockEntries.

Lemma wrap_int_small (z : Z) : (- 2 ^ 63 ≤ z < 2 ^ 63)%Z → wrap_int z = z.
Proof.
  intros Hz. unfold wrap_int. rewrite Z.mod_small by lia. lia.
Qed.

Lemma occurrences_cons (k x : Hash) (l : list Hash) :
  occurrences k (x :: l)
  = ((if bool_decide (x = k) then 1 else 0) + occurrences k l)%Z.
Proof.
  unfold occurrences. rewrite filter_cons.
  case_bool_decide; case_decide; try done; simpl; lia.
Qed.

Lemma occurrences_nonneg (k : Hash) (l : list Hash) : (0 ≤ occurrences k l)%Z.
Proof. unfold occurrences. lia. Qed.

Lemma occurrences_pos (k : Hash) (l : list Hash) :
  k ∈ l → (0 < occurrences k l)%Z.
Proof.
  induction l as [|x l IH]; [by intros ?%elem_of_nil|].
  rewrite occurrences_cons. pose proof (occurrences_nonneg k l).
  intros [->|Hin]%elem_of_cons.
  - rewrite bool_decide_eq_true_2 by done. lia.
  - specialize (IH Hin). case_bool_decide; lia.
Qed.

Lemma read_lock_same (keys : gmap Hash Z) (k : Hash) :
  read_lock keys k !! k = Some (wrap_int (key_val keys k + 1)).
Proof.
  unfold read_lock, key_val. rewrite lookup_insert_eq.
  destruct (keys !! k) eqn:Hk; [by rewrite Hk|].
  by rewrite lookup_insert_eq.
Qed.

(** Reads add up: one for every time the key is listed. *)
Lemma read_locks_count (l : list Hash) (keys : gmap Hash Z) (k : Hash) :
  (- 2 ^ 63 ≤ key_val keys k)%Z →
  (key_val keys k + occurrences k l < 2 ^ 63)%Z →
  key_val (foldl read_lock keys l) k = (key_val keys k + occurrences k l)%Z ∧
  (k ∈ l → is_Some (foldl read_lock keys l !! k)).
Proof.
  revert keys. induction l as [|x l IH]; intros keys Hlo Hhi.
  - unfold occurrences. simpl. split; [lia|by intros ?%elem_of_nil].
  - rewrite occurrences_cons in *. pose proof (occurrences_nonneg k l).
    cbn [foldl]. destruct (decide (x = k)) as [->|Hne].
    + rewrite bool_decide_eq_true_2 in * by done.
      assert (Hstep : key_val (read_lock keys k) k = (key_val keys k + 1)%Z).
      { unfold key_val at 1. rewrite read_lock_same. simpl.
        apply wrap_int_small. lia. }
      destruct (IH (read_lock keys k)) as [Hval Hsome]; [lia|lia|].
      split; [lia|]. intros _.
      destruct (decide (k ∈ l)) as [Hin|Hnin]; [auto|].
      rewrite read_locks_other, read_lock_same by done. eauto.
    + rewrite bool_decide_eq_false_2 in * by done.
      assert (Hstep : key_val (read_lock keys x) k = key_val keys k).
      { unfold key_val. by rewrite read_lock_other. }
      destruct (IH (read_lock keys x)) as [Hval Hsome]; [lia|lia|].
      split; [lia|]. intros [->|Hin]%elem_of_cons; [done|auto].
Qed.

Lemma write_locks_in (l : list Hash) (keys : gmap Hash Z) (k : Hash) :
  k ∈ l → foldl write_lock keys l !! k = Some (-1)%Z.
Proof.
  revert keys. induction l as [|x l IH]; intros keys;
    [by intros ?%elem_of_nil|].
  cbn [foldl]. intros Hin.
  destruct (decide (k ∈ l)) as [Hl|Hl]; [by apply IH|].
  apply elem_of_cons in Hin as [->|?]; [|done].
  rewrite write_locks_other by done. unfold write_lock.
  apply lookup_insert_eq.
Qed.

End LockEntries.

(** X2.  Locking the keys of a contract, tentatively or globally: a
    written key ends at [-1]; a key that is only read ends at its former
    value (zero when absent) plus the number of times it is listed, as
    long as that fits an [int] -- so reading a key held at [-1] brings
    it to zero; a key that is not named stays as it was. *)
Theorem lock_contract_entries (locks : gmap Address CLock) (cKeys : CKeys)
    (k : Hash) :
  let a := ck_Addr cKeys in
  let before := default 0%Z (lock_entry locks a k) in
  let after := lock_entry (lock_contract locks cKeys) a k in
  (k ∈ ck_WKeys cKeys → after = Some (-1)%Z) ∧
  (k ∉ ck_WKeys cKeys → k ∈ ck_Keys cKeys →
   (- 2 ^ 63 ≤ before)%Z →
   (before + occurrences k (ck_Keys cKeys) < 2 ^ 63)%Z →
   after = Some (before + occurrences k (ck_Keys cKeys))%Z) ∧
  (k ∉ ck_WKeys cKeys → k ∉ ck_Keys cKeys → after = lock_entry locks a k).
Proof.
  intros a before after. subst a before after.
  unfold lock_entry, lock_contract. rewrite lookup_insert_eq. simpl.
  set (keys0 := cl_Keys (match locks !! ck_Addr cKeys with
                         | Some cl => cl
                         | None => NewCLock (ck_Addr cKeys)
                         end)).
  assert (Hbefore : default 0%Z (locks !! ck_Addr cKeys ≫=
                                   λ cl, cl_Keys cl !! k)
                    = key_val keys0 k).
  { unfold keys0, key_val. by destruct (locks !! ck_Addr cKeys). }
  split; [|split].
  - intros Hw. by apply write_locks_in.
  - intros Hnw Hr Hlo Hhi. rewrite write_locks_other by done.
    rewrite Hbefore in *.
    destruct (read_locks_count (ck_Keys cKeys) keys0 k Hlo Hhi)
      as [Hval [v Hv]]; [done|].
    rewrite Hv. f_equal. unfold key_val in Hval at 1.
    by rewrite Hv in Hval.
  - intros Hnw Hnr. rewrite write_locks_other, read_locks_other by done.
    unfold keys0. by destruct (locks !! ck_Addr cKeys).
Qed.

(** A key write-locked globally and then read once by a committed
    transaction is left with the count zero. *)
Lemma lock_contract_entries_witness :
  let cKeys := {| ck_Addr := 10%N; ck_Keys := [1%N]; ck_WKeys := [] |} in
  lock_entry (core.gLocked ex_locked_chain) 10%N 1%N = Some (-1)%Z ∧
  lock_entry (lock_contract (core.gLocked ex_locked_chain) cKeys) 10%N 1%N
  = Some 0%Z.
Proof.
  intros cKeys. split; [vm_compute; reflexivity|].
  apply (proj1 (proj2 (lock_contract_entries (core.gLocked ex_locked_chain)
                         cKeys 1%N))).
  - vm_compute. intros Hin. by apply elem_of_nil in Hin.
  - apply list_elem_of_singleton. reflexivity.
  - vm_compute. discriminate.
  - vm_compute. reflexivity.
Defined.

(** ** The index of the global lock table *)

Section LockIndex.

Context `{Common}.

Implicit Types (g : gmap Address CLock) (idx : gmap Z (gmap Address bool)).

Lemma lock_contract_dom g (cKeys : CKeys) (addr : Address) :
  is_Some (lock_contract g cKeys !! addr) ↔
  addr = ck_Addr cKeys ∨ is_Some (g !! addr).
Proof.
  unfold lock_contract. destruct (decide (ck_Addr cKeys = addr)) as [->|Hne].
  - rewrite lookup_insert_eq. split; eauto.
  - rewrite lookup_insert_ne by done. split; [auto|].
    intros [->|?]; done.
Qed.

(** One contract: it gets a lock entry and an index entry under the
    shard, and nothing is taken away. *)
Lemma add_contract_locks_spec (shard : Z) g idx (cKeys : CKeys) g' idx' :
  core.add_contract_locks shard (g, idx) cKeys = (g', idx') →
  is_Some (idx !! shard) →
  is_Some (g' !! ck_Addr cKeys) ∧
  (∃ m, idx' !! shard = Some m ∧ is_Some (m !! ck_Addr cKeys)) ∧
  (∀ a, is_Some (g' !! a) ↔ a = ck_Addr cKeys ∨ is_Some (g !! a)) ∧
  (∀ s m a, idx !! s = Some m → is_Some (m !! a) →
            ∃ m', idx' !! s = Some m' ∧ is_Some (m' !! a)).
Proof.
  unfold core.add_contract_locks. intros [= <- <-] [m0 Hm0].
  rewrite Hm0. simpl.
  split; [apply lock_contract_dom; auto|].
  split; [|split; [intros a; apply lock_contract_dom|]].
  - destruct (m0 !! ck_Addr cKeys) as [b|] eqn:Hb.
    + exists m0. split; [done|]. rewrite Hb. eauto.
    + exists (<[ck_Addr cKeys := false]> m0).
      rewrite !lookup_insert_eq. eauto.
  - intros s m a Hs Ha.
    destruct (m0 !! ck_Addr cKeys) as [b|] eqn:Hb; [eauto|].
    destruct (decide (shard = s)) as [->|Hne].
    + rewrite lookup_insert_eq. eexists. split; [done|].
      assert (m = m0) as -> by congruence.
      destruct (decide (ck_Addr cKeys = a)) as [->|Hna].
      * rewrite lookup_insert_eq. eauto.
      * by rewrite lookup_insert_ne.
    + rewrite lookup_insert_ne by done. eauto.
Qed.

Lemma add_contracts_spec (shard : Z) (sKeys : list CKeys) g idx g' idx' :
  foldl (core.add_contract_locks shard) (g, idx) sKeys = (g', idx') →
  is_Some (idx !! shard) →
  (∀ cKeys, cKeys ∈ sKeys →
     is_Some (g' !! ck_Addr cKeys) ∧
     ∃ m, idx' !! shard = Some m ∧ is_Some (m !! ck_Addr cKeys)) ∧
  (∀ a, is_Some (g' !! a) ↔
        (∃ cKeys, cKeys ∈ sKeys ∧ a = ck_Addr cKeys) ∨ is_Some (g !! a)) ∧
  (∀ s m a, idx !! s = Some m → is_Some (m !! a) →
            ∃ m', idx' !! s = Some m' ∧ is_Some (m' !! a)).
Proof.
  revert g idx. induction sKeys as [|cKeys sKeys IH]; intros g idx.
  - intros [= <- <-] _. split; [by intros ? ?%elem_of_nil|].
    split; [|eauto]. intros a. split; [auto|].
    intros [(c & ?%elem_of_nil & _)|?]; done.
  - cbn [foldl].
    destruct (core.add_contract_locks shard (g, idx) cKeys) as [g1 idx1]
      eqn:Hstep.
    intros Hrest Hshard.
    destruct (add_contract_locks_spec _ _ _ _ _ _ Hstep Hshard)
      as (Hg1 & (m1 & Hm1 & Ha1) & Hdom1 & Hmono1).
    destruct (IH _ _ Hrest) as (Hall & Hdom & Hmono); [eauto|].
    split; [|split].
    + intros c [->|Hin]%elem_of_cons; [|auto]. split.
      * apply Hdom. right. done.
      * by apply (Hmono shard m1).
    + intros a. rewrite Hdom, Hdom1. split.
      * intros [(c & Hc & ->)|[->|?]]; auto.
        -- left. exists c. split; [apply elem_of_cons; auto|done].
        -- left. exists cKeys. split; [apply elem_of_cons; auto|done].
      * intros [(c & [->|Hc]%elem_of_cons & ->)|?]; eauto.
    + intros s m a Hs Ha.
      destruct (Hmono1 s m a Hs Ha) as (m' & Hs' & Ha'). eauto.
Qed.

Lemma add_shard_locks_spec g idx (entry : Z * list CKeys) g' idx' :
  core.add_shard_locks (g, idx) entry = (g', idx') →
  (∀ cKeys, cKeys ∈ entry.2 →
     is_Some (g' !! ck_Addr cKeys) ∧
     ∃ m, idx' !! entry.1 = Some m ∧ is_Some (m !! ck_Addr cKeys)) ∧
  (∀ a, is_Some (g' !! a) ↔
        (∃ cKeys, cKeys ∈ entry.2 ∧ a = ck_Addr cKeys) ∨ is_Some (g !! a)) ∧
  (∀ s m a, idx !! s = Some m → is_Some (m !! a) →
            ∃ m', idx' !! s = Some m' ∧ is_Some (m' !! a)).
Proof.
  destruct entry as [shard sKeys]. unfold core.add_shard_locks. simpl.
  intros Hfold.
  apply add_contracts_spec in Hfold as (Hall & Hdom & Hmono).
  - split; [done|]. split; [done|].
    intros s m a Hs Ha. apply (Hmono s m a); [|done].
    destruct (idx !! shard) eqn:Hshard; [done|].
    rewrite lookup_insert_ne; [done|]. congruence.
  - destruct (idx !! shard) eqn:Hshard; [by rewrite Hshard|].
    rewrite lookup_insert_eq. eauto.
Qed.

(** [addNewLocks]: every contract of the key set gets a lock entry and
    is indexed under its shard; the locked contracts are the former ones
    and those of the key set; the index only grows. *)
Lemma add_locks_spec (allKeys : AllKeys) g idx g' idx' :
  foldl core.add_shard_locks (g, idx) allKeys = (g', idx') →
  (∀ (entry : Z * list CKeys) cKeys, entry ∈ allKeys → cKeys ∈ entry.2 →
     is_Some (g' !! ck_Addr cKeys) ∧
     ∃ m, idx' !! entry.1 = Some m ∧ is_Some (m !! ck_Addr cKeys)) ∧
  (∀ a, is_Some (g' !! a) ↔
        (∃ (entry : Z * list CKeys) cKeys,
            entry ∈ allKeys ∧ cKeys ∈ entry.2 ∧ a = ck_Addr cKeys) ∨
        is_Some (g !! a)) ∧
  (∀ s m a, idx !! s = Some m → is_Some (m !! a) →
            ∃ m', idx' !! s = Some m' ∧ is_Some (m' !! a)).
Proof.
  revert g idx. induction allKeys as [|entry allKeys IH]; intros g idx.
  - intros [= <- <-]. split; [by intros ? ? ?%elem_of_nil|].
    split; [|eauto]. intros a. split; [auto|].
    intros [(e & c & ?%elem_of_nil & _)|?]; done.
  - cbn [foldl].
    destruct (core.add_shard_locks (g, idx) entry) as [g1 idx1] eqn:Hstep.
    intros Hrest.
    destruct (add_shard_locks_spec _ _ _ _ _ Hstep) as (Hall1 & Hdom1 & Hmono1).
    destruct (IH _ _ Hrest) as (Hall & Hdom & Hmono).
    split; [|split].
    + intros e c [->|Hin]%elem_of_cons Hc; [|eauto].
      destruct (Hall1 c Hc) as (Hg & m & Hm & Ha). split.
      * apply Hdom. auto.
      * by apply (Hmono _ m).
    + intros a. rewrite Hdom, Hdom1. split.
      * intros [(e & c & He & Hc & ->)|[(c & Hc & ->)|?]]; auto.
        -- left. exists e, c. split; [apply elem_of_cons; auto|done].
        -- left. exists entry, c. split; [apply elem_of_cons; auto|done].
      * intros [(e & c & [->|He]%elem_of_cons & Hc & ->)|?]; eauto 6.
    + intros s m a Hs Ha.
      destruct (Hmono1 s m a Hs Ha) as (m' & Hs' & Ha'). eauto.
Qed.

Lemma addNewLocks_indexed (bc : core.BlockChain) (allKeys : AllKeys) :
  locks_indexed (core.gLocked bc) (core.lockedAddrMap bc) →
  locks_indexed (core.gLocked (core.addNewLocks bc allKeys))
                (core.lockedAddrMap (core.addNewLocks bc allKeys)).
Proof.
  unfold core.addNewLocks.
  destruct (foldl _ _ allKeys) as [g' idx'] eqn:Hfold. simpl.
  apply add_locks_spec in Hfold as (Hall & Hdom & Hmono).
  intros Hinv addr [(e & c & He & Hc & ->)|Hold]%Hdom.
  - destruct (Hall e c He Hc) as (_ & m & Hm & Ha). eauto.
  - destruct (Hinv addr Hold) as (s & m & Hs & Ha).
    destruct (Hmono s m addr Hs Ha) as (m' & Hs' & Ha'). eauto.
Qed.

Lemma delete_all_lookup_Some (l : list (Address * bool)) g (addr : Address) :
  is_Some (foldl (λ g kv, delete kv.1 g) g l !! addr) →
  is_Some (g !! addr) ∧ addr ∉ l.*1.
Proof.
  revert g. induction l as [|kv l IH]; intros g; simpl.
  - intros Hg. split; [done|apply not_elem_of_nil].
  - intros [Hg Hnin]%IH. destruct (decide (kv.1 = addr)) as [<-|Hne].
    + rewrite lookup_delete_eq in Hg. by destruct Hg.
    + rewrite lookup_delete_ne in Hg by done. split; [done|].
      intros [->|?]%elem_of_cons; done.
Qed.

Lemma unlock_shard_indexed (bc : core.BlockChain) (shard : Z) :
  locks_indexed (core.gLocked bc) (core.lockedAddrMap bc) →
  locks_indexed (core.gLocked (core.unlock_shard bc shard))
                (core.lockedAddrMap (core.unlock_shard bc shard)).
Proof.
  unfold core.unlock_shard.
  destruct (core.lockedAddrMap bc !! shard) as [lockedAddrs|] eqn:Hm; [|done].
  case_bool_decide; [|done]. simpl.
  intros Hinv addr [Hg Hnin]%delete_all_lookup_Some.
  destruct (Hinv addr Hg) as (s & m & Hs & [b Hb]).
  exists s, m. split; [|eauto].
  rewrite lookup_delete_ne; [done|]. intros <-.
  apply Hnin. apply list_elem_of_fmap. exists (addr, b). split; [done|].
  apply elem_of_map_to_list. congruence.
Qed.

Lemma ref_status_tx_indexed (bNum : Z) (bc bc' : core.BlockChain)
    (tx : Transaction) (receipt : core.Receipt) :
  core.ref_status_tx bNum bc tx receipt = Some bc' →
  locks_indexed (core.gLocked bc) (core.lockedAddrMap bc) →
  locks_indexed (core.gLocked bc') (core.lockedAddrMap bc').
Proof.
  unfold core.ref_status_tx.
  destruct (core.tx_status _ _) as [[|]|]; simpl; [| |done].
  - case_bool_decide.
    + destruct (core.cross_keys tx) as [[shards allKeys]|]; simpl; [|done].
      intros [= <-] Hinv.
      by apply (addNewLocks_indexed
                  (core.set_lastCtx (core.AddProcessed bc (tx_Hash tx)) _)
                  allKeys).
    + case_bool_decide; [|by intros [= <-]].
      destruct (DecodeStateCommit tx) as [[[[shard commit] report] root]|];
        simpl; [|done].
      destruct (core.lastCommit _ !! shard); simpl; [|done].
      case_bool_decide; intros [= <-] Hinv;
        exact (unlock_shard_indexed bc shard Hinv).
  - by intros [= <-].
Qed.

Lemma post_tx_indexed (bc bc' : core.BlockChain) (tx : Transaction)
    (receipt : core.Receipt) :
  core.post_tx bc tx receipt = Some bc' →
  locks_indexed (core.gLocked bc) (core.lockedAddrMap bc) →
  locks_indexed (core.gLocked bc') (core.lockedAddrMap bc').
Proof.
  unfold core.post_tx. destruct (_ && _).
  - destruct (DecodeStateCommit tx) as [[[[shard commit] report] root]|];
      simpl; [|done].
    intros [= <-] Hinv. exact (unlock_shard_indexed bc shard Hinv).
  - destruct (_ && _); [|by intros [= <-]].
    destruct (core.cross_keys tx) as [[shards allKeys]|]; simpl; [|done].
    intros [= <-] Hinv. exact (addNewLocks_indexed bc allKeys Hinv).
Qed.

End LockIndex.

(** X3.  No lock is orphaned: if every contract of the global lock
    table is recorded in the index under some shard, this is still so
    after [UpdateRefStatus] has absorbed a block, and after the lock
    update of [Process], whatever the block holds. *)
Theorem global_locks_stay_indexed `{Common} :
  (∀ (bc bc' : core.BlockChain) (block : core.Block)
     (receipts : list core.Receipt),
      locks_indexed (core.gLocked bc) (core.lockedAddrMap bc) →
      core.UpdateRefStatus bc block receipts = Some bc' →
      locks_indexed (core.gLocked bc') (core.lockedAddrMap bc')) ∧
  (∀ (bc bc' : core.BlockChain) (txs : list Transaction)
     (receipts : list core.Receipt),
      locks_indexed (core.gLocked bc) (core.lockedAddrMap bc) →
      core.post_txs bc 0 txs receipts = Some bc' →
      locks_indexed (core.gLocked bc') (core.lockedAddrMap bc')).
Proof.
  split.
  - intros bc bc' block receipts Hinv. unfold core.UpdateRefStatus.
    generalize 0%nat. revert bc Hinv.
    induction (core.b_Transactions block) as [|tx txs IH];
      intros bc Hinv i; simpl; [by intros [= <-]|].
    destruct (receipts !! i) as [receipt|]; simpl; [|done].
    destruct (core.ref_status_tx _ bc tx receipt) as [bc1|] eqn:Hstep;
      simpl; [|done].
    apply IH. by eapply ref_status_tx_indexed.
  - intros bc bc' txs receipts Hinv. generalize 0%nat. revert bc Hinv.
    induction txs as [|tx txs IH]; intros bc Hinv i; simpl;
      [by intros [= <-]|].
    destruct (receipts !! i) as [receipt|]; simpl; [|done].
    destruct (core.post_tx bc tx receipt) as [bc1|] eqn:Hstep;
      simpl; [|done].
    apply IH. by eapply post_tx_indexed.
Qed.

(** The block with a state commit and a cross-shard transaction behind
    it, absorbed from the chain that holds one indexed lock. *)
Lemma global_locks_stay_indexed_witness :
  ∃ bc',
    core.UpdateRefStatus (H := be_common) ex_locked_chain ex_relock_block
      [ok_receipt; ok_receipt] = Some bc' ∧
    locks_indexed (core.gLocked bc') (core.lockedAddrMap bc').
Proof.
  eexists. split; [vm_compute; reflexivity|].
  refine (proj1 (global_locks_stay_indexed (H := be_common))
            ex_locked_chain _ ex_relock_block [ok_receipt; ok_receipt] _ _).
  - intros addr Hsome. exists 2%Z, {[ 10%N := false ]}.
    split; [vm_compute; reflexivity|].
    destruct (decide (addr = 10%N)) as [->|Hne]; [vm_compute; eauto|].
    exfalso. change (core.gLocked ex_locked_chain) with
      ({[ 10%N := {| cl_Addr := 10%N; cl_Keys := {[ 1%N := (-1)%Z ]} |} ]}
         : gmap Address CLock) in Hsome.
    rewrite lookup_singleton_ne in Hsome by done. by destruct Hsome.
  - vm_compute; reflexivity.
Defined.

(** X4.  Locks added for a committed cross-shard transaction are
    released by the next state commit of the shard: after [addNewLocks],
    every contract of the key set has a lock entry and is indexed under
    its shard, and releasing that shard removes the lock entry of each
    of its contracts and the shard from the index. *)
Theorem added_locks_are_released (bc : core.BlockChain) (allKeys : AllKeys)
    (shard : Z) (sKeys : list CKeys) (cKeys : CKeys) :
  (shard, sKeys) ∈ allKeys → cKeys ∈ sKeys →
  let bc1 := core.addNewLocks bc allKeys in
  is_Some (core.gLocked bc1 !! ck_Addr cKeys) ∧
  is_Some (indexed bc1 shard !! ck_Addr cKeys) ∧
  core.gLocked (core.unlock_shard bc1 shard) !! ck_Addr cKeys = None ∧
  core.lockedAddrMap (core.unlock_shard bc1 shard) !! shard = None.
Proof.
  intros Hs Hc bc1.
  assert (Hadded : is_Some (core.gLocked bc1 !! ck_Addr cKeys) ∧
                   is_Some (indexed bc1 shard !! ck_Addr cKeys)).
  { unfold bc1, core.addNewLocks, indexed.
    destruct (foldl _ _ allKeys) as [g' idx'] eqn:Hfold. simpl.
    apply add_locks_spec in Hfold as (Hall & _ & _).
    destruct (Hall _ _ Hs Hc) as (Hg & m & Hm & Ha). simpl in Hm.
    split; [done|]. by rewrite Hm. }
  destruct Hadded as [Hg Hidx].
  destruct (unlock_shard_spec bc1 shard) as (Hgone & Hdrop & _).
  split; [done|]. split; [done|]. split; [by apply Hgone|].
  apply Hdrop. intros Hempty. rewrite Hempty in Hidx.
  rewrite lookup_empty in Hidx. by destruct Hidx.
Qed.

(** The keys of [ex_T1] locked on the empty chain and released by the
    commit of shard 2. *)
Lemma added_locks_are_released_witness :
  let bc1 := core.addNewLocks empty_chain ex_T1 in
  is_Some (core.gLocked bc1 !! 10%N) ∧
  core.gLocked (core.unlock_shard bc1 2) !! 10%N = None.
Proof.
  intros bc1.
  destruct (added_locks_are_released empty_chain ex_T1 2%Z
              [{| ck_Addr := 10%N; ck_Keys := [1%N]; ck_WKeys := [1%N] |}]
              {| ck_Addr := 10%N; ck_Keys := [1%N]; ck_WKeys := [1%N] |})
    as (Hg & _ & Hgone & _).
  - apply list_elem_of_singleton. reflexivity.
  - apply list_elem_of_singleton. reflexivity.
  - split; [exact Hg|exact Hgone].
Defined.

(** ** State commits and the contracts about to be unlocked *)

Section AboutToUnlock.

Context `{Common}.

Implicit Types (w : miner.worker).

(** [unlockKeys] marks the contracts indexed under the shard and keeps
    the marks there are; nothing else changes. *)
Lemma unlockKeys_spec w (shard : Z) :
  miner.chain (miner.unlockKeys w shard) = miner.chain w ∧
  miner.cLocked (miner.unlockKeys w shard) = miner.cLocked w ∧
  miner.addrShardMap (miner.unlockKeys w shard) = miner.addrShardMap w ∧
  ∀ a, is_Some (miner.cUnlocked (miner.unlockKeys w shard) !! a) ↔
       is_Some (miner.cUnlocked w !! a) ∨
       is_Some (indexed (miner.chain w) shard !! a).
Proof.
  unfold miner.unlockKeys, indexed. simpl.
  split; [done|]. split; [done|]. split; [done|].
  set (m := default ∅ (core.lockedAddrMap (miner.chain w) !! shard)).
  intros a.
  assert (Hm : is_Some (m !! a) ↔ a ∈ (map_to_list m).*1).
  { split.
    - intros [b Hb]. apply list_elem_of_fmap. exists (a, b).
      split; [done|]. by apply elem_of_map_to_list.
    - intros ([a' b] & -> & Hin%elem_of_map_to_list)%list_elem_of_fmap.
      eauto. }
  rewrite Hm. generalize (map_to_list m) (miner.cUnlocked w). clear.
  induction l as [|kv l IH]; intros cu; simpl.
  - split; [auto|]. intros [?|?%elem_of_nil]; done.
  - rewrite IH. destruct (cu !! kv.1) eqn:Hkv.
    + split; [intros [?|?]; [auto|right; apply elem_of_cons; auto]|].
      intros [?|[->|?]%elem_of_cons]; [auto| |auto].
      left. rewrite Hkv. eauto.
    + destruct (decide (kv.1 = a)) as [<-|Hne].
      * rewrite lookup_insert_eq. split; intros _.
        -- right. apply elem_of_cons; auto.
        -- left. eauto.
      * rewrite lookup_insert_ne by done.
        split; [intros [?|?]; [auto|right; apply elem_of_cons; auto]|].
        intros [?|[?|?]%elem_of_cons]; auto. done.
Qed.

Lemma filter_senders_unlock w w' (stateTxs : list (Address * list Transaction))
    (nc nc' : gmap Address (list Transaction)) :
  foldl miner.filter_sender (Some (w, nc)) stateTxs = Some (w', nc') →
  miner.cLocked w' = miner.cLocked w ∧
  (∀ a, is_Some (miner.cUnlocked w !! a) → is_Some (miner.cUnlocked w' !! a)) ∧
  (∀ sender, is_Some (nc' !! sender) →
     is_Some (nc !! sender) ∨
     ∀ a, is_Some (indexed (miner.chain w) (sender_shard w sender) !! a) →
          is_Some (miner.cUnlocked w' !! a)).
Proof.
  revert w nc. induction stateTxs as [|[addr cands] rest IH]; intros w nc.
  - intros [= <- <-]. auto.
  - cbn [foldl].
    destruct (miner.filter_sender (Some (w, nc)) (addr, cands))
      as [[w1 nc1]|] eqn:Hstep; [|by rewrite filter_sender_none].
    intros Hrest. destruct (IH _ _ Hrest) as (Hcl & Hmono & Hmarks).
    assert (Hone : miner.chain w1 = miner.chain w ∧
                   miner.addrShardMap w1 = miner.addrShardMap w ∧
                   miner.cLocked w1 = miner.cLocked w ∧
                   (∀ a, is_Some (miner.cUnlocked w !! a) →
                         is_Some (miner.cUnlocked w1 !! a)) ∧
                   (∀ sender, is_Some (nc1 !! sender) →
                      is_Some (nc !! sender) ∨
                      (sender = addr ∧
                       ∀ a, is_Some (indexed (miner.chain w)
                                       (sender_shard w addr) !! a) →
                            is_Some (miner.cUnlocked w1 !! a)))).
    { revert Hstep. unfold miner.filter_sender. simpl.
      destruct (core.lastCommit (miner.chain w) !! _) as [lc|]; simpl; [|done].
      destruct (foldl _ _ cands) as [[[maxTx maxRef] maxCom]|]; simpl; [|done].
      destruct maxTx as [tx|]; [|intros [= <- <-]; auto 10].
      destruct (DecodeStateCommit tx); simpl; [|done]. intros [= <- <-].
      destruct (unlockKeys_spec w (default 0%Z (miner.addrShardMap w !! addr)))
        as (Hc & Hl & Hm & Hu).
      repeat split; try done.
      - intros a Ha. apply Hu. auto.
      - intros sender. destruct (decide (addr = sender)) as [->|Hne].
        + intros _. right. split; [done|]. intros a Ha. apply Hu. auto.
        + rewrite lookup_insert_ne by done. auto. }
    destruct Hone as (Hc1 & Hm1 & Hl1 & Hmono1 & Hmarks1).
    split; [congruence|]. split; [auto|].
    intros sender Hs. destruct (Hmarks sender Hs) as [Hold|Hnew].
    + destruct (Hmarks1 sender Hold) as [?|[-> Hu]]; [auto|].
      right. intros a Ha. apply Hmono. auto.
    + right. intros a Ha. apply Hnew.
      unfold sender_shard in *. by rewrite Hc1, Hm1.
Qed.





End AboutToUnlock.

(** X5.  An accepted state commit lifts the global locks of its shard
    for the rest of the attempt: when [NewValidStateCommitments] accepts
    a commit of a sender, every contract indexed under the sender's
    shard is marked in [cUnlocked]; the tentative table and the chain
    are not touched; and [checkLockStatus] reports no lock for such a
    contract as long as it has no tentative entry, whatever the global
    table holds. *)
Theorem accepted_commit_lifts_global_locks `{Common} (w w' : miner.worker)
    (stateTxs : list (Address * list Transaction))
    (newCommits : gmap Address (list Transaction)) (sender : Address)
    (addr : Address) :
  miner.NewValidStateCommitments w stateTxs = Some (w', newCommits) →
  is_Some (newCommits !! sender) →
  is_Some (indexed (miner.chain w) (sender_shard w sender) !! addr) →
  is_Some (miner.cUnlocked w' !! addr) ∧
  miner.cLocked w' = miner.cLocked w ∧
  miner.chain w' = miner.chain w ∧
  (∀ addrKeys : gmap Hash bool,
      miner.cLocked w !! addr = None →
      miner.checkLockStatus w' addr addrKeys = false).
Proof.
  unfold miner.NewValidStateCommitments. intros Hrun Hacc Hidx.
  destruct (filter_senders_unlock _ _ _ _ _ Hrun) as (Hcl & _ & Hmarks).
  destruct (filter_senders _ _ _ _ _ Hrun) as (Hchain & _ & _).
  destruct (Hmarks sender Hacc) as [Hold|Hnew].
  { rewrite lookup_empty in Hold. by destruct Hold. }
  assert (Hun : is_Some (miner.cUnlocked w' !! addr)) by auto.
  split; [done|]. split; [done|]. split; [done|].
  intros addrKeys Hfree. apply not_true_is_false. intros Hlock.
  apply checkLockStatus_conflicts in Hlock
    as [(key & kval & cl & cval & _ & Hsome & _)
       |(key & kval & gl & gval & _ & Hnone & _)].
  - rewrite Hcl in Hsome. congruence.
  - rewrite Hnone in Hun. by destruct Hun.
Qed.

Lemma accepted_commit_lifts_global_locks_witness :
  let stateTxs := [(22%N, [commit_tx 301 2 9 5])] in
  let w' := miner.unlockKeys ex_locked_worker 2 in
  is_Some (miner.cUnlocked w' !! 10%N) ∧
  miner.cLocked w' = miner.cLocked ex_locked_worker ∧
  miner.chain w' = miner.chain ex_locked_worker ∧
  (∀ addrKeys : gmap Hash bool,
      miner.cLocked ex_locked_worker !! 10%N = None →
      miner.checkLockStatus w' 10%N addrKeys = false).
Proof.
  intros stateTxs w'.
  apply (accepted_commit_lifts_global_locks (H := be_common)
           ex_locked_worker w' stateTxs {[ 22%N := [commit_tx 301 2 9 5] ]}
           22%N 10%N).
  - vm_compute. reflexivity.
  - exists [commit_tx 301 2 9 5]. vm_compute. reflexivity.
  - exists false. vm_compute. reflexivity.
Defined.



(** ** What an attempt admits *)

Section Admission.

Context `{Common}.

Implicit Types (w : miner.worker) (st : miner.admission) (a : Address)
  (k : Hash).

Lemma admit_fold_none (creator : Address) (txs : list Transaction) :
  foldl (λ acc tx, acc ≫= λ st, miner.admit_tx creator st tx) None txs
  = None.
Proof. induction txs; simpl; auto. Qed.

Lemma admit_txs_none (l : list (Address * list Transaction)) :
  foldl miner.admit_txs None l = None.
Proof.
  induction l as [|e l IH]; simpl; [done|].
  unfold miner.admit_txs at 2. by rewrite admit_fold_none.
Qed.

(** What every step of the admission loops keeps, the loops keep. *)
Lemma admit_from_invariant (P : miner.admission → Prop)
    (crossTxs : list (Address * list Transaction)) :
  (∀ creator cands tx st st1,
      (creator, cands) ∈ crossTxs → tx ∈ cands → P st →
      miner.admit_tx creator st tx = Some st1 → P st1) →
  ∀ st st', P st → miner.admit_from st crossTxs = Some st' → P st'.
Proof.
  unfold miner.admit_from.
  assert (Hinner : ∀ creator (cands : list Transaction),
             (∀ tx st st1, tx ∈ cands → P st →
                           miner.admit_tx creator st tx = Some st1 → P st1) →
             ∀ st st', P st →
               miner.admit_txs (Some st) (creator, cands) = Some st' → P st').
  { unfold miner.admit_txs. simpl. intros creator cands.
    induction cands as [|tx cands IH]; intros Hstep st st' HP.
    - by intros [= <-].
    - simpl. destruct (miner.admit_tx creator st tx) as [st1|] eqn:Htx;
        [|by rewrite admit_fold_none].
      apply (IH (λ t s s1 Hin, Hstep t s s1
                                 (proj2 (elem_of_cons _ _ _) (or_intror Hin)))).
      apply (Hstep tx st st1); [apply elem_of_cons; auto|done|done]. }
  induction crossTxs as [|[creator cands] rest IH]; intros Hstep st st' HP.
  - by intros [= <-].
  - cbn [foldl].
    destruct (miner.admit_txs (Some st) (creator, cands)) as [st1|] eqn:Hone;
      [|by rewrite admit_txs_none].
    apply (IH (λ c cs tx s s1 Hin, Hstep c cs tx s s1
                                     (proj2 (elem_of_cons _ _ _)
                                            (or_intror Hin)))).
    apply (Hinner creator cands) with (st := st); [|done|done].
    intros tx s s1 Hin. apply (Hstep creator cands); [|done].
    apply elem_of_cons; auto.
Qed.

Lemma read_locks_some (l : list Hash) (keys : gmap Hash Z) k :
  is_Some (keys !! k) ∨ k ∈ l → is_Some (foldl read_lock keys l !! k).
Proof.
  revert keys. induction l as [|x l IH]; intros keys; cbn [foldl].
  - intros [?|?%elem_of_nil]; done.
  - intros Hk. apply IH.
    destruct (decide (x = k)) as [->|Hne].
    + left. rewrite read_lock_same. eauto.
    + rewrite read_lock_other by done.
      destruct Hk as [?|[->|?]%elem_of_cons]; auto. done.
Qed.

Lemma write_locks_some (l : list Hash) (keys : gmap Hash Z) k :
  is_Some (keys !! k) ∨ k ∈ l → is_Some (foldl write_lock keys l !! k).
Proof.
  revert keys. induction l as [|x l IH]; intros keys; cbn [foldl].
  - intros [?|?%elem_of_nil]; done.
  - intros Hk. apply IH. unfold write_lock.
    destruct (decide (x = k)) as [->|Hne].
    + left. rewrite lookup_insert_eq. eauto.
    + rewrite lookup_insert_ne by done.
      destruct Hk as [?|[->|?]%elem_of_cons]; auto. done.
Qed.

(** Locking a contract enters every pair it names and drops no
    entry. *)
Lemma lock_contract_some (locks : gmap Address CLock) (cKeys : CKeys) a k :
  is_Some (lock_entry locks a k) ∨
  (ck_Addr cKeys = a ∧ (k ∈ ck_Keys cKeys ∨ k ∈ ck_WKeys cKeys)) →
  is_Some (lock_entry (lock_contract locks cKeys) a k).
Proof.
  unfold lock_entry, lock_contract.
  destruct (decide (ck_Addr cKeys = a)) as [<-|Hne].
  - rewrite lookup_insert_eq. simpl. intros Hk.
    apply write_locks_some.
    destruct Hk as [Hold|[_ [Hr|Hw]]]; [|left|by right].
    + left. apply read_locks_some. left.
      by destruct (locks !! ck_Addr cKeys).
    + apply read_locks_some. by right.
  - rewrite lookup_insert_ne by done. intros [?|[? _]]; done.
Qed.

Lemma lock_contracts_some (l : list CKeys) (locks : gmap Address CLock) a k :
  is_Some (lock_entry locks a k) ∨
  (∃ cKeys, cKeys ∈ l ∧ ck_Addr cKeys = a ∧
            (k ∈ ck_Keys cKeys ∨ k ∈ ck_WKeys cKeys)) →
  is_Some (lock_entry (foldl lock_contract locks l) a k).
Proof.
  revert locks. induction l as [|c l IH]; intros locks; cbn [foldl].
  - intros [?|(? & ?%elem_of_nil & _)]; done.
  - intros Hk. apply IH.
    destruct Hk as [?|(cKeys & [->|Hin]%elem_of_cons & Ha & Hn)].
    + left. apply lock_contract_some. auto.
    + left. apply lock_contract_some. auto.
    + right. eauto.
Qed.

(** [updateLockStatus] enters every pair the key set touches and drops
    no entry. *)
Lemma updateLockStatus_some w (allKeys : AllKeys) a k :
  is_Some (tentative w a k) ∨ touches allKeys a k →
  is_Some (tentative (miner.updateLockStatus w allKeys) a k).
Proof.
  unfold tentative, miner.updateLockStatus, touches. simpl.
  fold (lock_entry (miner.cLocked w) a k).
  generalize (miner.cLocked w). clear w.
  induction allKeys as [|sk allKeys IH]; intros locks; cbn [foldl].
  - intros [?|(? & ? & ?%elem_of_nil & _)]; done.
  - intros Hk. apply IH.
    destruct Hk as [?|(shardKeys & cKeys & [->|Hin]%elem_of_cons & Hc & Hn)].
    + left. apply lock_contracts_some. auto.
    + left. apply lock_contracts_some. right. eauto.
    + right. eauto.
Qed.

(** A write request meets every entry of the tentative table. *)
Lemma checkTxStatus_held_entry w a k (allKeys : AllKeys) :
  is_Some (tentative w a k) → writes allKeys a k →
  miner.checkTxStatus w allKeys = false.
Proof.
  intros [cval Ht] (shardKeys & cKeys & Hs & Hc & Ha & Hk).
  unfold miner.checkTxStatus.
  apply not_true_is_false. intros Hall.
  rewrite forallb_forall in Hall.
  specialize (Hall shardKeys (proj1 (list_elem_of_In _ _) Hs)).
  rewrite forallb_forall in Hall.
  specialize (Hall cKeys (proj1 (list_elem_of_In _ _) Hc)).
  apply negb_true_iff in Hall.
  assert (Hlock : miner.checkLockStatus w (ck_Addr cKeys) (lockMap_of cKeys)
                  = true); [|congruence].
  apply checkLockStatus_conflicts. left.
  unfold tentative in Ht. rewrite <- Ha in Ht.
  destruct (miner.cLocked w !! ck_Addr cKeys) as [cl|] eqn:Hcl; [|done].
  exists k, true, cl, cval. split; [|auto].
  rewrite lockMap_of_lookup. unfold request_of.
  by rewrite bool_decide_eq_true_2.
Qed.

Lemma admit_tx_chain creator st st1 (tx : Transaction) :
  miner.admit_tx creator st tx = Some st1 →
  miner.chain (miner.adm_worker st1) = miner.chain (miner.adm_worker st) ∧
  miner.cUnlocked (miner.adm_worker st1)
  = miner.cUnlocked (miner.adm_worker st).
Proof.
  unfold miner.admit_tx.
  destruct (negb _); [by intros [= <-]|].
  destruct (core.IsProcessed _ _); [by intros [= <-]|].
  destruct (miner.tx_keys tx); simpl; [|done].
  intros [= <-]. simpl. by destruct (miner.checkTxStatus _ _).
Qed.

End Admission.

(** X7.  What [NewValidCrossTransactions] admits.  The chain and the
    marks of the accepted state commits are left alone; every admitted
    transaction is a cross-shard transaction of the pending list of its
    creator, had not been processed by the chain, is logged as admitted,
    and every pair of its key set holds an entry in the tentative table
    at the end of the attempt. *)
Theorem admitted_transactions `{Common} (w : miner.worker)
    (crossTxs : list (Address * list Transaction))
    (st' : miner.admission) :
  miner.NewValidCrossTransactions w crossTxs = Some st' →
  miner.chain (miner.adm_worker st') = miner.chain w ∧
  miner.cUnlocked (miner.adm_worker st') = miner.cUnlocked w ∧
  ∀ creator tx,
    tx ∈ default [] (miner.newCtxs st' !! creator) →
    tx_TxType tx = CrossShard ∧
    core.IsProcessed (miner.chain w) (tx_Hash tx) = false ∧
    (∃ cands, (creator, cands) ∈ crossTxs ∧ tx ∈ cands) ∧
    (tx_Hash tx, true) ∈ miner.attempts st' ∧
    ∃ allKeys,
      miner.tx_keys tx = Some allKeys ∧
      ∀ a k, touches allKeys a k →
             is_Some (tentative (miner.adm_worker st') a k).
Proof.
  unfold miner.NewValidCrossTransactions.
  set (P := λ st : miner.admission,
         miner.chain (miner.adm_worker st) = miner.chain w ∧
         miner.cUnlocked (miner.adm_worker st) = miner.cUnlocked w ∧
         ∀ creator tx,
           tx ∈ default [] (miner.newCtxs st !! creator) →
           tx_TxType tx = CrossShard ∧
           core.IsProcessed (miner.chain w) (tx_Hash tx) = false ∧
           (∃ cands, (creator, cands) ∈ crossTxs ∧ tx ∈ cands) ∧
           (tx_Hash tx, true) ∈ miner.attempts st ∧
           ∃ allKeys,
             miner.tx_keys tx = Some allKeys ∧
             ∀ a k, touches allKeys a k →
                    is_Some (tentative (miner.adm_worker st) a k)).
  apply (admit_from_invariant P).
  - intros creator cands tx st st1 Hin Htx (Hch & Hcu & Hadm) Hstep.
    destruct (admit_tx_chain _ _ _ _ Hstep) as [Hch1 Hcu1].
    split; [congruence|]. split; [congruence|].
    revert Hstep. unfold miner.admit_tx.
    destruct (bool_decide (tx_TxType tx = CrossShard)) eqn:Hty; simpl;
      [|by intros [= <-]].
    apply bool_decide_eq_true_1 in Hty.
    destruct (core.IsProcessed _ _) eqn:Hproc; [by intros [= <-]|].
    destruct (miner.tx_keys tx) as [allKyes|] eqn:Hkeys; simpl; [|done].
    intros [= <-]. simpl.
    destruct (miner.checkTxStatus _ allKyes) eqn:Hinc.
    + assert (Hold : ∀ c t,
                 t ∈ default [] (miner.newCtxs st !! c) →
                 tx_TxType t = CrossShard ∧
                 core.IsProcessed (miner.chain w) (tx_Hash t) = false ∧
                 (∃ cs, (c, cs) ∈ crossTxs ∧ t ∈ cs) ∧
                 (tx_Hash t, true)
                   ∈ miner.attempts st ++ [(tx_Hash tx, true)] ∧
                 ∃ allKeys,
                   miner.tx_keys t = Some allKeys ∧
                   ∀ a k, touches allKeys a k →
                     is_Some (tentative (miner.updateLockStatus
                                           (miner.adm_worker st) allKyes)
                                a k)).
      { intros c t Ht.
        destruct (Hadm c t Ht) as (? & ? & ? & Hlog & ks & ? & Hks).
        repeat (split; [done|]).
        split; [apply elem_of_app; auto|].
        exists ks. split; [done|]. intros a k Hak.
        apply updateLockStatus_some. auto. }
      intros c t. destruct (decide (creator = c)) as [<-|Hne].
      * rewrite lookup_insert_eq. simpl.
        intros [Ht| ->%list_elem_of_singleton]%elem_of_app; [by apply Hold|].
        split; [done|]. split; [by rewrite <- Hch|].
        split; [eauto|].
        split; [apply elem_of_app; right; by apply list_elem_of_singleton|].
        exists allKyes. split; [done|]. intros a k Hak.
        apply updateLockStatus_some. auto.
      * rewrite lookup_insert_ne by done. apply Hold.
    + intros c t Ht.
      destruct (Hadm c t Ht) as (? & ? & ? & Hlog & Hks).
      repeat (split; [done|]). split; [apply elem_of_app; auto|done].
  - unfold P. simpl. split; [done|]. split; [done|].
    intros creator tx. rewrite lookup_empty. by intros ?%elem_of_nil.
Qed.

Lemma admitted_transactions_witness :
  let crossTxs := [(5%N, [ex_tx1; ex_tx2])] in
  let st' := {| miner.adm_worker := miner.updateLockStatus empty_worker ex_T1;
                miner.newCtxs := {[ 5%N := [ex_tx1] ]};
                miner.attempts := [(101%N, true); (102%N, false)] |} in
  miner.chain (miner.adm_worker st') = miner.chain empty_worker ∧
  miner.cUnlocked (miner.adm_worker st') = miner.cUnlocked empty_worker ∧
  ∀ creator tx,
    tx ∈ default [] (miner.newCtxs st' !! creator) →
    tx_TxType tx = CrossShard ∧
    core.IsProcessed (miner.chain empty_worker) (tx_Hash tx) = false ∧
    (∃ cands, (creator, cands) ∈ crossTxs ∧ tx ∈ cands) ∧
    (tx_Hash tx, true) ∈ miner.attempts st' ∧
    ∃ allKeys,
      miner.tx_keys (H := be_common) tx = Some allKeys ∧
      ∀ a k, touches allKeys a k →
             is_Some (tentative (miner.adm_worker st') a k).
Proof.
  intros crossTxs st'.
  apply (admitted_transactions (H := be_common) empty_worker crossTxs st').
  vm_compute. reflexivity.
Defined.

(** X8.  Any entry of the tentative table keeps writers out.  Once the
    pair [(a, k)] holds an entry -- a read count or a write lock -- the
    entry stays for the rest of the attempt, every later check of a key
    set that writes [(a, k)] fails, and no transaction admitted later
    writes [(a, k)]. *)
Theorem tentative_entry_rejects_writers `{Common}
    (st st' : miner.admission)
    (crossTxs : list (Address * list Transaction)) (a : Address) (k : Hash) :
  is_Some (tentative (miner.adm_worker st) a k) →
  miner.admit_from st crossTxs = Some st' →
  is_Some (tentative (miner.adm_worker st') a k) ∧
  (∀ allKeys, writes allKeys a k →
              miner.checkTxStatus (miner.adm_worker st') allKeys = false) ∧
  (∀ c t, t ∈ default [] (miner.newCtxs st' !! c) →
          t ∈ default [] (miner.newCtxs st !! c) ∨
          ∃ allKeys, miner.tx_keys t = Some allKeys ∧ ¬ writes allKeys a k).
Proof.
  intros Hheld Hrun.
  set (P := λ s : miner.admission,
         is_Some (tentative (miner.adm_worker s) a k) ∧
         ∀ c t, t ∈ default [] (miner.newCtxs s !! c) →
                t ∈ default [] (miner.newCtxs st !! c) ∨
                ∃ allKeys, miner.tx_keys t = Some allKeys ∧
                           ¬ writes allKeys a k).
  assert (HP : P st') .
  { apply (admit_from_invariant P crossTxs) with (st := st); [|by split; auto|done].
    intros creator cands tx s s1 _ _ [Hs Hadm]. unfold miner.admit_tx.
    destruct (negb _); [by intros [= <-]|].
    destruct (core.IsProcessed _ _); [by intros [= <-]|].
    destruct (miner.tx_keys tx) as [allKyes|] eqn:Hkeys; simpl; [|done].
    intros [= <-]. simpl.
    destruct (miner.checkTxStatus _ allKyes) eqn:Hinc; [|by split].
    split; [apply updateLockStatus_some; auto|].
    assert (Hnot : ¬ writes allKyes a k).
    { intros Hw. rewrite (checkTxStatus_held_entry _ a k) in Hinc; done. }
    intros c t. simpl. destruct (decide (creator = c)) as [->|Hne].
    - rewrite lookup_insert_eq. simpl.
      intros [Hold| ->%list_elem_of_singleton]%elem_of_app; eauto.
    - rewrite lookup_insert_ne; auto. }
  destruct HP as [Hs' Hnew]. split; [done|]. split; [|done].
  intros allKeys Hw. by apply (checkTxStatus_held_entry _ a k).
Qed.

(** The scenario the other way round: [ex_T2] reads the pair first and
    [ex_T1], which writes it, is turned away. *)
Lemma tentative_entry_rejects_writers_witness :
  let st := {| miner.adm_worker := miner.updateLockStatus empty_worker ex_T2;
               miner.newCtxs := {[ 5%N := [ex_tx2] ]};
               miner.attempts := [(102%N, true)] |} in
  let st' := {| miner.adm_worker := miner.updateLockStatus empty_worker ex_T2;
                miner.newCtxs := {[ 5%N := [ex_tx2] ]};
                miner.attempts := [(102%N, true); (101%N, false)] |} in
  is_Some (tentative (miner.adm_worker st') 10%N 1%N) ∧
  (∀ allKeys, writes allKeys 10%N 1%N →
              miner.checkTxStatus (miner.adm_worker st') allKeys = false) ∧
  (∀ c t, t ∈ default [] (miner.newCtxs st' !! c) →
          t ∈ default [] (miner.newCtxs st !! c) ∨
          ∃ allKeys, miner.tx_keys (H := be_common) t = Some allKeys ∧
                     ¬ writes allKeys 10%N 1%N).
Proof.
  intros st st'.
  apply (tentative_entry_rejects_writers (H := be_common) st st'
           [(5%N, [ex_tx1])] 10%N 1%N).
  - exists 1%Z. vm_compute. reflexivity.
  - vm_compute. reflexivity.
Defined.

(** ** The decoders *)

Section Decoders.

Lemma slice_is_Some {A} (b : list A) (lo hi : nat) :
  is_Some (slice b lo hi) ↔ lo ≤ hi ∧ hi ≤ length b.
Proof.
  unfold slice. case_bool_decide; split; try done; eauto.
Qed.

Lemma slice_Some {A} (b : list A) (lo hi : nat) :
  lo ≤ hi → hi ≤ length b →
  slice b lo hi = Some (take (hi - lo) (drop lo b)).
Proof. intros. unfold slice. by rewrite bool_decide_eq_true_2. Qed.

Lemma slice_None {A} (b : list A) (lo hi : nat) :
  length b < hi → slice b lo hi = None.
Proof. intros. unfold slice. rewrite bool_decide_eq_false_2; [done|lia]. Qed.

Lemma slice_from_Some {A} (b : list A) (lo : nat) :
  lo ≤ length b → slice_from b lo = Some (drop lo b).
Proof.
  intros. unfold slice_from. rewrite slice_Some by lia.
  f_equal. apply take_ge. rewrite length_drop. lia.
Qed.

Lemma slice_from_None {A} (b : list A) (lo : nat) :
  length b < lo → slice_from b lo = None.
Proof.
  intros. unfold slice_from, slice. rewrite bool_decide_eq_false_2; [done|lia].
Qed.

Lemma be_uint_bounds (b : list byte) :
  (0 ≤ be_uint b < 256 ^ Z.of_nat (length b))%Z.
Proof.
  unfold be_uint.
  assert (Hgen : ∀ (l : list byte) (acc n : Z),
             (0 ≤ n)%Z → (0 ≤ acc < 256 ^ n)%Z →
             (0 ≤ foldl (λ acc x, acc * 256 + Z.of_N (Byte.to_N x)) acc l
              < 256 ^ (n + Z.of_nat (length l)))%Z).
  { induction l as [|x l IH]; intros acc n Hn Hacc; simpl length.
    - simpl. by rewrite Z.add_0_r.
    - cbn [foldl].
      replace (n + Z.of_nat (S (length l)))%Z
        with ((n + 1) + Z.of_nat (length l))%Z by lia.
      apply IH; [lia|].
      pose proof (Byte.to_N_bounded x) as Hx.
      rewrite Z.pow_add_r by lia. change (256 ^ 1)%Z with 256%Z. lia. }
  apply (Hgen b 0%Z 0%Z); [done|]. simpl. lia.
Qed.

(** The loop of [DecodeCrossTx], with fuel that outlasts the data. *)
Lemma cross_shards_spec (myshard : Z) (data : list byte) (len : Z)
    (fuel : nat) (i index : Z) (shards : list Z) (involved : bool) :
  (0 ≤ index)%Z → (Z.of_nat (length data) < 32 * Z.of_nat fuel + index)%Z →
  (i ≤ len)%Z →
  match cross_shards fuel myshard data i len index shards involved with
  | None => (Z.of_nat (length data) < index + 32 * (len - i))%Z
  | Some (index', shards', involved') =>
      ((i < len)%Z → (index + 32 * (len - i) ≤ Z.of_nat (length data))%Z) ∧
      index' = (index + 32 * (len - i))%Z ∧
      ∃ new, shards' = shards ++ new ∧
             Z.of_nat (length new) = (len - i)%Z ∧
             (involved' = true ↔ involved = true ∨ myshard ∈ new) ∧
             ∀ (j : nat) s, new !! j = Some s →
               s = be_uint (take 8 (drop (Z.to_nat (index + 32 * Z.of_nat j
                                                    + 24)) data))
  end.
Proof.
  revert i index shards involved.
  induction fuel as [|fuel IH]; intros i index shards involved Hidx Hfuel Hi;
    cbn [cross_shards]; case_bool_decide as Hlt.
  - lia.
  - split; [lia|]. split; [lia|]. exists []. rewrite app_nil_r.
    split; [done|]. split; [simpl; lia|].
    split; [|intros j s Hj; by rewrite lookup_nil in Hj].
    split; [auto|]. intros [?|?%elem_of_nil]; done.
  - destruct (decide (Z.of_nat (length data) < index + 32)%Z) as [Hshort|Hfit].
    + rewrite slice_None by lia. simpl. lia.
    + rewrite slice_Some by lia. simpl.
      replace (Z.to_nat (index + 32) - Z.to_nat (index + 24)) with 8 by lia.
      set (shard := be_uint (take 8 (drop (Z.to_nat (index + 24)) data))).
      specialize (IH (i + 1)%Z (index + 32)%Z (shards ++ [shard])
                     (if bool_decide (shard = myshard) then true
                      else involved)).
      destruct (cross_shards fuel myshard data (i + 1) len (index + 32)
                  (shards ++ [shard]) _) as [[[index' shards'] involved']|].
      * destruct IH as (Hfits & -> & new & -> & Hlen & Hinv & Hnew);
          [lia|lia|lia|].
        split; [intros _; destruct (decide (i + 1 < len)%Z); lia|].
        split; [lia|]. exists (shard :: new).
        split; [by rewrite <- app_assoc|].
        split; [simpl length; lia|]. split.
        -- rewrite Hinv. split.
           ++ intros [Hold|Hin]; [|right; apply elem_of_cons; auto].
              case_bool_decide as Hs; [|auto].
              right. apply elem_of_cons. auto.
           ++ intros [->|[->|Hin]%elem_of_cons]; auto.
              ** left. by case_bool_decide.
              ** left. by rewrite bool_decide_eq_true_2.
        -- intros [|j] s; simpl.
           ++ intros [= <-]. unfold shard. do 3 f_equal. lia.
           ++ intros Hj. rewrite (Hnew j s Hj). do 3 f_equal. lia.
      * lia.
  - split; [lia|]. split; [lia|]. exists []. rewrite app_nil_r.
    split; [done|]. split; [simpl; lia|].
    split; [|intros j s Hj; by rewrite lookup_nil in Hj].
    split; [auto|]. intros [?|?%elem_of_nil]; done.
Qed.

Lemma DecodeCrossTx_index (myshard : Z) (data : list byte) (index : Z)
    (shards : list Z) (involved : bool) :
  DecodeCrossTx myshard data = Some (index, shards, involved) →
  index = (96 + 32 * Z.of_nat (length shards))%Z.
Proof.
  unfold DecodeCrossTx.
  destruct (slice data 88 96) as [lenData|] eqn:Hlen; simpl; [|done].
  assert (Hlong : 96 ≤ length data).
  { apply (slice_is_Some data 88 96). by rewrite Hlen. }
  pose proof (be_uint_bounds lenData) as [Hn _].
  pose proof (cross_shards_spec myshard data (be_uint lenData) (length data)
                0 96 [] false) as Hspec.
  intros Hrun. rewrite Hrun in Hspec.
  destruct Hspec as (_ & -> & new & -> & Hnew & _); [lia|lia|lia|].
  simpl. lia.
Qed.

End Decoders.

(** X9.  [DecodeCrossTx] reads the shard count [n] from the last eight
    bytes of the third word.  It panics exactly when the data are
    shorter than [96 + 32 n] bytes; otherwise it returns [n] shards,
    each the last eight bytes of its word, the index [96 + 32 n] behind
    them, and the flag that tells whether [myshard] is among them. *)
Theorem decode_cross_tx_shape (myshard : Z) (data : list byte) :
  let n := be_uint (take 8 (drop 88 data)) in
  (DecodeCrossTx myshard data = None ↔
   (Z.of_nat (length data) < 96 + 32 * n)%Z) ∧
  ∀ index shards involved,
    DecodeCrossTx myshard data = Some (index, shards, involved) →
    Z.of_nat (length shards) = n ∧ index = (96 + 32 * n)%Z ∧
    (involved = true ↔ myshard ∈ shards) ∧
    ∀ (j : nat) s, shards !! j = Some s →
      s = be_uint (take 8 (drop (120 + 32 * j) data)).
Proof.
  intros n. subst n. unfold DecodeCrossTx.
  pose proof (be_uint_bounds (take 8 (drop 88 data))) as [Hn _].
  destruct (decide (length data < 96)) as [Hshort|Hlong].
  { rewrite slice_None by done. simpl. split; [|done]. split; [lia|done]. }
  rewrite slice_Some by lia. simpl.
  change (96 - 88) with 8.
  set (n := be_uint (take 8 (drop 88 data))) in *.
  pose proof (cross_shards_spec myshard data n (length data) 0 96 [] false)
    as Hspec.
  destruct (cross_shards (length data) myshard data 0 n 96 [] false)
    as [[[index shards] involved]|].
  - destruct Hspec as (Hfits & -> & new & -> & Hlen & Hinv & Hnew);
      [lia|lia|lia|].
    split.
    + split; [done|]. intros Hlt. exfalso.
      destruct (decide (0 < n)%Z); [specialize (Hfits ltac:(done))|]; lia.
    + intros ? ? ? [= <- <- <-]. simpl.
      split; [lia|]. split; [lia|]. split.
      * rewrite Hinv. split; [by intros [?|?]|auto].
      * intros j s Hj. rewrite (Hnew j s Hj). do 3 f_equal. lia.
  - split; [|done]. split; [intros _|done].
    specialize (Hspec ltac:(lia) ltac:(lia) ltac:(lia)). lia.
Qed.

(** X10.  The miner and the chain read the same key set off a
    cross-shard transaction: what [NewValidCrossTransactions] checks and
    locks tentatively for a transaction is what [UpdateRefStatus] and
    [Process] lock globally once it is committed, and one extraction
    panics exactly when the other does. *)
Theorem miner_and_chain_read_same_keys `{Common} (tx : Transaction) :
  miner.tx_keys tx = snd <$> core.cross_keys tx.
Proof.
  unfold miner.tx_keys, core.cross_keys.
  destruct (slice_from (Data tx) 4) as [data|]; simpl; [|done].
  destruct (DecodeCrossTx 0 data) as [[[index shards] involved]|] eqn:Hdec;
    simpl; [|done].
  apply DecodeCrossTx_index in Hdec as ->.
  replace (Z.to_nat (96 + 32 * Z.of_nat (length shards) + 32 + 2))
    with (Z.to_nat ((2 + 1 + Z.of_nat (length shards)) * 32 + 32 + 2))
    by lia.
  destruct (slice_from data _) as [rest|]; simpl; [|done].
  by destruct (GetAllRWSet _ rest) as [[[allKeys ?] ?]|].
Qed.

(** X11.  [DecodeStateCommit] panics exactly when the payload has fewer
    than 100 bytes: the selector and three words.  Otherwise the shard,
    the block number and the reference number are the last eight bytes
    of the first three words behind the selector -- so each lies below
    [2^64] and the upper 24 bytes of a word are ignored -- and the root
    is the conversion of everything behind the third word. *)
Theorem decode_state_commit_bounds `{Common} (stx : Transaction) :
  (DecodeStateCommit stx = None ↔ length (Data stx) < 100) ∧
  ∀ shard commit report root,
    DecodeStateCommit stx = Some (shard, commit, report, root) →
    let data := drop 4 (Data stx) in
    shard = be_uint (take 8 (drop 24 data)) ∧
    commit = be_uint (take 8 (drop 56 data)) ∧
    report = be_uint (take 8 (drop 88 data)) ∧
    root = BytesToHash (drop 96 data) ∧
    (0 ≤ shard < 2 ^ 64)%Z ∧ (0 ≤ commit < 2 ^ 64)%Z ∧
    (0 ≤ report < 2 ^ 64)%Z.
Proof.
  unfold DecodeStateCommit.
  destruct (decide (length (Data stx) < 4)) as [H4|H4].
  { rewrite slice_from_None by done. simpl. split; [|done]. split; [lia|done]. }
  rewrite slice_from_Some by lia. simpl.
  set (data := drop 4 (Data stx)).
  assert (Hlen : length data = length (Data stx) - 4)
    by (unfold data; by rewrite length_drop).
  destruct (decide (length data < 32)) as [H1|H1].
  { rewrite (slice_None data 24 32) by done. simpl.
    split; [|done]. split; [lia|done]. }
  rewrite (slice_Some data 24 32) by lia. simpl.
  destruct (decide (length data < 64)) as [H2|H2].
  { rewrite (slice_None data 56 64) by done. simpl.
    split; [|done]. split; [lia|done]. }
  rewrite (slice_Some data 56 64) by lia. simpl.
  destruct (decide (length data < 96)) as [H3|H3].
  { rewrite (slice_None data 88 96) by done. simpl.
    split; [|done]. split; [lia|done]. }
  rewrite (slice_Some data 88 96) by lia. simpl.
  rewrite slice_from_Some by lia. simpl.
  split; [split; [done|lia]|].
  intros ? ? ? ? [= <- <- <- <-].
  assert (Hword : ∀ lo, lo + 8 ≤ length data →
             (0 ≤ be_uint (take 8 (drop lo data)) < 2 ^ 64)%Z).
  { intros lo Hlo. pose proof (be_uint_bounds (take 8 (drop lo data))) as Hb.
    rewrite length_take, length_drop in Hb.
    replace (8 `min` (length data - lo)) with 8 in Hb by lia.
    exact Hb. }
  repeat split; try done; apply Hword; lia.
Qed.

Section ReadWriteSets.

Context `{Common}.

Lemma wrap_uint16_range (z : Z) : (0 ≤ wrap_uint16 z < 2 ^ 16)%Z.
Proof. unfold wrap_uint16. apply Z.mod_pos_bound. lia. Qed.

Lemma rwset_keys_spec (n : nat) (data : list byte) (index : Z)
    (cKeys cKeys' : CKeys) (index' : Z) :
  rwset_keys n data index cKeys = Some (cKeys', index') →
  written_keys_listed cKeys → (0 ≤ index < 2 ^ 16)%Z →
  written_keys_listed cKeys' ∧ ck_Addr cKeys' = ck_Addr cKeys ∧
  length (ck_Keys cKeys') = length (ck_Keys cKeys) + n ∧
  (0 ≤ index' < 2 ^ 16)%Z.
Proof.
  revert index cKeys. induction n as [|n IH]; intros index cKeys;
    cbn [rwset_keys].
  - intros [= <- <-]. auto with lia.
  - destruct (slice data _ _) as [word|]; simpl; [|done].
    destruct (data !! _) as [flag|]; simpl; [|done].
    intros Hrun Hwf Hidx.
    apply IH in Hrun as (Hwf' & Ha & Hlen & Hidx').
    + split; [done|]. split; [by destruct (bool_decide _)|].
      split; [|done]. rewrite Hlen.
      destruct (bool_decide _); simpl; rewrite length_app; simpl; lia.
    + unfold written_keys_listed in *.
      destruct (bool_decide _); simpl; intros k.
      * intros [Hk| ->%list_elem_of_singleton]%elem_of_app;
          apply elem_of_app; [auto|right; by apply list_elem_of_singleton].
      * intros Hk. apply elem_of_app. auto.
    + apply wrap_uint16_range.
Qed.

Lemma rwset_contracts_spec (n : nat) (data : list byte) (index : Z)
    (allKeys allKeys' : list CKeys) (index' : Z) :
  rwset_contracts n data index allKeys = Some (allKeys', index') →
  Forall written_keys_listed allKeys → (0 ≤ index < 2 ^ 16)%Z →
  Forall written_keys_listed allKeys' ∧
  length allKeys' = length allKeys + n ∧ (0 ≤ index' < 2 ^ 16)%Z.
Proof.
  revert index allKeys. induction n as [|n IH]; intros index allKeys;
    cbn [rwset_contracts].
  - intros [= <- <-]. auto with lia.
  - destruct (slice data (Z.to_nat index) _) as [addr|]; simpl; [|done].
    destruct (slice data (Z.to_nat (wrap_uint16 (index + 20))) _)
      as [numKeys|]; simpl; [|done].
    destruct (rwset_keys _ _ _ _) as [[cKeys idx]|] eqn:Hkeys; simpl; [|done].
    apply rwset_keys_spec in Hkeys as (Hwf & _ & _ & Hidx);
      [| by intros k ?%elem_of_nil | apply wrap_uint16_range].
    intros Hrun Hall _.
    apply IH in Hrun as (Hall' & Hlen & Hidx'); [| |done].
    + split; [done|]. split; [|done]. rewrite Hlen, length_app. simpl. lia.
    + apply Forall_app. split; [done|]. by apply Forall_singleton.
Qed.

Lemma rwset_shards_spec (n : nat) (data : list byte) (index : Z)
    (allKeys : list CKeys) (shards shards' : list Z)
    (allContracts allContracts' : gmap Z (list CKeys)) (index' : Z) :
  rwset_shards n data index allKeys shards allContracts
    = Some (allContracts', shards', index') →
  Forall written_keys_listed allKeys →
  map_Forall (λ _ contracts, Forall written_keys_listed contracts)
             allContracts →
  (∀ shard, is_Some (allContracts !! shard) ↔ shard ∈ shards) →
  Forall (λ shard, 0 ≤ shard < 2 ^ 16)%Z shards →
  (0 ≤ index < 2 ^ 16)%Z →
  map_Forall (λ _ contracts, Forall written_keys_listed contracts)
             allContracts' ∧
  (∀ shard, is_Some (allContracts' !! shard) ↔ shard ∈ shards') ∧
  Forall (λ shard, 0 ≤ shard < 2 ^ 16)%Z shards' ∧
  length shards' = length shards + n ∧ (0 ≤ index' < 2 ^ 16)%Z.
Proof.
  revert index allKeys shards allContracts.
  induction n as [|n IH]; intros index allKeys shards allContracts;
    cbn [rwset_shards].
  - intros [= <- <- <-]. auto 10 with lia.
  - destruct (slice data (Z.to_nat index) _) as [sword|] eqn:Hs; simpl;
      [|done].
    destruct (slice data (Z.to_nat (wrap_uint16 (index + 2))) _)
      as [nword|]; simpl; [|done].
    intros Hrun Hkeys Hmap Hdom Hrange Hidx.
    assert (Hshard : (0 ≤ be_uint sword < 2 ^ 16)%Z).
    { pose proof (be_uint_bounds sword) as Hb.
      assert (Hfit : is_Some (slice data (Z.to_nat index)
                                (Z.to_nat (wrap_uint16 (index + 2)))))
        by (rewrite Hs; eauto).
      apply slice_is_Some in Hfit as [Hlo Hhi].
      rewrite slice_Some in Hs by done.
      injection Hs as <-. rewrite length_take, length_drop in Hb.
      pose proof (wrap_uint16_range (index + 2)).
      assert (wrap_uint16 (index + 2) ≤ index + 2)%Z.
      { unfold wrap_uint16. apply Z.mod_le; lia. }
      assert (Z.of_nat (length (take (Z.to_nat (wrap_uint16 (index + 2))
                                        - Z.to_nat index)
                                     (drop (Z.to_nat index) data))) ≤ 2)%Z
        as Hle by (rewrite length_take; lia).
      rewrite length_take, length_drop in Hle.
      split; [lia|]. eapply Z.lt_le_trans; [apply Hb|].
      change (2 ^ 16)%Z with (256 ^ 2)%Z.
      apply Z.pow_le_mono_r; lia. }
    set (shard := be_uint sword) in *.
    set (idx2 := wrap_uint16 (wrap_uint16 (index + 2) + 2)) in *.
    destruct (if bool_decide (0 < be_uint nword)%Z
              then GetRWSet (be_uint nword) idx2 data
              else Some (allKeys, idx2)) as [[aks idx3]|] eqn:Hget;
      simpl in Hrun; [|done].
    assert (Hinner : Forall written_keys_listed aks ∧ (0 ≤ idx3 < 2 ^ 16)%Z).
    { case_bool_decide.
      - unfold GetRWSet in Hget.
        apply rwset_contracts_spec in Hget as (? & _ & ?);
          [done|constructor|apply wrap_uint16_range].
      - injection Hget as <- <-. split; [done|apply wrap_uint16_range]. }
    destruct Hinner as [Haks Hidx3].
    apply IH in Hrun as (Hmap' & Hdom' & Hrange' & Hlen & Hidx'); try done.
    + split; [done|]. split; [done|]. split; [done|].
      split; [|done]. rewrite Hlen, length_app. simpl. lia.
    + by apply map_Forall_insert_2.
    + intros s. rewrite elem_of_app, list_elem_of_singleton, <- Hdom.
      destruct (decide (shard = s)) as [->|Hne].
      * rewrite lookup_insert_eq. split; eauto.
      * rewrite lookup_insert_ne by done. split; [auto|].
        intros [?|?]; [done|congruence].
    + apply Forall_app. split; [done|]. by apply Forall_singleton.
Qed.

End ReadWriteSets.

(** X12.  What [GetAllRWSet] hands to the lock manager.  When it
    returns, it has read as many shards as asked, each a 16-bit number;
    the map holds an entry exactly for the shards read; in every
    contract of every entry the written keys are among the keys, so a
    written key is also counted as read by the lock tables; and the
    index behind the sets is a 16-bit number. *)
Theorem rwset_well_formed `{Common} (numShard : Z) (data : list byte)
    (allContracts : gmap Z (list CKeys)) (shards : list Z) (index : Z) :
  GetAllRWSet numShard data = Some (allContracts, shards, index) →
  length shards = Z.to_nat numShard ∧
  (∀ shard, is_Some (allContracts !! shard) ↔ shard ∈ shards) ∧
  (∀ shard, shard ∈ shards → (0 ≤ shard < 2 ^ 16)%Z) ∧
  (∀ shard contracts cKeys,
      allContracts !! shard = Some contracts → cKeys ∈ contracts →
      written_keys_listed cKeys) ∧
  (0 ≤ index < 2 ^ 16)%Z.
Proof.
  unfold GetAllRWSet. intros Hrun.
  apply rwset_shards_spec in Hrun as (Hmap & Hdom & Hrange & Hlen & Hidx).
  - split; [done|]. split; [done|].
    split; [by apply Forall_forall|]. split; [|done].
    intros shard contracts cKeys Hs Hc.
    specialize (Hmap shard contracts Hs). simpl in Hmap.
    rewrite Forall_forall in Hmap. auto.
  - constructor.
  - apply map_Forall_empty.
  - intros shard. rewrite lookup_empty. split; [by intros [? ?]|].
    by intros ?%elem_of_nil.
  - constructor.
  - lia.
Qed.

Lemma rwset_well_formed_witness :
  let allContracts : gmap Z (list CKeys) :=
    {[ 2%Z := [{| ck_Addr := 10%N; ck_Keys := [1%N]; ck_WKeys := [1%N] |}] ]} in
  length [2%Z] = Z.to_nat 1 ∧
  (∀ shard, is_Some (allContracts !! shard) ↔ shard ∈ [2%Z]) ∧
  (∀ shard, shard ∈ [2%Z] → (0 ≤ shard < 2 ^ 16)%Z) ∧
  (∀ shard contracts cKeys,
      allContracts !! shard = Some contracts → cKeys ∈ contracts →
      written_keys_listed cKeys) ∧
  (0 ≤ 59 < 2 ^ 16)%Z.
Proof.
  intros allContracts.
  apply (rwset_well_formed (H := be_common) 1 (encode_rwset ex_T1)
           allContracts [2%Z] 59).
  vm_compute. reflexivity.
Defined.

(** ** Deliveries to the foreign-data cache *)

Section Deliveries.

Implicit Types (dc : DataCache) (v : KeyVal).

Lemma fill_data_is_Some (keys data : list Hash) (acc : gmap Hash Hash) :
  is_Some (fill_data keys data acc) ↔ length data ≤ length keys.
Proof.
  revert keys acc. induction data as [|val data IH]; intros keys acc.
  - destruct keys; simpl; (split; [intros _; lia|intros _; by eexists]).
  - destruct keys as [|key keys]; simpl.
    + split; [by intros [? ?]|lia].
    + rewrite IH. lia.
Qed.

Lemma add_values_is_Some (keyval : gmap Address CKeys) (vals : list KeyVal)
    (values : gmap Address CData) :
  is_Some (add_values keyval vals values) ↔
  Forall (λ v, ∃ ck, keyval !! kv_Addr v = Some ck ∧
                     length (kv_Data v) ≤ length (ck_Keys ck)) vals.
Proof.
  revert values. induction vals as [|v vals IH]; intros values; simpl.
  - split; [constructor|intros _; by eexists].
  - rewrite Forall_cons. destruct (keyval !! kv_Addr v) as [ck|]; simpl.
    + pose proof (fill_data_is_Some (ck_Keys ck) (kv_Data v) ∅) as Hfill.
      destruct (fill_data _ _ _) as [d|]; simpl.
      * rewrite IH. split; [|tauto]. intros Hrest. split; [|done].
        exists ck. split; [done|]. apply Hfill. eauto.
      * split; [by intros [? ?]|]. intros [(ck' & [= <-] & Hlen) _].
        apply Hfill in Hlen. by destruct Hlen.
    + split; [by intros [? ?]|]. by intros [(ck' & ? & _) _].
Qed.

(** Keys outside the part that receives a value keep their entry; with
    no key repeated in that part, the value at a position lands under
    the key at that position. *)
Lemma fill_data_lookup (keys data : list Hash) (acc m : gmap Hash Hash) :
  fill_data keys data acc = Some m →
  (∀ key, key ∉ take (length data) keys → m !! key = acc !! key) ∧
  (NoDup (take (length data) keys) →
   ∀ i key val, keys !! i = Some key → data !! i = Some val →
                m !! key = Some val).
Proof.
  revert keys acc. induction data as [|val0 data IH]; intros keys acc.
  - destruct keys; simpl; intros [= <-]; (split; [done|]);
      intros _ i key val _; by rewrite lookup_nil.
  - destruct keys as [|key0 keys]; [done|]. simpl. intros Hrun.
    destruct (IH _ _ Hrun) as [Hout Hin]. split.
    + intros key [Hne Hnin]%not_elem_of_cons.
      rewrite Hout by done. by rewrite lookup_insert_ne.
    + intros [Hfresh Hnd]%NoDup_cons [|i] key val; simpl.
      * intros [= <-] [= <-]. rewrite Hout by done.
        by rewrite lookup_insert_eq.
      * by apply Hin.
Qed.

Lemma add_values_lookup (keyval : gmap Address CKeys) (vals : list KeyVal)
    (values values' : gmap Address CData) :
  add_values keyval vals values = Some values' →
  (∀ a, a ∉ kv_Addr <$> vals → values' !! a = values !! a) ∧
  (NoDup (kv_Addr <$> vals) →
   ∀ v, v ∈ vals →
     ∃ ck d, keyval !! kv_Addr v = Some ck ∧
             fill_data (ck_Keys ck) (kv_Data v) ∅ = Some d ∧
             values' !! kv_Addr v
             = Some {| cd_Addr := kv_Addr v; cd_Balance := kv_Balance v;
                       cd_Nonce := kv_Nonce v; cd_Data := d |}).
Proof.
  revert values. induction vals as [|v0 vals IH]; intros values; simpl.
  - intros [= <-]. split; [done|]. by intros _ v ?%elem_of_nil.
  - destruct (keyval !! kv_Addr v0) as [ck|] eqn:Hck; simpl; [|done].
    destruct (fill_data _ _ _) as [d|] eqn:Hfill; simpl; [|done].
    intros Hrun. destruct (IH _ Hrun) as [Hout Hin]. split.
    + intros a [Hne Hnin]%not_elem_of_cons.
      rewrite Hout by done. by rewrite lookup_insert_ne.
    + intros [Hfresh Hnd]%NoDup_cons v [->|Hv]%elem_of_cons.
      * exists ck, d. split; [done|]. split; [done|].
        rewrite Hout by done. by rewrite lookup_insert_eq.
      * by apply Hin.
Qed.

End Deliveries.

(** X13.  [AddData] counts a shard once.  After a delivery of at least
    one contract the shard is marked as received, and whatever arrives
    for it afterwards -- even values of contracts the cache has never
    heard of -- changes nothing and cannot panic.  A delivery without
    contracts changes nothing either, and leaves the shard open. *)
Theorem add_data_counts_a_shard_once (dc dc' : DataCache) (shard : Z)
    (vals : list KeyVal) :
  AddData dc shard vals = Some dc' → vals ≠ [] →
  ShardStatus dc' !! shard = Some true ∧
  (∀ vals', AddData dc' shard vals' = Some dc') ∧
  AddData dc shard [] = Some dc.
Proof.
  intros Hrun Hvals.
  assert (Hempty : AddData dc shard [] = Some dc).
  { unfold AddData. by rewrite andb_false_r. }
  assert (Hdone : ShardStatus dc' !! shard = Some true).
  { revert Hrun. unfold AddData.
    destruct (ShardStatus dc !! shard) as [[|]|] eqn:Hs; simpl.
    - by intros [= <-].
    - rewrite bool_decide_eq_true_2 by (destruct vals; [done|simpl; lia]).
      destruct (add_values _ _ _); simpl; [|done].
      intros [= <-]. simpl. by rewrite lookup_insert_eq.
    - rewrite bool_decide_eq_true_2 by (destruct vals; [done|simpl; lia]).
      destruct (add_values _ _ _); simpl; [|done].
      intros [= <-]. simpl. by rewrite lookup_insert_eq. }
  split; [done|]. split; [|done].
  intros vals'. unfold AddData. by rewrite Hdone.
Qed.

Lemma add_data_counts_a_shard_once_witness :
  ShardStatus ex_filled_cache !! 2%Z = Some true ∧
  (∀ vals', AddData ex_filled_cache 2 vals' = Some ex_filled_cache) ∧
  AddData ex_keyed_cache 2 [] = Some ex_keyed_cache.
Proof.
  apply (add_data_counts_a_shard_once ex_keyed_cache ex_filled_cache 2
           ex_vals).
  - vm_compute. reflexivity.
  - discriminate.
Defined.

(** X14.  When [AddData] panics.  It returns exactly when the shard has
    already delivered, or every contract of the delivery was registered
    by [InitKeys] with at least as many keys as the delivery brings
    values for it. *)
Theorem add_data_returns_iff (dc : DataCache) (shard : Z)
    (vals : list KeyVal) :
  is_Some (AddData dc shard vals) ↔
  default false (ShardStatus dc !! shard) = true ∨
  Forall (registered dc) vals.
Proof.
  unfold AddData.
  destruct (default false (ShardStatus dc !! shard)) eqn:Hs; simpl.
  { split; eauto. }
  case_bool_decide as Hlen.
  - pose proof (add_values_is_Some (Keyval dc) vals (Values dc)) as Hadd.
    destruct (add_values _ _ _) as [values|]; simpl.
    + split; [|eauto]. intros _. right. apply Hadd. eauto.
    + split; [by intros [? ?]|]. intros [?|Hall]; [done|].
      apply Hadd in Hall. by destruct Hall.
  - split; [|eauto]. intros _. right.
    destruct vals; [constructor|simpl in Hlen; lia].
Qed.

(** X15.  What a delivery leaves in the cache.  After the first delivery
    of a shard, with every contract delivered once, the cache holds for
    each delivered contract its balance and nonce and, when the
    registered keys that receive a value are distinct, every value under
    the key registered at its position; and from then on [CanTransfer]
    decides for such a contract of another shard by the delivered
    balance, whatever the local database holds. *)
Theorem delivered_values_are_served (dc dc' : DataCache) (shard : Z)
    (vals : list KeyVal) (v : KeyVal) :
  AddData dc shard vals = Some dc' →
  default false (ShardStatus dc !! shard) = false →
  NoDup (kv_Addr <$> vals) → v ∈ vals →
  ∃ ck cd,
    Keyval dc !! kv_Addr v = Some ck ∧
    Values dc' !! kv_Addr v = Some cd ∧
    cd_Balance cd = kv_Balance v ∧ cd_Nonce cd = kv_Nonce v ∧
    (NoDup (take (length (kv_Data v)) (ck_Keys ck)) →
     ∀ i key val, ck_Keys ck !! i = Some key → kv_Data v !! i = Some val →
                  cd_Data cd !! key = Some val) ∧
    (∀ (DB : Type) (HDB : core.StateDB DB) (bshard : Z) (db : DB)
       (amount s : Z),
        AddrToShard dc !! kv_Addr v = Some s → s ≠ bshard →
        core.CanTransfer (Some dc') bshard db (kv_Addr v) amount
        = Some (bool_decide (amount ≤ kv_Balance v)%Z)).
Proof.
  unfold AddData. intros Hrun Hopen Hnd Hv. rewrite Hopen in Hrun.
  rewrite bool_decide_eq_true_2 in Hrun
    by (destruct vals; [by apply elem_of_nil in Hv|simpl; lia]).
  simpl in Hrun.
  destruct (add_values _ _ _) as [values|] eqn:Hadd; simpl in Hrun; [|done].
  injection Hrun as <-.
  destruct (add_values_lookup _ _ _ _ Hadd) as [_ Hin].
  destruct (Hin Hnd v Hv) as (ck & d & Hck & Hfill & Hval).
  exists ck, {| cd_Addr := kv_Addr v; cd_Balance := kv_Balance v;
                cd_Nonce := kv_Nonce v; cd_Data := d |}.
  split; [done|]. split; [done|]. split; [done|]. split; [done|].
  split.
  - simpl. intros Hkeys. by apply (fill_data_lookup _ _ _ _ Hfill).
  - intros DB HDB bshard db amount s Hs Hne. unfold core.CanTransfer.
    simpl. rewrite Hs, (bool_decide_eq_true_2 (s ≠ bshard)) by done.
    by rewrite Hval.
Qed.

Lemma delivered_values_are_served_witness :
  let v := {| kv_Addr := 20%N; kv_Balance := 500; kv_Nonce := 1;
              kv_Data := [9%N] |} in
  ∃ ck cd,
    Keyval ex_keyed_cache !! kv_Addr v = Some ck ∧
    Values ex_filled_cache !! kv_Addr v = Some cd ∧
    cd_Balance cd = kv_Balance v ∧ cd_Nonce cd = kv_Nonce v ∧
    (NoDup (take (length (kv_Data v)) (ck_Keys ck)) →
     ∀ i key val, ck_Keys ck !! i = Some key → kv_Data v !! i = Some val →
                  cd_Data cd !! key = Some val) ∧
    (∀ (DB : Type) (HDB : core.StateDB DB) (bshard : Z) (db : DB)
       (amount s : Z),
        AddrToShard ex_keyed_cache !! kv_Addr v = Some s → s ≠ bshard →
        core.CanTransfer (Some ex_filled_cache) bshard db (kv_Addr v) amount
        = Some (bool_decide (amount ≤ kv_Balance v)%Z)).
Proof.
  intros v.
  apply (delivered_values_are_served ex_keyed_cache ex_filled_cache 2
           ex_vals v).
  - vm_compute. reflexivity.
  - vm_compute. reflexivity.
  - apply NoDup_singleton.
  - apply list_elem_of_singleton. reflexivity.
Defined.

(** ** Registration in the foreign-data cache *)

Section Registration.

Implicit Types (dc : DataCache).

(** A loop that may panic does not, when every step from a state with
    [P] returns a state with [P]; what a step achieves for its element
    ([Q]) is still there at the end when the later steps only extend the
    state ([R]). *)
Lemma foldl_option_progress {A B : Type} (P : A → Prop) (R : A → A → Prop)
    (Q : B → A → Prop) (f : A → B → option A) (l : list B) (a : A) :
  (∀ x, R x x) → (∀ x y z, R x y → R y z → R x z) →
  (∀ b x y, Q b x → R x y → Q b y) →
  (∀ x b, b ∈ l → P x → ∃ x', f x b = Some x' ∧ P x' ∧ R x x' ∧ Q b x') →
  P a →
  ∃ a', foldl (λ acc b, acc ≫= λ x, f x b) (Some a) l = Some a' ∧
        P a' ∧ R a a' ∧ ∀ b, b ∈ l → Q b a'.
Proof.
  intros Hrefl Htrans Hmono. revert a.
  induction l as [|b l IH]; intros a Hstep Ha.
  - exists a. simpl. split; [done|]. split; [done|]. split; [done|].
    by intros b ?%elem_of_nil.
  - destruct (Hstep a b) as (a1 & Hf & Ha1 & HR1 & HQ1);
      [apply elem_of_cons; auto|done|].
    destruct (IH a1) as (a' & Hrun & Ha' & HR' & HQ'); [|done|].
    { intros x c Hc. apply Hstep, elem_of_cons. auto. }
    exists a'. simpl. rewrite Hf. simpl. split; [done|]. split; [done|].
    split; [eauto|].
    intros c [->|Hc]%elem_of_cons; [eauto|auto].
Qed.

Lemma cache_extends_refl dc : cache_extends dc dc.
Proof. unfold cache_extends. eauto 10. Qed.

Lemma cache_extends_trans dc1 dc2 dc3 :
  cache_extends dc1 dc2 → cache_extends dc2 dc3 → cache_extends dc1 dc3.
Proof.
  intros (Ha & Hk & Hs) (Ha' & Hk' & Hs'). split; [auto|]. split; [|auto].
  intros a ck Hck. destruct (Hk a ck Hck) as (ck1 & Hck1 & Hsub).
  destruct (Hk' a ck1 Hck1) as (ck2 & Hck2 & Hsub'). eauto 10.
Qed.

Lemma covers_extends (contract : CKeys) dc dc' :
  covers dc contract → cache_extends dc dc' → covers dc' contract.
Proof.
  intros (Ha & ck & Hck & Hsub) (Hea & Hek & _). split; [auto|].
  destruct (Hek _ _ Hck) as (ck' & Hck' & Hsub'). eauto 10.
Qed.

Lemma involved_iff (myshard : Z) (shards : list Z) :
  existsb (λ shard, bool_decide (shard = myshard)) shards = true ↔
  myshard ∈ shards.
Proof.
  rewrite existsb_exists. split.
  - intros (s & Hin%list_elem_of_In & ->%bool_decide_eq_true_1). done.
  - intros Hin. exists myshard. split; [by apply list_elem_of_In|].
    by apply bool_decide_eq_true_2.
Qed.

Lemma add_key_spec (caddr : Address) dc (key : Hash) :
  keyed dc ∧ is_Some (Keyval dc !! caddr) →
  ∃ dc', add_key caddr dc key = Some dc' ∧
         (keyed dc' ∧ is_Some (Keyval dc' !! caddr)) ∧
         cache_extends dc dc' ∧
         ∃ ck, Keyval dc' !! caddr = Some ck ∧ key ∈ ck_Keys ck.
Proof.
  intros [Hkeyed [ck Hck]]. unfold add_key. rewrite Hck. simpl.
  eexists. split; [done|]. simpl. split; [split|split].
  - intros a. simpl. rewrite (Hkeyed a).
    destruct (decide (caddr = a)) as [->|Hne].
    + rewrite lookup_insert_eq, Hck. split; eauto.
    + by rewrite lookup_insert_ne.
  - rewrite lookup_insert_eq. eauto.
  - split; [done|]. split; [|done]. simpl. intros a ck0 Hck0.
    destruct (decide (caddr = a)) as [->|Hne].
    + rewrite lookup_insert_eq. eexists. split; [done|].
      rewrite Hck in Hck0. injection Hck0 as <-. simpl.
      intros k Hk. apply elem_of_app. auto.
    + rewrite lookup_insert_ne by done. eauto.
  - rewrite lookup_insert_eq. eexists. split; [done|]. simpl.
    apply elem_of_app. right. by apply list_elem_of_singleton.
Qed.

Lemma init_contract_spec (shard : Z) dc (contract : CKeys) :
  keyed dc →
  ∃ dc', init_contract shard dc contract = Some dc' ∧ keyed dc' ∧
         cache_extends dc dc' ∧ covers dc' contract.
Proof.
  intros Hkeyed. unfold init_contract.
  set (caddr := ck_Addr contract).
  set (dc1 := match AddrToShard dc !! caddr with
              | Some _ => dc
              | None => _
              end).
  assert (H1 : (keyed dc1 ∧ is_Some (Keyval dc1 !! caddr)) ∧
               cache_extends dc dc1 ∧ is_Some (AddrToShard dc1 !! caddr)).
  { unfold dc1. destruct (AddrToShard dc !! caddr) as [s|] eqn:Hs.
    - split; [split; [done|]|].
      + apply Hkeyed. rewrite Hs. eauto.
      + split; [apply cache_extends_refl|]. rewrite Hs. eauto.
    - assert (Hfresh : Keyval dc !! caddr = None).
      { apply eq_None_not_Some. rewrite <- (Hkeyed caddr), Hs.
        by intros [? ?]. }
      split; [split|split]; simpl.
      + intros a. simpl. destruct (decide (caddr = a)) as [->|Hne].
        * rewrite !lookup_insert_eq. split; eauto.
        * rewrite !lookup_insert_ne by done. apply Hkeyed.
      + rewrite lookup_insert_eq. eauto.
      + split; [|split; [|done]]; simpl.
        * intros a Ha. simpl. destruct (decide (caddr = a)) as [->|Hne].
          -- rewrite lookup_insert_eq. eauto.
          -- by rewrite lookup_insert_ne.
        * intros a ck Hck. simpl. destruct (decide (caddr = a)) as [->|Hne].
          -- congruence.
          -- rewrite lookup_insert_ne by done. eauto.
      + rewrite lookup_insert_eq. eauto. }
  destruct H1 as (HP1 & Hext1 & Hshard1).
  destruct (foldl_option_progress
              (λ d, keyed d ∧ is_Some (Keyval d !! caddr)) cache_extends
              (λ key d, ∃ ck, Keyval d !! caddr = Some ck ∧ key ∈ ck_Keys ck)
              (add_key caddr) (ck_Keys contract) dc1)
    as (dc' & Hrun & [Hkeyed' [ck' Hck']] & Hext' & Hkeys).
  - apply cache_extends_refl.
  - apply cache_extends_trans.
  - intros key x y (ck & Hck & Hin) (_ & Hk & _).
    destruct (Hk _ _ Hck) as (ck1 & Hck1 & Hsub). eauto.
  - intros x key _. apply add_key_spec.
  - done.
  - exists dc'. split; [done|]. split; [done|].
    split; [by eapply cache_extends_trans|]. split.
    + by apply Hext'.
    + exists ck'. split; [done|]. intros k Hk.
      destruct (Hkeys k Hk) as (ck & Hck & Hin). congruence.
Qed.

Lemma init_shard_spec (myshard : Z) (cm : Commitments) dc
    (entry : Z * list CKeys) :
  keyed dc →
  ∃ dc', init_shard myshard (Some cm) dc entry = Some dc' ∧ keyed dc' ∧
         cache_extends dc dc' ∧
         (is_Some (ShardStatus dc' !! entry.1) ∧
          ∀ contract, contract ∈ entry.2 → covers dc' contract).
Proof.
  intros Hkeyed. unfold init_shard. destruct entry as [shard allKeys].
  set (reg := match ShardStatus dc !! shard with
              | Some _ => Some dc
              | None => _
              end).
  assert (H1 : ∃ dc1, reg = Some dc1 ∧ keyed dc1 ∧ cache_extends dc dc1 ∧
                      is_Some (ShardStatus dc1 !! shard)).
  { unfold reg. destruct (ShardStatus dc !! shard) as [b|] eqn:Hs.
    - exists dc. split; [done|]. split; [done|].
      split; [apply cache_extends_refl|]. rewrite Hs. eauto.
    - case_bool_decide; simpl; eexists; (split; [done|]); simpl;
        (split; [done|]);
        (split; [|rewrite lookup_insert_eq; eauto]);
        (split; [done|]); (split; [by eauto|]); simpl;
        intros s Hsome;
        (destruct (decide (shard = s)) as [->|Hne];
         [rewrite lookup_insert_eq; eauto|by rewrite lookup_insert_ne]). }
  destruct H1 as (dc1 & -> & Hkeyed1 & Hext1 & Hshard1). simpl.
  destruct (foldl_option_progress keyed cache_extends
              (λ contract d, covers d contract)
              (init_contract shard) allKeys dc1)
    as (dc' & Hrun & Hkeyed' & Hext' & Hcov).
  - apply cache_extends_refl.
  - apply cache_extends_trans.
  - intros c x y. apply covers_extends.
  - intros x c _. apply init_contract_spec.
  - done.
  - exists dc'. split; [done|]. split; [done|].
    split; [by eapply cache_extends_trans|]. simpl. split; [|done].
    by apply Hext'.
Qed.

Lemma init_tx_spec (myshard : Z) (cm : Commitments) dc (ctx : CrossTx) :
  keyed dc →
  ∃ dc', init_tx myshard (Some cm) dc ctx = Some dc' ∧ keyed dc' ∧
         cache_extends dc dc' ∧
         (myshard ∈ ctx_Shards ctx →
          ∀ entry, entry ∈ ctx_AllContracts ctx →
            is_Some (ShardStatus dc' !! entry.1) ∧
            ∀ contract, contract ∈ entry.2 → covers dc' contract).
Proof.
  intros Hkeyed. unfold init_tx.
  destruct (existsb _ _) eqn:Hinv.
  - destruct (foldl_option_progress keyed cache_extends
                (λ (entry : Z * list CKeys) d,
                   is_Some (ShardStatus d !! entry.1) ∧
                   ∀ contract, contract ∈ entry.2 → covers d contract)
                (init_shard myshard (Some cm)) (ctx_AllContracts ctx) dc)
      as (dc' & Hrun & Hkeyed' & Hext' & Hcov).
    + apply cache_extends_refl.
    + apply cache_extends_trans.
    + intros e x y [Hs Hc] Hext. split; [by apply Hext|].
      intros c Hin. eapply covers_extends; eauto.
    + intros x e _. apply init_shard_spec.
    + done.
    + exists dc'. auto.
  - exists dc. split; [done|]. split; [done|].
    split; [apply cache_extends_refl|].
    intros Hin%involved_iff. congruence.
Qed.

End Registration.

(** X16.  [InitKeys] with commitments at hand never panics on a cache
    made by [NewDataCache] and worked on by [InitKeys] and [AddData]
    alone, which keep the contracts with a shard and the contracts with
    a key list the same.  Nothing the cache knew is forgotten, and for
    every pending transaction that involves [myshard], every shard of
    its key set has a status and every contract of it is known with all
    the keys it lists -- which is what [AddData] needs to take the
    values. *)
Theorem init_keys_registers :
  (∀ bnum status, keyed (NewDataCache bnum status)) ∧
  (∀ dc shard vals dc',
      keyed dc → AddData dc shard vals = Some dc' → keyed dc') ∧
  (∀ dc (myshard : Z) (ctxs : list CrossTx) (cm : Commitments),
      keyed dc →
      ∃ dc' ready,
        InitKeys dc myshard ctxs (Some cm) = Some (dc', ready) ∧
        keyed dc' ∧ cache_extends dc dc' ∧
        ∀ ctx shard contracts,
          ctx ∈ ctxs → myshard ∈ ctx_Shards ctx →
          (shard, contracts) ∈ ctx_AllContracts ctx →
          is_Some (ShardStatus dc' !! shard) ∧
          ∀ contract, contract ∈ contracts → covers dc' contract).
Proof.
  split; [|split].
  - intros bnum status a. simpl. rewrite !lookup_empty.
    split; by intros [? ?].
  - intros dc shard vals dc' Hkeyed. unfold AddData.
    destruct (_ && _); [|by intros [= <-]].
    destruct (add_values _ _ _); simpl; [|done]. by intros [= <-].
  - intros dc myshard ctxs cm Hkeyed. unfold InitKeys.
    set (dc0 := {| dc_RefNum := dc_RefNum dc; Status := Status dc;
                   Required := 0; Received := 0; Keyval := Keyval dc;
                   AddrToShard := AddrToShard dc;
                   ShardStatus := ShardStatus dc;
                   dc_Commits := dc_Commits dc; Values := Values dc |}).
    destruct (foldl_option_progress keyed cache_extends
                (λ (ctx : CrossTx) d,
                   myshard ∈ ctx_Shards ctx →
                   ∀ entry, entry ∈ ctx_AllContracts ctx →
                     is_Some (ShardStatus d !! entry.1) ∧
                     ∀ contract, contract ∈ entry.2 → covers d contract)
                (init_tx myshard (Some cm)) ctxs dc0)
      as (dc1 & Hrun & Hkeyed1 & Hext1 & Hcov).
    + apply cache_extends_refl.
    + apply cache_extends_trans.
    + intros ctx x y Hq Hext Hin e He.
      destruct (Hq Hin e He) as [Hs Hc]. split; [by apply Hext|].
      intros c Hc'. eapply covers_extends; eauto.
    + intros x ctx _. apply init_tx_spec.
    + done.
    + rewrite Hrun. simpl.
      assert (Hfinal : ∀ ctx shard contracts,
                 ctx ∈ ctxs → myshard ∈ ctx_Shards ctx →
                 (shard, contracts) ∈ ctx_AllContracts ctx →
                 is_Some (ShardStatus dc1 !! shard) ∧
                 ∀ contract, contract ∈ contracts → covers dc1 contract).
      { intros ctx shard contracts Hctx Hin He.
        exact (Hcov ctx Hctx Hin (shard, contracts) He). }
      case_bool_decide; eexists; eexists; (split; [done|]);
        (split; [exact Hkeyed1|]); (split; [exact Hext1|]); exact Hfinal.
Qed.

Lemma init_keys_registers_witness :
  ∃ dc' ready,
    InitKeys (NewDataCache 5 false) 1 [ex_ctx] (Some ex_commits)
    = Some (dc', ready) ∧
    keyed dc' ∧ cache_extends (NewDataCache 5 false) dc' ∧
    ∀ ctx shard contracts,
      ctx ∈ [ex_ctx] → 1%Z ∈ ctx_Shards ctx →
      (shard, contracts) ∈ ctx_AllContracts ctx →
      is_Some (ShardStatus dc' !! shard) ∧
      ∀ contract, contract ∈ contracts → covers dc' contract.
Proof.
  apply (proj2 (proj2 init_keys_registers) (NewDataCache 5 false) 1%Z
           [ex_ctx] ex_commits).
  apply (proj1 init_keys_registers).
Defined.

(** ** The two sides of a transfer *)

Section TransferSides.

Context `{core.StateDB DB}.

Lemma credit_remote_spec (dc : DataCache) (dcChanges : gmap Address CData)
    (db : DB) (recipient : Address) (amount : Z) :
  ∃ ch, core.credit_remote dc dcChanges db recipient amount = Some ch ∧
        ∀ a, a ≠ recipient → ch !! a = dcChanges !! a.
Proof.
  unfold core.credit_remote.
  destruct (dcChanges !! recipient) as [cd|] eqn:Hcd.
  - rewrite Hcd. simpl. eexists. split; [done|].
    intros a Ha. by rewrite lookup_insert_ne.
  - destruct (Values dc !! recipient); rewrite lookup_insert_eq; simpl;
      (eexists; split; [done|]); intros a Ha;
      by rewrite !lookup_insert_ne.
Qed.

Lemma debit_remote_None (dc : DataCache) (dcChanges : gmap Address CData)
    (db : DB) (sender recipient : Address) (amount : Z) :
  core.debit_remote dc dcChanges db sender recipient amount = None ↔
  dcChanges !! sender = None ∧ Values dc !! sender = None ∧
  sender ≠ recipient.
Proof.
  unfold core.debit_remote.
  destruct (dcChanges !! sender) as [cd|] eqn:Hcd.
  - rewrite Hcd. simpl. split; [done|]. by intros [? _].
  - destruct (Values dc !! sender) as [vals|].
    + rewrite lookup_insert_eq. simpl. split; [done|]. by intros (_ & ? & _).
    + destruct (decide (sender = recipient)) as [->|Hne].
      * rewrite lookup_insert_eq. simpl. split; [done|]. by intros (_ & _ & ?).
      * rewrite lookup_insert_ne, Hcd by done. simpl. done.
Qed.

End TransferSides.

(** X17.  When [Transfer] panics.  With a cache it panics exactly when
    the sender counts as remote -- the shard recorded for it, 0 when
    none is, differs from the shard of the block --, has no entry in the
    changes and no cached values, and is not the recipient; in that case
    the recipient is entered in the changes in the sender's place.  The
    credit side never panics, and without a cache nothing does. *)
Theorem transfer_panics_iff `{core.StateDB DB} (bshard : Z)
    (dc : option DataCache) (dcChanges : gmap Address CData) (db : DB)
    (sender recipient : Address) (amount : Z) :
  core.Transfer bshard dc dcChanges db sender recipient amount = None ↔
  ∃ d, dc = Some d ∧
       default 0%Z (AddrToShard d !! sender) ≠ bshard ∧
       dcChanges !! sender = None ∧ Values d !! sender = None ∧
       sender ≠ recipient.
Proof.
  unfold core.Transfer.
  destruct dc as [d|]; [|split; [done|by intros (d & ? & _)]].
  pose proof (debit_remote_None d dcChanges db sender recipient amount)
    as Hdebit.
  assert (Hcredit : ∀ (ch : gmap Address CData) (db0 : DB),
             (if bool_decide (default 0%Z (AddrToShard d !! recipient)
                              ≠ bshard)
              then core.credit_remote d ch db0 recipient amount
                   ≫= λ ch', Some (ch', db0)
              else Some (ch, core.AddBalance db0 recipient amount))
             ≠ None).
  { intros ch db0. case_bool_decide; [|done].
    destruct (credit_remote_spec d ch db0 recipient amount)
      as (ch' & -> & _). done. }
  destruct (decide (default 0%Z (AddrToShard d !! sender) ≠ bshard))
    as [Hs|Hs].
  - rewrite (bool_decide_eq_true_2 _ Hs).
    destruct (core.debit_remote d dcChanges db sender recipient amount)
      as [ch|]; simpl.
    + split; [intros Habs; by apply Hcredit in Habs|].
      intros (d' & [= <-] & _ & Hrest). apply Hdebit in Hrest. done.
    + split; [|done]. intros _. exists d.
      split; [done|]. split; [done|]. by apply Hdebit.
  - rewrite (bool_decide_eq_false_2 _ Hs). simpl.
    split; [intros Habs; by apply Hcredit in Habs|].
    intros (d' & [= <-] & Hremote & _). done.
Qed.

(** X18.  The debit of a remote sender and the check before it.  When
    [CanTransfer] has approved the amount for a sender of another shard
    and the changes hold no entry for it yet, [Transfer] returns and the
    entry it leaves for the sender is the cached balance less the
    amount.  When the changes already hold an entry whose balance is
    below the amount -- [CanTransfer] looks at the cached values, not at
    the changes, so it may still approve --, the balance wraps around
    the top of [uint64]. *)
Theorem remote_debit_after_check `{core.StateDB DB} (bshard : Z)
    (dc : DataCache) (dcChanges : gmap Address CData) (db : DB)
    (sender recipient : Address) (amount s : Z) (vals : CData) :
  AddrToShard dc !! sender = Some s → s ≠ bshard →
  Values dc !! sender = Some vals → (0 ≤ cd_Balance vals < 2 ^ 64)%Z →
  (0 ≤ amount)%Z → sender ≠ recipient →
  core.CanTransfer (Some dc) bshard db sender amount = Some true →
  ∃ ch db',
    core.Transfer bshard (Some dc) dcChanges db sender recipient amount
    = Some (ch, db') ∧
    (dcChanges !! sender = None →
     cd_Balance <$> ch !! sender = Some (cd_Balance vals - amount)%Z) ∧
    (∀ cd, dcChanges !! sender = Some cd →
           (0 ≤ cd_Balance cd < amount)%Z →
           cd_Balance <$> ch !! sender
           = Some (cd_Balance cd - amount + 2 ^ 64)%Z).
Proof.
  intros Hs Hremote Hvals Hbal Hamt Hne Hcan.
  assert (Hle : (amount ≤ cd_Balance vals)%Z).
  { revert Hcan. unfold core.CanTransfer.
    rewrite Hs, (bool_decide_eq_true_2 (s ≠ bshard)), Hvals by done. simpl.
    intros [= Hle%bool_decide_eq_true_1]. done. }
  assert (Hu : core.big_Uint64 amount = amount).
  { unfold core.big_Uint64, wrap_uint64.
    rewrite Z.abs_eq, Z.mod_small by lia. done. }
  unfold core.Transfer. rewrite Hs.
  change (default 0%Z (Some s)) with s.
  rewrite (bool_decide_eq_true_2 (s ≠ bshard)) by done.
  assert (Hdebit : ∃ ch1,
             core.debit_remote dc dcChanges db sender recipient amount
             = Some ch1 ∧
             (dcChanges !! sender = None →
              cd_Balance <$> ch1 !! sender
              = Some (cd_Balance vals - amount)%Z) ∧
             (∀ cd, dcChanges !! sender = Some cd →
                    (0 ≤ cd_Balance cd < amount)%Z →
                    cd_Balance <$> ch1 !! sender
                    = Some (cd_Balance cd - amount + 2 ^ 64)%Z)).
  { unfold core.debit_remote. rewrite Hu.
    destruct (dcChanges !! sender) as [cd|] eqn:Hcd.
    - rewrite Hcd. simpl. eexists. split; [done|].
      split; [done|]. intros cd' [= <-] Hlow.
      rewrite lookup_insert_eq. simpl. f_equal. unfold wrap_uint64.
      symmetry. apply (Z.mod_unique _ _ (-1)); [left|]; lia.
    - rewrite Hvals, lookup_insert_eq. simpl. eexists. split; [done|].
      split; [|done]. intros _.
      rewrite lookup_insert_eq. simpl. f_equal. unfold wrap_uint64.
      apply Z.mod_small. lia. }
  destruct Hdebit as (ch1 & -> & Hfresh & Hheld). simpl.
  case_bool_decide.
  - destruct (credit_remote_spec dc ch1 db recipient amount)
      as (ch & -> & Hframe). simpl.
    exists ch, db. split; [done|]. rewrite (Hframe sender) by done. auto.
  - eexists _, _. split; [done|]. auto.
Qed.

Lemma remote_debit_after_check_witness :
  ∃ ch db',
    core.Transfer 1 (Some ex_filled_cache) ∅ ex_db 20%N 10%N 400
    = Some (ch, db') ∧
    ((∅ : gmap Address CData) !! 20%N = None →
     cd_Balance <$> ch !! 20%N = Some (500 - 400)%Z) ∧
    (∀ cd, (∅ : gmap Address CData) !! 20%N = Some cd →
           (0 ≤ cd_Balance cd < 400)%Z →
           cd_Balance <$> ch !! 20%N
           = Some (cd_Balance cd - 400 + 2 ^ 64)%Z).
Proof.
  apply (remote_debit_after_check 1 ex_filled_cache ∅ ex_db 20%N 10%N 400 2
           {| cd_Addr := 20%N; cd_Balance := 500; cd_Nonce := 1;
              cd_Data := {[ 2%N := 9%N ]} |}).
  - vm_compute. reflexivity.
  - discriminate.
  - vm_compute. reflexivity.
  - vm_compute. split; [discriminate|reflexivity].
  - discriminate.
  - discriminate.
  - vm_compute. reflexivity.
Defined.

(** ** The loop of [Process] *)

Section ProcessorLoop.

Context `{Common}.
Variables (St Err : Type).
Variable Prepare : St → Hash → Hash → Z → St.
Variable Snapshot : St → Z * St.
Variable RevertToSnapshot : St → Z → St.
Variable ApplyTransaction :
  core.BlockChain → Z → option DataCache → St → St → Transaction → Z →
  core.applied St Err.

Abbreviation loop_txs :=
  (core.process_txs St Err Prepare Snapshot RevertToSnapshot ApplyTransaction).
Abbreviation loop_tx :=
  (core.process_tx St Err Prepare Snapshot RevertToSnapshot ApplyTransaction).

(** The search stops at the first height from [curr] on that holds the
    transaction, or just behind [end_]. *)
Lemma seek_dc_spec (bc : core.BlockChain) (thash : Hash)
    (dc : option DataCache) (end_ : Z) (fuel : nat) (curr : Z) :
  (0 ≤ curr)%Z → (end_ < 2 ^ 64 - 1)%Z →
  (Z.to_nat (end_ - curr + 1) ≤ fuel)%nat →
  ∃ dc' c,
    core.seek_dc fuel bc thash dc curr end_ = Some (dc', c) ∧
    (curr ≤ c)%Z ∧
    (∀ j, (curr ≤ j < c)%Z → core.pending_at bc j thash = false) ∧
    (((c ≤ end_)%Z ∧ core.pending_at bc c thash = true ∧
      dc' = core.foreignData bc !! c) ∨
     ((end_ < c)%Z ∧ dc' = dc)).
Proof.
  revert curr. induction fuel as [|fuel IH]; intros curr Hcurr Hend Hfuel;
    cbn [core.seek_dc]; case_bool_decide as Hle.
  - lia.
  - exists dc, curr. split; [done|]. split; [lia|].
    split; [intros j; lia|]. right. split; [lia|done].
  - destruct (core.pending_at bc curr thash) eqn:Hhere.
    + exists (core.foreignData bc !! curr), curr. split; [done|].
      split; [lia|]. split; [intros j; lia|]. left. auto.
    + rewrite wrap_uint64_small by lia.
      destruct (IH (curr + 1)%Z) as (dc' & c & Hrun & Hc & Hbefore & Hat);
        [lia|lia|lia|].
      exists dc', c. split; [done|]. split; [lia|]. split; [|done].
      intros j Hj. destruct (decide (j = curr)) as [->|Hne]; [done|].
      apply Hbefore. lia.
  - exists dc, curr. split; [done|]. split; [lia|].
    split; [intros j; lia|]. right. split; [lia|done].
Qed.

(** Every transaction adds at most one receipt, and a private receipt
    only together with a public one. *)
Lemma process_txs_counts bc block end_ (txs : list Transaction) i
    (st st' : core.proc St) :
  loop_txs bc block end_ i txs st = Some (inr st') →
  length (core.p_receipts st) ≤ length (core.p_receipts st') ∧
  length (core.p_receipts st')
  ≤ length (core.p_receipts st) + length txs ∧
  length (core.p_privateReceipts st') + length (core.p_receipts st)
  ≤ length (core.p_privateReceipts st) + length (core.p_receipts st').
Proof.
  revert i st. induction txs as [|tx txs IH]; intros i st; simpl.
  - intros [= <-]. lia.
  - destruct (loop_tx bc block end_ i tx st) as [[err|st1]|] eqn:Htx;
      [done| |done].
    intros Hrest. apply IH in Hrest.
    assert (Hone : length (core.p_receipts st)
                   ≤ length (core.p_receipts st1) ∧
                   length (core.p_receipts st1)
                   ≤ length (core.p_receipts st) + 1 ∧
                   length (core.p_privateReceipts st1)
                   + length (core.p_receipts st)
                   ≤ length (core.p_privateReceipts st)
                     + length (core.p_receipts st1)).
    { revert Htx. unfold core.process_tx.
      destruct (core.apply_at _ _ _ _ _ _ _ _ _ _) as [a|]; simpl; [|done].
      destruct (core.ap_result (core.at_applied a)) as [err|[rc [pr|]]].
      - case_bool_decide; [|done]. intros [= <-]. simpl. lia.
      - intros [= <-]. simpl. rewrite !length_app. simpl. lia.
      - intros [= <-]. simpl. rewrite !length_app. simpl. lia. }
    lia.
Qed.

Lemma post_txs_receipts (bc bc' : core.BlockChain) (i : nat)
    (txs : list Transaction) (receipts : list core.Receipt) :
  core.post_txs bc i txs receipts = Some bc' →
  txs ≠ [] → i + length txs ≤ length receipts.
Proof.
  revert bc i. induction txs as [|tx txs IH]; intros bc i; [done|].
  simpl. destruct (receipts !! i) as [rc|] eqn:Hrc; simpl; [|done].
  apply lookup_lt_Some in Hrc.
  destruct (core.post_tx bc tx rc) as [bc1|]; simpl; [|done].
  intros Hrest _. destruct txs as [|tx' txs]; [simpl; lia|].
  apply IH in Hrest; [|done]. simpl in *. lia.
Qed.

End ProcessorLoop.

(** X19.  The cache a transaction runs with.  A transaction that is not
    [CrossShardLocal] runs without a cache and leaves the search
    position alone.  For a [CrossShardLocal] one the search moves to the
    first reference height from the current position up to [end_] whose
    pending transactions hold its hash, and hands over the cache of that
    height; when there is none, the position ends behind [end_] -- so
    every later search of the block comes back empty-handed too -- and
    the transaction runs with whatever cache the last search left. *)
Theorem cross_local_cache_lookup (St Err : Type)
    (Prepare : St → Hash → Hash → Z → St) (Snapshot : St → Z * St)
    (ApplyTransaction :
       core.BlockChain → Z → option DataCache → St → St → Transaction → Z →
       core.applied St Err)
    (bc : core.BlockChain) (block : core.Block) (end_ : Z) (i : nat)
    (tx : Transaction) (st : core.proc St) :
  (0 ≤ core.p_curr st)%Z → (end_ < 2 ^ 64 - 1)%Z →
  ∃ a,
    core.apply_at St Err Prepare Snapshot ApplyTransaction bc block end_
      i tx st = Some a ∧
    (tx_TxType tx ≠ CrossShardLocal →
     core.at_dc a = None ∧ core.at_curr a = core.p_curr st) ∧
    (tx_TxType tx = CrossShardLocal →
     (core.p_curr st ≤ core.at_curr a)%Z ∧
     (∀ j, (core.p_curr st ≤ j < core.at_curr a)%Z →
           core.pending_at bc j (tx_Hash tx) = false) ∧
     (((core.at_curr a ≤ end_)%Z ∧
       core.pending_at bc (core.at_curr a) (tx_Hash tx) = true ∧
       core.at_dc a = core.foreignData bc !! core.at_curr a) ∨
      ((end_ < core.at_curr a)%Z ∧ core.at_dc a = core.p_dc st))).
Proof.
  intros Hcurr Hend. unfold core.apply_at.
  destruct (Snapshot (Prepare (core.p_statedb st) _ _ _)) as [snap sdb].
  destruct (Snapshot (Prepare (core.p_privateState st) _ _ _))
    as [psnap pdb].
  case_bool_decide as Hty; simpl.
  - eexists. split; [done|]. simpl. split; [done|]. done.
  - destruct (seek_dc_spec bc (tx_Hash tx) (core.p_dc st) end_
                (Z.to_nat (end_ - core.p_curr st + 1)) (core.p_curr st))
      as (dc' & c & -> & Hc & Hbefore & Hat); [done|done|lia|].
    simpl. eexists. split; [done|]. simpl. split; [done|]. auto.
Qed.

Lemma cross_local_cache_lookup_witness :
  let st := {| core.p_statedb := 0%Z; core.p_privateState := 0%Z;
               core.p_gp := 100%Z; core.p_usedGas := 0%Z;
               core.p_receipts := []; core.p_privateReceipts := [];
               core.p_allLogs := []; core.p_dc := None;
               core.p_curr := 5%Z |} in
  let tx := toy_tx CrossShardLocal 61 in
  ∃ a,
    core.apply_at Z Z (λ st _ _ _, st) (λ st, (st, st))
      toy_apply ex_reorg_chain ex_local_head 7 0 tx st = Some a ∧
    (tx_TxType tx ≠ CrossShardLocal →
     core.at_dc a = None ∧ core.at_curr a = core.p_curr st) ∧
    (tx_TxType tx = CrossShardLocal →
     (core.p_curr st ≤ core.at_curr a)%Z ∧
     (∀ j, (core.p_curr st ≤ j < core.at_curr a)%Z →
           core.pending_at ex_reorg_chain j (tx_Hash tx) = false) ∧
     (((core.at_curr a ≤ 7)%Z ∧
       core.pending_at ex_reorg_chain (core.at_curr a) (tx_Hash tx) = true ∧
       core.at_dc a = core.foreignData ex_reorg_chain !! core.at_curr a) ∨
      ((7 < core.at_curr a)%Z ∧ core.at_dc a = core.p_dc st))).
Proof.
  intros st tx.
  apply (cross_local_cache_lookup Z Z (λ st _ _ _, st)
           (λ st, (st, st)) toy_apply ex_reorg_chain ex_local_head 7 0 tx st).
  - vm_compute. discriminate.
  - vm_compute. reflexivity.
Defined.

(** X20.  Receipts and transactions.  When [Process] returns receipts,
    there is at most one per transaction of the block and at most one
    private receipt per receipt.  On the reference shard the lock
    update reads a receipt at the position of every transaction, so
    there [Process] returns only with as many receipts as
    transactions: a block in which a [CrossShardLocal] transaction was
    skipped makes it panic. *)
Theorem process_receipts_count `{Common} (St Err : Type)
    (Prepare : St → Hash → Hash → Z → St) (Snapshot : St → Z * St)
    (RevertToSnapshot : St → Z → St) (ApplyDAOHardFork : St → St)
    (Finalize : St → list Transaction → list core.Receipt → St)
    (ApplyTransaction :
       core.BlockChain → Z → option DataCache → St → St → Transaction → Z →
       core.applied St Err)
    (bc : core.BlockChain) (daoFork : bool) (block : core.Block)
    (start end_ : Z) (statedb privateState : St) (r : core.processed St) :
  core.Process St Err Prepare Snapshot RevertToSnapshot ApplyDAOHardFork
    Finalize ApplyTransaction bc daoFork block start end_ statedb
    privateState = Some (inr r) →
  length (core.pr_receipts r) ≤ length (core.b_Transactions block) ∧
  length (core.pr_privateReceipts r) ≤ length (core.pr_receipts r) ∧
  (core.myshard bc = 0%Z →
   length (core.pr_receipts r) = length (core.b_Transactions block)).
Proof.
  unfold core.Process.
  destruct (core.process_txs _ _ _ _ _ _ _ _ _ _ _ _) as [[err|st]|] eqn:Hrun;
    simpl; [done| |done].
  apply process_txs_counts in Hrun as (_ & Hle & Hpriv). simpl in Hle, Hpriv.
  destruct (if bool_decide (core.myshard bc = 0%Z) then _ else _)
    as [bc'|] eqn:Hpost; simpl; [|done].
  intros [= <-]. simpl. split; [lia|]. split; [lia|].
  intros Href. rewrite bool_decide_eq_true_2 in Hpost by done.
  destruct (core.b_Transactions block) as [|tx txs] eqn:Htxs.
  - simpl in *. lia.
  - apply post_txs_receipts in Hpost; [|done]. simpl in *. lia.
Qed.

Lemma process_receipts_count_witness :
  let block := toy_block [toy_tx IntraShard 2; toy_tx CrossShardLocal 3;
                          toy_tx IntraShard 4] in
  ∃ r, toy_Process worker_chain false block 0 0 1000%Z 2000%Z
       = Some (inr r) ∧
       length (core.pr_receipts r) ≤ length (core.b_Transactions block) ∧
       length (core.pr_privateReceipts r) ≤ length (core.pr_receipts r) ∧
       (core.myshard worker_chain = 0%Z →
        length (core.pr_receipts r) = length (core.b_Transactions block)).
Proof.
  intros block. eexists. split; [vm_compute; reflexivity|].
  apply (process_receipts_count (H := be_common) Z Z (λ st _ _ _, st)
           (λ st, (st, st)) (λ _ rev, rev) (λ st, st) (λ st _ _, st)
           toy_apply worker_chain false block 0 0 1000%Z 2000%Z).
  vm_compute. reflexivity.
Defined.

(** ** What a reference block leaves in the chain *)

Section ReferenceBlock.

Context `{Common}.

Implicit Types (bc : core.BlockChain).

Lemma addNewLocks_frame bc (allKeys : AllKeys) :
  core.lastCommit (core.addNewLocks bc allKeys) = core.lastCommit bc ∧
  core.lastCtx (core.addNewLocks bc allKeys) = core.lastCtx bc ∧
  core.procCtxs (core.addNewLocks bc allKeys) = core.procCtxs bc.
Proof.
  unfold core.addNewLocks. by destruct (foldl _ _ allKeys).
Qed.

Lemma unlock_shard_frame bc (shard : Z) :
  core.lastCommit (core.unlock_shard bc shard) = core.lastCommit bc ∧
  core.lastCtx (core.unlock_shard bc shard) = core.lastCtx bc ∧
  core.procCtxs (core.unlock_shard bc shard) = core.procCtxs bc.
Proof.
  unfold core.unlock_shard.
  destruct (core.lockedAddrMap bc !! shard); [|done].
  by case_bool_decide.
Qed.

(** What holds before the loop and is kept by every transaction holds
    after the block. *)
Lemma ref_status_txs_invariant (P : core.BlockChain → Prop) (bNum : Z)
    (txs : list Transaction) (receipts : list core.Receipt) :
  (∀ bc tx receipt bc1,
      P bc → core.ref_status_tx bNum bc tx receipt = Some bc1 → P bc1) →
  ∀ i bc bc', P bc →
    core.ref_status_txs bNum bc i txs receipts = Some bc' → P bc'.
Proof.
  intros Hstep. induction txs as [|tx txs IH]; intros i bc bc' HP; simpl.
  - by intros [= <-].
  - destruct (receipts !! i) as [receipt|]; simpl; [|done].
    destruct (core.ref_status_tx bNum bc tx receipt) as [bc1|] eqn:Htx;
      simpl; [|done].
    apply IH. by eapply Hstep.
Qed.

Lemma commits_advance_refl bc : commits_advance bc bc.
Proof.
  intros shard. destruct (core.lastCommit bc !! shard) as [lc|]; [|done].
  exists lc. split; [done|lia].
Qed.

Lemma commits_advance_trans bc1 bc2 bc3 :
  commits_advance bc1 bc2 → commits_advance bc2 bc3 →
  commits_advance bc1 bc3.
Proof.
  intros H12 H23 shard. specialize (H12 shard). specialize (H23 shard).
  destruct (core.lastCommit bc1 !! shard) as [lc1|].
  - destruct H12 as (lc2 & Hlc2 & Hle). rewrite Hlc2 in H23.
    destruct H23 as (lc3 & Hlc3 & Hle'). exists lc3. split; [done|lia].
  - by rewrite H12 in H23.
Qed.

Lemma foldl_insert_const_Z (v : Z) (l : list Z) (m : gmap Z Z) (s : Z) :
  foldl (λ m shard, <[shard := v]> m) m l !! s = m !! s ∨
  foldl (λ m shard, <[shard := v]> m) m l !! s = Some v.
Proof.
  revert m. induction l as [|x l IH]; intros m; simpl; [auto|].
  destruct (IH (<[x := v]> m)) as [Hsame|Hset]; [|auto].
  rewrite Hsame. destruct (decide (x = s)) as [->|Hne].
  - rewrite lookup_insert_eq. auto.
  - rewrite lookup_insert_ne by done. auto.
Qed.

Lemma ref_status_tx_commits (bNum : Z) bc bc' (tx : Transaction)
    (receipt : core.Receipt) :
  core.ref_status_tx bNum bc tx receipt = Some bc' →
  commits_advance bc bc' ∧
  (∀ s, core.lastCtx bc' !! s = core.lastCtx bc !! s ∨
        core.lastCtx bc' !! s = Some bNum).
Proof.
  unfold core.ref_status_tx.
  destruct (core.tx_status _ _) as [[|]|]; simpl; [| |done].
  - case_bool_decide.
    + destruct (core.cross_keys tx) as [[shards allKeys]|]; simpl; [|done].
      intros [= <-].
      match goal with
      | |- context [core.addNewLocks ?b ?k] =>
          destruct (addNewLocks_frame b k) as (Hlc & Hctx & _)
      end.
      split.
      * intros shard. rewrite Hlc. simpl. apply commits_advance_refl.
      * intros s. rewrite Hctx. simpl. apply foldl_insert_const_Z.
    + case_bool_decide; [|intros [= <-]; split;
                           [apply commits_advance_refl|auto]].
      destruct (DecodeStateCommit tx) as [[[[shard commit] report] root]|];
        simpl; [|done].
      destruct (unlock_shard_frame bc shard) as (Hlc & Hctx & _).
      rewrite Hlc.
      destruct (core.lastCommit bc !! shard) as [lcommit|] eqn:Hlast;
        simpl; [|done].
      case_bool_decide as Hreport; intros [= <-]; simpl.
      * split; [|rewrite Hctx; auto].
        intros s. simpl. destruct (decide (shard = s)) as [->|Hne].
        -- rewrite Hlast, lookup_insert_eq. eexists. split; [done|]. done.
        -- rewrite lookup_insert_ne by done.
           apply (commits_advance_refl bc s).
      * split; [|rewrite Hctx; auto].
        intros s. rewrite Hlc. apply (commits_advance_refl bc s).
  - intros [= <-]. split; [apply commits_advance_refl|auto].
Qed.

Lemma ref_status_tx_processed (bNum : Z) bc bc' (tx : Transaction)
    (receipt : core.Receipt) :
  core.ref_status_tx bNum bc tx receipt = Some bc' →
  (∀ h, core.IsProcessed bc h = true → core.IsProcessed bc' h = true) ∧
  (tx_TxType tx = CrossShard →
   core.tx_status CrossShard receipt = Some true →
   core.IsProcessed bc' (tx_Hash tx) = true).
Proof.
  unfold core.ref_status_tx.
  destruct (core.tx_status (tx_TxType tx) receipt) as [[|]|] eqn:Hst;
    simpl; [| |done].
  - case_bool_decide as Hty.
    + destruct (core.cross_keys tx) as [[shards allKeys]|]; simpl; [|done].
      intros [= <-]. unfold core.IsProcessed.
      match goal with
      | |- context [core.addNewLocks ?b ?k] =>
          destruct (addNewLocks_frame b k) as (_ & _ & ->)
      end.
      simpl. split.
      * intros h Hh%bool_decide_eq_true_1. apply bool_decide_eq_true_2.
        destruct (decide (tx_Hash tx = h)) as [->|Hne].
        -- rewrite lookup_insert_eq. eauto.
        -- by rewrite lookup_insert_ne.
      * intros _ _. apply bool_decide_eq_true_2.
        rewrite lookup_insert_eq. eauto.
    + assert (Hkeep : ∀ b : core.BlockChain,
                 core.procCtxs b = core.procCtxs bc →
                 (∀ h, core.IsProcessed bc h = true →
                       core.IsProcessed b h = true) ∧
                 (tx_TxType tx = CrossShard →
                  core.tx_status CrossShard receipt = Some true →
                  core.IsProcessed b (tx_Hash tx) = true)).
      { intros b Hb. unfold core.IsProcessed. rewrite Hb.
        split; [done|]. by intros ?. }
      case_bool_decide; [|intros [= <-]; by apply Hkeep].
      destruct (DecodeStateCommit tx) as [[[[shard commit] report] root]|];
        simpl; [|done].
      destruct (unlock_shard_frame bc shard) as (_ & _ & Hproc).
      destruct (core.lastCommit _ !! shard); simpl; [|done].
      case_bool_decide; intros [= <-]; by apply Hkeep.
  - intros [= <-]. split; [done|].
    intros Hty Hok. rewrite Hty in Hst. congruence.
Qed.

Lemma ref_status_txs_processed (bNum : Z) (txs : list Transaction)
    (receipts : list core.Receipt) (i : nat) bc bc' :
  core.ref_status_txs bNum bc i txs receipts = Some bc' →
  (∀ h, core.IsProcessed bc h = true → core.IsProcessed bc' h = true) ∧
  (∀ j tx receipt,
      txs !! j = Some tx → receipts !! (i + j) = Some receipt →
      tx_TxType tx = CrossShard →
      core.tx_status CrossShard receipt = Some true →
      core.IsProcessed bc' (tx_Hash tx) = true).
Proof.
  revert i bc. induction txs as [|tx0 txs IH]; intros i bc; simpl.
  - intros [= <-]. split; [done|]. intros j tx receipt Hj.
    by rewrite lookup_nil in Hj.
  - destruct (receipts !! i) as [receipt0|] eqn:Hrc; simpl; [|done].
    destruct (core.ref_status_tx bNum bc tx0 receipt0) as [bc1|] eqn:Htx;
      simpl; [|done].
    intros Hrest. destruct (IH _ _ Hrest) as [Hmono Hmarks].
    destruct (ref_status_tx_processed _ _ _ _ _ Htx) as [Hmono1 Hmark1].
    split; [auto|].
    intros [|j] tx receipt; simpl.
    + intros [= <-]. rewrite Nat.add_0_r, Hrc. intros [= <-] Hty Hok.
      apply Hmono. by apply Hmark1.
    + intros Hj Hr. apply (Hmarks j tx receipt Hj).
      by rewrite Nat.add_succ_l, <- Nat.add_succ_r.
Qed.

(** No transaction the chain has processed is admitted. *)
Lemma admit_from_unprocessed (w : miner.worker)
    (crossTxs : list (Address * list Transaction)) (st' : miner.admission)
    (creator : Address) (tx : Transaction) :
  miner.NewValidCrossTransactions w crossTxs = Some st' →
  tx ∈ default [] (miner.newCtxs st' !! creator) →
  core.IsProcessed (miner.chain w) (tx_Hash tx) = false.
Proof.
  unfold miner.NewValidCrossTransactions. intros Hrun.
  set (P := λ st : miner.admission,
         miner.chain (miner.adm_worker st) = miner.chain w ∧
         ∀ c t, t ∈ default [] (miner.newCtxs st !! c) →
                core.IsProcessed (miner.chain w) (tx_Hash t) = false).
  assert (HP : P st').
  { apply (admit_from_invariant P crossTxs) with
      (st := {| miner.adm_worker := w; miner.newCtxs := ∅;
                miner.attempts := [] |}); [| |done].
    - intros c cands t st st1 _ _ [Hch Hadm] Hstep.
      destruct (admit_tx_chain _ _ _ _ Hstep) as [Hch1 _].
      split; [congruence|]. revert Hstep. unfold miner.admit_tx.
      destruct (negb _); [by intros [= <-]|].
      destruct (core.IsProcessed _ _) eqn:Hproc; [by intros [= <-]|].
      destruct (miner.tx_keys t); simpl; [|done].
      intros [= <-]. simpl.
      destruct (miner.checkTxStatus _ _); [|done].
      intros c' t'. destruct (decide (c = c')) as [->|Hne].
      + rewrite lookup_insert_eq. simpl.
        intros [Hold| ->%list_elem_of_singleton]%elem_of_app; [eauto|].
        by rewrite <- Hch.
      + rewrite lookup_insert_ne by done. apply Hadm.
    - split; [done|]. intros c t. simpl. rewrite lookup_empty.
      by intros ?%elem_of_nil. }
  destruct HP as [_ Hall]. apply Hall.
Qed.

End ReferenceBlock.

(** X21.  The commits and the cross-shard heights after a reference
    block.  [UpdateRefStatus] gives no shard a last commit that had
    none and takes none away, the reference number of a shard's last
    commit never goes down, and the height of the latest cross-shard
    transaction of a shard either stays or becomes the number of the
    block. *)
Theorem ref_status_commits_advance `{Common} (bc bc' : core.BlockChain)
    (block : core.Block) (receipts : list core.Receipt) :
  core.UpdateRefStatus bc block receipts = Some bc' →
  commits_advance bc bc' ∧
  ∀ s, core.lastCtx bc' !! s = core.lastCtx bc !! s ∨
       core.lastCtx bc' !! s = Some (core.b_Number block).
Proof.
  unfold core.UpdateRefStatus.
  apply (ref_status_txs_invariant
           (λ b, commits_advance bc b ∧
                 ∀ s, core.lastCtx b !! s = core.lastCtx bc !! s ∨
                      core.lastCtx b !! s = Some (core.b_Number block))).
  - intros b tx receipt b1 [Hadv Hctx] Hstep.
    apply ref_status_tx_commits in Hstep as [Hadv1 Hctx1]. split.
    + by eapply commits_advance_trans.
    + intros s. destruct (Hctx1 s) as [->|?]; auto.
  - split; [apply commits_advance_refl|auto].
Qed.

Lemma ref_status_commits_advance_witness :
  ∃ bc',
    core.UpdateRefStatus (H := be_common) ex_locked_chain ex_relock_block
      [ok_receipt; ok_receipt] = Some bc' ∧
    commits_advance ex_locked_chain bc' ∧
    ∀ s, core.lastCtx bc' !! s = core.lastCtx ex_locked_chain !! s ∨
         core.lastCtx bc' !! s = Some (core.b_Number ex_relock_block).
Proof.
  eexists. split; [vm_compute; reflexivity|].
  apply (ref_status_commits_advance (H := be_common) ex_locked_chain _
           ex_relock_block [ok_receipt; ok_receipt]).
  vm_compute. reflexivity.
Defined.

(** X22.  A committed cross-shard transaction is not admitted again.
    [UpdateRefStatus] keeps every processed mark, marks every
    cross-shard transaction of the block whose receipt reports success,
    and [NewValidCrossTransactions] of a worker on the resulting chain
    admits no such transaction, however often it is still pending. *)
Theorem committed_cross_tx_not_readmitted `{Common}
    (bc bc' : core.BlockChain) (block : core.Block)
    (receipts : list core.Receipt) (i : nat) (tx : Transaction)
    (receipt : core.Receipt) :
  core.UpdateRefStatus bc block receipts = Some bc' →
  core.b_Transactions block !! i = Some tx → receipts !! i = Some receipt →
  tx_TxType tx = CrossShard →
  core.tx_status CrossShard receipt = Some true →
  core.IsProcessed bc' (tx_Hash tx) = true ∧
  (∀ h, core.IsProcessed bc h = true → core.IsProcessed bc' h = true) ∧
  ∀ (w : miner.worker) (crossTxs : list (Address * list Transaction))
    (st' : miner.admission) (creator : Address),
    miner.chain w = bc' →
    miner.NewValidCrossTransactions w crossTxs = Some st' →
    tx ∉ default [] (miner.newCtxs st' !! creator).
Proof.
  unfold core.UpdateRefStatus. intros Hrun Htx Hrc Hty Hok.
  destruct (ref_status_txs_processed _ _ _ _ _ _ Hrun) as [Hmono Hmarks].
  assert (Hdone : core.IsProcessed bc' (tx_Hash tx) = true)
    by exact (Hmarks i tx receipt Htx Hrc Hty Hok).
  split; [done|]. split; [done|].
  intros w crossTxs st' creator Hw Hadm Hin.
  apply (admit_from_unprocessed _ _ _ _ _ Hadm) in Hin.
  rewrite Hw in Hin. congruence.
Qed.

Lemma committed_cross_tx_not_readmitted_witness :
  ∃ bc',
    core.UpdateRefStatus (H := be_common) ex_locked_chain ex_relock_block
      [ok_receipt; ok_receipt] = Some bc' ∧
    core.IsProcessed bc' (tx_Hash ex_tx1) = true ∧
    (∀ h, core.IsProcessed ex_locked_chain h = true →
          core.IsProcessed bc' h = true) ∧
    ∀ (w : miner.worker) (crossTxs : list (Address * list Transaction))
      (st' : miner.admission) (creator : Address),
      miner.chain w = bc' →
      miner.NewValidCrossTransactions (H := be_common) w crossTxs
      = Some st' →
      ex_tx1 ∉ default [] (miner.newCtxs st' !! creator).
Proof.
  eexists. split; [vm_compute; reflexivity|].
  apply (committed_cross_tx_not_readmitted (H := be_common) ex_locked_chain
           _ ex_relock_block [ok_receipt; ok_receipt] 1 ex_tx1 ok_receipt).
  - vm_compute. reflexivity.
  - reflexivity.
  - reflexivity.
  - reflexivity.
  - vm_compute. reflexivity.
Defined.

(** ** Where the tables of an attempt come from *)

Section Provenance.

Context `{Common}.

Implicit Types (w : miner.worker) (a : Address) (k : Hash).

Lemma read_locks_only (l : list Hash) (keys : gmap Hash Z) k :
  is_Some (foldl read_lock keys l !! k) → is_Some (keys !! k) ∨ k ∈ l.
Proof.
  destruct (decide (k ∈ l)) as [?|Hnin]; [auto|].
  rewrite read_locks_other by done. auto.
Qed.

Lemma write_locks_only (l : list Hash) (keys : gmap Hash Z) k :
  is_Some (foldl write_lock keys l !! k) → is_Some (keys !! k) ∨ k ∈ l.
Proof.
  destruct (decide (k ∈ l)) as [?|Hnin]; [auto|].
  rewrite write_locks_other by done. auto.
Qed.

(** Locking a contract enters only the pairs it names. *)
Lemma lock_contract_only (locks : gmap Address CLock) (cKeys : CKeys) a k :
  is_Some (lock_entry (lock_contract locks cKeys) a k) →
  is_Some (lock_entry locks a k) ∨
  (ck_Addr cKeys = a ∧ (k ∈ ck_Keys cKeys ∨ k ∈ ck_WKeys cKeys)).
Proof.
  unfold lock_entry, lock_contract.
  destruct (decide (ck_Addr cKeys = a)) as [<-|Hne].
  - rewrite lookup_insert_eq. simpl.
    intros [Hr|Hw]%write_locks_only; [|auto].
    apply read_locks_only in Hr as [Hold|Hr]; [|auto].
    left. by destruct (locks !! ck_Addr cKeys).
  - rewrite lookup_insert_ne by done. auto.
Qed.

Lemma lock_contracts_only (l : list CKeys) (locks : gmap Address CLock) a k :
  is_Some (lock_entry (foldl lock_contract locks l) a k) →
  is_Some (lock_entry locks a k) ∨
  ∃ cKeys, cKeys ∈ l ∧ ck_Addr cKeys = a ∧
           (k ∈ ck_Keys cKeys ∨ k ∈ ck_WKeys cKeys).
Proof.
  revert locks. induction l as [|c l IH]; intros locks; cbn [foldl]; [auto|].
  intros [Hold|(cKeys & Hin & Hrest)]%IH.
  - apply lock_contract_only in Hold as [?|?]; [auto|].
    right. exists c. split; [apply elem_of_cons; auto|done].
  - right. exists cKeys. split; [apply elem_of_cons; auto|done].
Qed.

(** [updateLockStatus] enters only the pairs the key set touches. *)
Lemma updateLockStatus_only w (allKeys : AllKeys) a k :
  is_Some (tentative (miner.updateLockStatus w allKeys) a k) →
  is_Some (tentative w a k) ∨ touches allKeys a k.
Proof.
  unfold tentative, miner.updateLockStatus, touches. simpl.
  fold (lock_entry (miner.cLocked w) a k).
  generalize (miner.cLocked w). clear w.
  induction allKeys as [|sk allKeys IH]; intros locks; cbn [foldl]; [auto|].
  intros [Hold|(shardKeys & cKeys & Hin & Hrest)]%IH.
  - apply lock_contracts_only in Hold as [?|(cKeys & Hc & Hrest)]; [auto|].
    right. exists sk, cKeys. split; [apply elem_of_cons; auto|done].
  - right. exists shardKeys, cKeys. split; [apply elem_of_cons; auto|done].
Qed.

(** An accepted sender stays accepted. *)
Lemma filter_senders_keeps w w' (stateTxs : list (Address * list Transaction))
    (nc nc' : gmap Address (list Transaction)) (sender : Address) :
  foldl miner.filter_sender (Some (w, nc)) stateTxs = Some (w', nc') →
  is_Some (nc !! sender) → is_Some (nc' !! sender).
Proof.
  revert w nc. induction stateTxs as [|[addr cands] rest IH]; intros w nc.
  - by intros [= <- <-].
  - cbn [foldl].
    destruct (miner.filter_sender (Some (w, nc)) (addr, cands))
      as [[w1 nc1]|] eqn:Hstep; [|by rewrite filter_sender_none].
    intros Hrest Hs. apply (IH _ _ Hrest).
    destruct (filter_sender_step _ _ _ _ _ _ Hstep)
      as (_ & _ & [->|(tx & -> & _)]); [done|].
    destruct (decide (addr = sender)) as [->|Hne].
    + rewrite lookup_insert_eq. eauto.
    + by rewrite lookup_insert_ne.
Qed.

(** The marks set while the state commits are filtered belong to the
    shards of the senders accepted. *)
Lemma filter_senders_marks w w' (stateTxs : list (Address * list Transaction))
    (nc nc' : gmap Address (list Transaction)) a :
  foldl miner.filter_sender (Some (w, nc)) stateTxs = Some (w', nc') →
  is_Some (miner.cUnlocked w' !! a) →
  is_Some (miner.cUnlocked w !! a) ∨
  ∃ sender, is_Some (nc' !! sender) ∧
            is_Some (indexed (miner.chain w) (sender_shard w sender) !! a).
Proof.
  revert w nc. induction stateTxs as [|[addr cands] rest IH]; intros w nc.
  - intros [= <- <-]. auto.
  - cbn [foldl].
    destruct (miner.filter_sender (Some (w, nc)) (addr, cands))
      as [[w1 nc1]|] eqn:Hstep; [|by rewrite filter_sender_none].
    intros Hrest Hmark.
    assert (Hone : miner.chain w1 = miner.chain w ∧
                   miner.addrShardMap w1 = miner.addrShardMap w ∧
                   (is_Some (miner.cUnlocked w1 !! a) →
                    is_Some (miner.cUnlocked w !! a) ∨
                    (is_Some (nc1 !! addr) ∧
                     is_Some (indexed (miner.chain w)
                                (sender_shard w addr) !! a)))).
    { revert Hstep. unfold miner.filter_sender. simpl.
      destruct (core.lastCommit (miner.chain w) !! _) as [lc|]; simpl; [|done].
      destruct (foldl _ _ cands) as [[[maxTx maxRef] maxCom]|]; simpl; [|done].
      destruct maxTx as [tx|]; [|intros [= <- <-]; auto].
      destruct (DecodeStateCommit tx); simpl; [|done]. intros [= <- <-].
      destruct (unlockKeys_spec w (default 0%Z (miner.addrShardMap w !! addr)))
        as (Hc & _ & Hm & Hu).
      split; [done|]. split; [done|].
      intros [?|?]%Hu; [auto|]. right.
      rewrite lookup_insert_eq. split; [eauto|done]. }
    destruct Hone as (Hc1 & Hm1 & Hmark1).
    assert (Hkeep : ∀ sender, is_Some (nc1 !! sender) →
                              is_Some (nc' !! sender))
      by (intros sender; by apply (filter_senders_keeps _ _ _ _ _ _ Hrest)).
    destruct (IH _ _ Hrest Hmark) as [Hold|(sender & Hs & Hidx)].
    + destruct (Hmark1 Hold) as [?|[Hs Hidx]]; [auto|].
      right. exists addr. split; [by apply Hkeep|done].
    + right. exists sender. split; [done|].
      unfold sender_shard in *. by rewrite <- Hc1, <- Hm1.
Qed.

End Provenance.

(** X23.  Nothing stale in the tables of an attempt.  The attempt of the
    reference shard resets both tables, filters the state commits and
    then admits the cross-shard transactions.  At its end every entry of
    the tentative lock table belongs to a pair some admitted transaction
    touches, and every contract marked as about to be unlocked is
    indexed under the shard of a sender whose commit was accepted. *)
Theorem attempt_tables_provenance `{Common} (w w1 : miner.worker)
    (stateTxs crossTxs : list (Address * list Transaction))
    (commits : gmap Address (list Transaction)) (st' : miner.admission) :
  miner.NewValidStateCommitments (miner.reset_tentative w) stateTxs
  = Some (w1, commits) →
  miner.NewValidCrossTransactions w1 crossTxs = Some st' →
  (∀ a k, is_Some (tentative (miner.adm_worker st') a k) →
          ∃ creator tx allKeys,
            tx ∈ default [] (miner.newCtxs st' !! creator) ∧
            miner.tx_keys tx = Some allKeys ∧ touches allKeys a k) ∧
  (∀ a, is_Some (miner.cUnlocked (miner.adm_worker st') !! a) →
        ∃ sender, is_Some (commits !! sender) ∧
                  is_Some (indexed (miner.chain w) (sender_shard w sender)
                           !! a)).
Proof.
  unfold miner.NewValidStateCommitments, miner.NewValidCrossTransactions.
  intros Hfilter Hadmit.
  destruct (filter_senders_unlock _ _ _ _ _ Hfilter) as (Hcl & _ & _).
  set (P := λ st : miner.admission,
         miner.cUnlocked (miner.adm_worker st) = miner.cUnlocked w1 ∧
         ∀ a k, is_Some (tentative (miner.adm_worker st) a k) →
                ∃ creator tx allKeys,
                  tx ∈ default [] (miner.newCtxs st !! creator) ∧
                  miner.tx_keys tx = Some allKeys ∧ touches allKeys a k).
  assert (HP : P st').
  { apply (admit_from_invariant P crossTxs) with
      (st := {| miner.adm_worker := w1; miner.newCtxs := ∅;
                miner.attempts := [] |}); [| |done].
    - intros c cands t st st1 _ _ [Hcu Hall] Hstep.
      destruct (admit_tx_chain _ _ _ _ Hstep) as [_ Hcu1].
      split; [congruence|]. revert Hstep. unfold miner.admit_tx.
      destruct (negb _); [by intros [= <-]|].
      destruct (core.IsProcessed _ _); [by intros [= <-]|].
      destruct (miner.tx_keys t) as [allKyes|] eqn:Hkeys; simpl; [|done].
      intros [= <-]. simpl.
      destruct (miner.checkTxStatus _ allKyes); [|done].
      intros a k [Hold|Hnew]%updateLockStatus_only.
      + destruct (Hall a k Hold) as (c' & t' & ks & Hin & Hks & Ht).
        exists c', t', ks. split; [|done].
        destruct (decide (c = c')) as [->|Hne].
        * rewrite lookup_insert_eq. simpl. apply elem_of_app. auto.
        * by rewrite lookup_insert_ne.
      + exists c, t, allKyes. split; [|done].
        rewrite lookup_insert_eq. simpl. apply elem_of_app. right.
        by apply list_elem_of_singleton.
    - split; [done|]. intros a k. unfold tentative. simpl.
      rewrite Hcl. simpl. rewrite lookup_empty. simpl. by intros [? ?]. }
  destruct HP as [Hcu Hall]. split; [done|].
  intros a Hmark. rewrite Hcu in Hmark.
  apply (filter_senders_marks _ _ _ _ _ _ Hfilter) in Hmark
    as [Hold|Hnew]; [|done].
  simpl in Hold. rewrite lookup_empty in Hold. by destruct Hold.
Qed.

Lemma attempt_tables_provenance_witness :
  let w1 := miner.unlockKeys ex_locked_worker 2 in
  let commits : gmap Address (list Transaction) :=
    {[ 22%N := [commit_tx 301 2 9 5] ]} in
  let st' := {| miner.adm_worker := miner.updateLockStatus w1 ex_T1;
                miner.newCtxs := {[ 5%N := [ex_tx1] ]};
                miner.attempts := [(101%N, true)] |} in
  (∀ a k, is_Some (tentative (miner.adm_worker st') a k) →
          ∃ creator tx allKeys,
            tx ∈ default [] (miner.newCtxs st' !! creator) ∧
            miner.tx_keys (H := be_common) tx = Some allKeys ∧
            touches allKeys a k) ∧
  (∀ a, is_Some (miner.cUnlocked (miner.adm_worker st') !! a) →
        ∃ sender, is_Some (commits !! sender) ∧
                  is_Some (indexed (miner.chain ex_locked_worker)
                             (sender_shard ex_locked_worker sender) !! a)).
Proof.
  intros w1 commits st'.
  apply (attempt_tables_provenance (H := be_common) ex_locked_worker w1
           [(22%N, [commit_tx 301 2 9 5])] [(5%N, [ex_tx1])] commits st').
  - vm_compute. reflexivity.
  - vm_compute. reflexivity.
Defined.

(** ** Commitments carried from one reference block to the next *)

Section CarriedCommits.

Lemma copy_commit_none (commits : option Commitments) (l : list Z) :
  foldl (copy_commit commits) None l = None.
Proof. induction l; simpl; auto. Qed.

Lemma copy_commits_spec (commits : option Commitments) (l : list Z)
    (m : gmap Z (option Commitment)) :
  match foldl (copy_commit commits) (Some m) l with
  | None => ∃ shard, shard ∈ l ∧ (commits ≫= λ src, GetCommit src shard) = None
  | Some m' =>
      ∀ shard,
        (shard ∈ l →
         ∃ src c, commits = Some src ∧ GetCommit src shard = Some c ∧
                  m' !! shard
                  = Some (Some {| Shard := shard; BlockNum := BlockNum c;
                                  RefNum := RefNum c;
                                  StateRoot := StateRoot c |})) ∧
        (shard ∉ l → m' !! shard = m !! shard)
  end.
Proof.
  revert m. induction l as [|s l IH]; intros m; cbn [foldl].
  - intros shard. split; [by intros ?%elem_of_nil|done].
  - unfold copy_commit at 2. simpl.
    destruct commits as [src|]; simpl.
    + destruct (GetCommit src s) as [c|] eqn:Hc; simpl.
      * specialize (IH (<[s := Some {| Shard := s; BlockNum := BlockNum c;
                                       RefNum := RefNum c;
                                       StateRoot := StateRoot c |}]> m)).
        destruct (foldl _ _ l) as [m'|].
        -- intros shard. destruct (IH shard) as [Hin Hout]. split.
           ++ intros [->|Hl]%elem_of_cons; [|auto].
              destruct (decide (s ∈ l)) as [?|Hnin]; [auto|].
              exists src, c. split; [done|]. split; [done|].
              rewrite Hout by done. by rewrite lookup_insert_eq.
           ++ intros [Hne Hnin]%not_elem_of_cons.
              rewrite Hout by done. by rewrite lookup_insert_ne.
        -- destruct IH as (shard & Hin & Hnone).
           exists shard. split; [apply elem_of_cons; auto|done].
      * rewrite copy_commit_none. exists s.
        split; [apply elem_of_cons; auto|]. simpl. done.
    + rewrite copy_commit_none. exists s.
      split; [apply elem_of_cons; auto|done].
Qed.

End CarriedCommits.

(** X24.  [CopyCommits] carries over the commits of the shards
    [1 .. numShard-1] and nothing else.  It panics exactly when one of
    these shards has no commit to copy -- in particular when [commits]
    is nil and there is a shard to copy.  Otherwise every such shard
    holds a copy of its commit under its own shard number, so
    [CommitNum] answers with the block number of the source, and the
    entries of the reference shard and of the shards from [numShard] on
    are as they were. *)
Theorem copy_commits_carries_over (cm : Commitments) (numShard : Z)
    (commits : option Commitments) :
  (CopyCommits cm numShard commits = None ↔
   ∃ shard, (1 ≤ shard < numShard)%Z ∧
            (commits ≫= λ src, GetCommit src shard) = None) ∧
  ∀ cm', CopyCommits cm numShard commits = Some cm' →
    ∀ shard,
      ((1 ≤ shard < numShard)%Z →
       ∃ src c, commits = Some src ∧ GetCommit src shard = Some c ∧
                Commits cm' !! shard
                = Some (Some {| Shard := shard; BlockNum := BlockNum c;
                                RefNum := RefNum c;
                                StateRoot := StateRoot c |}) ∧
                CommitNum cm' shard = Some (BlockNum c)) ∧
      (¬ (1 ≤ shard < numShard)%Z →
       Commits cm' !! shard = Commits cm !! shard).
Proof.
  unfold CopyCommits.
  pose proof (copy_commits_spec commits (seqZ 1 (numShard - 1)) (Commits cm))
    as Hspec.
  assert (Hrange : ∀ shard, shard ∈ seqZ 1 (numShard - 1) ↔
                            (1 ≤ shard < numShard)%Z).
  { intros shard. rewrite elem_of_seqZ. lia. }
  destruct (foldl _ _ _) as [m'|]; simpl.
  - split.
    + split; [done|]. intros (shard & Hin%Hrange & Hnone).
      destruct (proj1 (Hspec shard) Hin) as (src & c & -> & Hc & _).
      simpl in Hnone. congruence.
    + intros cm' [= <-] shard. destruct (Hspec shard) as [Hin Hout]. split.
      * intros Hs%Hrange. destruct (Hin Hs) as (src & c & -> & Hc & Hm).
        exists src, c. split; [done|]. split; [done|]. split; [done|].
        unfold CommitNum. simpl. by rewrite Hm.
      * intros Hs. simpl. apply Hout. by rewrite Hrange.
  - split; [|done]. split; [|done]. intros _.
    destruct Hspec as (shard & Hin%Hrange & Hnone). eauto.
Qed.

(** ** Cleaning up behind a commit *)

Section Cleaning.

Lemma clean_below_lookup {A} (blockNum : Z) (m : gmap Z A) (num : Z) :
  core.clean_below blockNum m !! num
  = if bool_decide (num < blockNum)%Z then None else m !! num.
Proof.
  unfold core.clean_below.
  assert (Hgen : ∀ (l : list (Z * A)) (acc : gmap Z A),
             foldl (λ acc (kv : Z * A),
                      if bool_decide (kv.1 < blockNum)%Z
                      then match acc !! kv.1 with
                           | Some _ => delete kv.1 acc
                           | None => acc
                           end
                      else acc) acc l !! num
             = if bool_decide (num < blockNum ∧ num ∈ l.*1)%Z then None
               else acc !! num).
  { induction l as [|kv l IH]; intros acc; cbn [foldl].
    - rewrite bool_decide_eq_false_2; [done|].
      intros [_ ?%elem_of_nil]. done.
    - rewrite IH.
      set (acc1 := if bool_decide (kv.1 < blockNum)%Z
                   then match acc !! kv.1 with
                        | Some _ => delete kv.1 acc
                        | None => acc
                        end
                   else acc).
      assert (Hacc1 : acc1 !! num
                      = if bool_decide ((num < blockNum)%Z ∧ kv.1 = num)
                        then None else acc !! num).
      { unfold acc1. destruct (decide (kv.1 = num)) as [Heq|Hne].
        - rewrite Heq. destruct (decide (num < blockNum)%Z) as [Hlow|Hhigh].
          + rewrite (bool_decide_eq_true_2 (num < blockNum)%Z) by done.
            rewrite (bool_decide_eq_true_2 (_ ∧ _)) by done.
            destruct (acc !! num) eqn:Hacc; [apply lookup_delete_eq|done].
          + rewrite (bool_decide_eq_false_2 (num < blockNum)%Z) by done.
            rewrite (bool_decide_eq_false_2 (_ ∧ _)) by tauto. done.
        - rewrite (bool_decide_eq_false_2 (_ ∧ _)) by tauto.
          destruct (bool_decide (kv.1 < blockNum)%Z); [|done].
          destruct (acc !! kv.1); [|done]. by rewrite lookup_delete_ne. }
      rewrite Hacc1. rewrite fmap_cons.
      destruct (decide ((num < blockNum)%Z ∧ num ∈ l.*1)) as [Hl|Hl];
        destruct (decide ((num < blockNum)%Z ∧ kv.1 = num)) as [Hk|Hk];
        destruct (decide ((num < blockNum)%Z ∧ num ∈ kv.1 :: l.*1))
          as [Hkl|Hkl];
        rewrite ?(bool_decide_eq_true_2 _ Hl), ?(bool_decide_eq_false_2 _ Hl),
          ?(bool_decide_eq_true_2 _ Hk), ?(bool_decide_eq_false_2 _ Hk),
          ?(bool_decide_eq_true_2 _ Hkl), ?(bool_decide_eq_false_2 _ Hkl);
        try done; exfalso; rewrite elem_of_cons in Hkl;
        intuition congruence. }
  rewrite Hgen. destruct (decide (num < blockNum)%Z) as [Hlow|Hhigh].
  - rewrite (bool_decide_eq_true_2 (num < blockNum)%Z) by done.
    destruct (m !! num) as [x|] eqn:Hm; [|by destruct (bool_decide _)].
    rewrite bool_decide_eq_true_2; [done|]. split; [done|].
    apply list_elem_of_fmap. exists (num, x). split; [done|].
    by apply elem_of_map_to_list.
  - rewrite (bool_decide_eq_false_2 (num < blockNum)%Z) by done.
    rewrite bool_decide_eq_false_2 by tauto. done.
Qed.

End Cleaning.

(** X25.  [CleanPendingTx] forgets what lies below [blockNum] and only
    that.  Afterwards no reference height below [blockNum] has a
    commitment entry or pending cross-shard transactions, so
    [CtxExist] is false there and the search of [Process] finds no
    transaction there; from [blockNum] on both maps are as they were;
    and the foreign data, the lock tables, the last commits and the
    processed marks are not touched. *)
Theorem clean_pending_below (commitments : gmap Z Commitments)
    (bc : core.BlockChain) (blockNum num : Z) :
  let cleaned := core.CleanPendingTx commitments bc blockNum in
  ((num < blockNum)%Z →
   cleaned.1 !! num = None ∧
   core.pendingCrossTxs cleaned.2 !! num = None ∧
   core.CtxExist cleaned.2 num = false ∧
   ∀ thash, core.pending_at cleaned.2 num thash = false) ∧
  ((blockNum ≤ num)%Z →
   cleaned.1 !! num = commitments !! num ∧
   core.pendingCrossTxs cleaned.2 !! num = core.pendingCrossTxs bc !! num ∧
   core.CtxExist cleaned.2 num = core.CtxExist bc num ∧
   ∀ thash, core.pending_at cleaned.2 num thash
            = core.pending_at bc num thash) ∧
  core.foreignData cleaned.2 = core.foreignData bc ∧
  core.gLocked cleaned.2 = core.gLocked bc ∧
  core.lockedAddrMap cleaned.2 = core.lockedAddrMap bc ∧
  core.lastCommit cleaned.2 = core.lastCommit bc ∧
  core.lastCtx cleaned.2 = core.lastCtx bc ∧
  core.procCtxs cleaned.2 = core.procCtxs bc.
Proof.
  intros cleaned. subst cleaned.
  unfold core.CleanPendingTx, core.CtxExist, core.pending_at. simpl.
  rewrite !clean_below_lookup.
  split; [|split; [|done]]; intros Hnum.
  - rewrite bool_decide_eq_true_2 by done. done.
  - rewrite bool_decide_eq_false_2 by lia. done.
Qed.

(** ** Merged receipts *)

Section Merged.

Context {R : Type} (TxHash : R → Hash).

Lemma last_filter_cons (P : R → Prop) `{∀ x, Decision (P x)} (x : R)
    (l : list R) :
  last (filter P (x :: l))
  = match last (filter P l) with
    | Some r => Some r
    | None => if decide (P x) then Some x else None
    end.
Proof.
  rewrite filter_cons. destruct (decide (P x)); [|by destruct (last _)].
  destruct (filter P l) as [|y l']; [done|].
  change (last (x :: y :: l')) with (last (y :: l')).
  by destruct (last (y :: l')) eqn:Hl; [|by apply last_None in Hl].
Qed.

(** The map built from a list of receipts holds, under a hash, the last
    receipt of the list with that hash. *)
Lemma receipts_map_lookup (l : list R) (m : gmap Hash R) (h : Hash) :
  foldl (λ (m : gmap Hash R) receipt, <[TxHash receipt := receipt]> m) m l
    !! h
  = match last (filter (λ x, TxHash x = h) l) with
    | Some r => Some r
    | None => m !! h
    end.
Proof.
  revert m. induction l as [|x l IH]; intros m; cbn [foldl]; [done|].
  rewrite IH, last_filter_cons.
  destruct (last (filter _ l)); [done|].
  destruct (decide (TxHash x = h)) as [<-|Hne].
  - by rewrite lookup_insert_eq.
  - by rewrite lookup_insert_ne.
Qed.

Lemma merge_loop (m : gmap Hash R) (pub : list R) (ret : list (option R)) :
  foldl (λ ret pubReceipt, ret ++ [m !! TxHash pubReceipt]) ret pub
  = ret ++ ((λ p, m !! TxHash p) <$> pub).
Proof.
  revert ret. induction pub as [|p pub IH]; intros ret; simpl.
  - by rewrite app_nil_r.
  - rewrite IH. by rewrite <- app_assoc.
Qed.

End Merged.

(** X26.  [mergeReceipts] answers position by position.  The result is
    as long as the public list and holds no nil pointer; at the position
    of a public receipt stands the last receipt with the hash of that
    receipt's transaction, the private list taken behind the public one
    -- so a private receipt replaces the public one, and of two public
    receipts with one hash the later one stands at both positions. *)
Theorem merge_receipts_by_position {R : Type} (TxHash : R → Hash)
    (pub priv : list R) (i : nat) (p : R) :
  pub !! i = Some p →
  length (core.mergeReceipts TxHash pub priv) = length pub ∧
  ∃ r, core.mergeReceipts TxHash pub priv !! i = Some (Some r) ∧
       TxHash r = TxHash p ∧
       last (filter (λ x, TxHash x = TxHash p) (pub ++ priv)) = Some r.
Proof.
  intros Hp. unfold core.mergeReceipts. rewrite merge_loop. simpl.
  split; [by rewrite length_fmap|].
  rewrite list_lookup_fmap, Hp. simpl.
  rewrite !receipts_map_lookup, lookup_empty, filter_app.
  assert (Hpub : ∃ q, last (filter (λ x, TxHash x = TxHash p) pub) = Some q).
  { destruct (last (filter (λ x, TxHash x = TxHash p) pub)) as [q|] eqn:Hl;
      [eauto|].
    apply last_None in Hl.
    assert (p ∈ filter (λ x, TxHash x = TxHash p) pub) as Hin.
    { apply list_elem_of_filter. split; [done|]. by eapply list_elem_of_lookup_2. }
    rewrite Hl in Hin. by apply elem_of_nil in Hin. }
  destruct Hpub as [q Hq].
  destruct (last (filter (λ x, TxHash x = TxHash p) priv)) as [r|] eqn:Hpriv.
  - exists r. split; [done|]. split; [|by rewrite last_app, Hpriv].
    by apply last_Some_elem_of, list_elem_of_filter in Hpriv as [? _].
  - exists q. rewrite Hq. split; [done|].
    split; [|by rewrite last_app, Hpriv].
    by apply last_Some_elem_of, list_elem_of_filter in Hq as [? _].
Qed.

Lemma merge_receipts_by_position_witness :
  length (core.mergeReceipts fst ex_pub ex_priv) = length ex_pub ∧
  ∃ r, core.mergeReceipts fst ex_pub ex_priv !! 1 = Some (Some r) ∧
       r.1 = (2%N, 20%Z).1 ∧
       last (filter (λ x : Hash * Z, x.1 = (2%N, 20%Z).1) (ex_pub ++ ex_priv))
       = Some r.
Proof.
  apply (merge_receipts_by_position fst ex_pub ex_priv 1 (2%N, 20%Z)).
  reflexivity.
Defined.

(** ** Private transactions *)

(** X27.  [SetPrivate] and [IsPrivate].  [SetPrivate] panics exactly on
    a transaction without [V]; what it leaves is private, and setting
    it again changes nothing; a transaction that is private already is
    left as it is; and every private transaction counts as protected
    against replay for [isProtectedV]. *)
Theorem set_private_is_private (V : option Z) :
  (SetPrivate V = None ↔ V = None) ∧
  (IsPrivate V = true →
   isProtectedV V = Some true ∧ SetPrivate V = Some V) ∧
  (∀ V', SetPrivate V = Some V' →
         IsPrivate V' = true ∧ SetPrivate V' = Some V' ∧
         isProtectedV V' = Some true).
Proof.
  assert (Hprot : ∀ W, IsPrivate W = true → isProtectedV W = Some true).
  { intros [v|]; simpl; [|done]. unfold isProtectedV. simpl.
    intros [Hv%bool_decide_eq_true_1|Hv%bool_decide_eq_true_1]%orb_true_iff;
      rewrite Hv; by destruct (bool_decide (big_BitLen v ≤ 8)%Z). }
  assert (Hset : ∀ W, IsPrivate W = true → SetPrivate W = Some W).
  { intros W HW. unfold SetPrivate. by rewrite HW. }
  assert (Hres : ∀ V', SetPrivate V = Some V' → IsPrivate V' = true).
  { intros V'. unfold SetPrivate.
    destruct (IsPrivate V) eqn:HV; [by intros [= <-]|].
    destruct V as [v|]; simpl; [|done]. intros [= <-].
    by destruct (bool_decide (big_Int64 v = 28%Z)). }
  split; [|split].
  - unfold SetPrivate. destruct V as [v|]; simpl.
    + split; [|done]. by destruct (_ || _).
    + done.
  - auto.
  - intros V' HV'. apply Hres in HV'. auto.
Qed.

(** ** The difference of two transaction lists *)

Section Difference.

Lemma remove_map_lookup (b : list Transaction) (m : gmap Hash unit)
    (h : Hash) :
  is_Some (foldl (λ (m : gmap Hash unit) tx, <[tx_Hash tx := tt]> m) m b !! h)
  ↔ is_Some (m !! h) ∨ h ∈ tx_Hash <$> b.
Proof.
  revert m. induction b as [|t b IH]; intros m; cbn [foldl].
  - rewrite fmap_nil. split; [auto|]. intros [?|?%elem_of_nil]; done.
  - rewrite IH, fmap_cons, elem_of_cons.
    destruct (decide (tx_Hash t = h)) as [<-|Hne].
    + rewrite lookup_insert_eq. split; [auto|]. intros _. left. eauto.
    + rewrite lookup_insert_ne by done. split; [tauto|].
      intros [?|[?|?]]; [tauto|congruence|tauto].
Qed.

Lemma keep_loop (remove : gmap Hash unit) (a keep : list Transaction) :
  foldl (λ keep tx, match remove !! tx_Hash tx with
                    | Some _ => keep
                    | None => keep ++ [tx]
                    end) keep a
  = keep ++ filter (λ tx, remove !! tx_Hash tx = None) a.
Proof.
  revert keep. induction a as [|t a IH]; intros keep; cbn [foldl].
  - by rewrite app_nil_r.
  - rewrite IH, filter_cons.
    destruct (remove !! tx_Hash t) eqn:Hr.
    + rewrite decide_False by done. done.
    + rewrite decide_True by done. by rewrite <- app_assoc.
Qed.

End Difference.

(** X28.  [TxDifference] keeps, in their order, exactly the
    transactions of [a] whose hash no transaction of [b] carries -- so
    nothing of [b] is left, a transaction of [a] goes even when [b]
    only holds another transaction with its hash, the difference with
    the empty list is the list itself and the difference of a list with
    itself is empty. *)
Theorem tx_difference_by_hash (a b : list Transaction) :
  TxDifference a b = filter (λ tx, tx_Hash tx ∉ tx_Hash <$> b) a ∧
  (∀ tx, tx ∈ TxDifference a b → tx ∈ a ∧ tx ∉ b) ∧
  TxDifference a [] = a ∧
  TxDifference a a = [].
Proof.
  assert (Hfilter : ∀ a b, TxDifference a b
                           = filter (λ tx, tx_Hash tx ∉ tx_Hash <$> b) a).
  { clear. intros a b. unfold TxDifference. rewrite keep_loop. simpl.
    apply list_filter_iff. intros tx.
    rewrite eq_None_not_Some, remove_map_lookup, lookup_empty.
    split; [tauto|]. intros Hnin [[? ?]|?]; done. }
  split; [apply Hfilter|]. split; [|split].
  - intros tx. rewrite Hfilter. intros [Hh Hin]%list_elem_of_filter.
    split; [done|]. intros Hb. apply Hh.
    apply list_elem_of_fmap. eauto.
  - rewrite Hfilter. clear. induction a as [|t a IH]; [done|].
    rewrite filter_cons, decide_True; [by rewrite IH|].
    rewrite fmap_nil. apply not_elem_of_nil.
  - rewrite Hfilter.
    assert (Hnone : ∀ l : list Transaction,
               (∀ tx, tx ∈ l → tx_Hash tx ∈ tx_Hash <$> a) →
               filter (λ tx, tx_Hash tx ∉ tx_Hash <$> a) l = []).
    { induction l as [|t l IH]; intros Hall; [done|].
      rewrite filter_cons, decide_False.
      - apply IH. intros tx Hin. apply Hall, elem_of_cons. auto.
      - intros Hnot. apply Hnot, Hall, elem_of_cons. auto. }
    apply Hnone. intros tx Hin. apply list_elem_of_fmap. eauto.
Qed.

(** ** Committed keys and later attempts *)

Section CommittedKeys.

Context `{Common}.

Lemma add_contracts_fst (shard : Z) (l : list CKeys)
    (st : gmap Address CLock * gmap Z (gmap Address bool)) :
  (foldl (core.add_contract_locks shard) st l).1 = foldl lock_contract st.1 l.
Proof.
  revert st. induction l as [|c l IH]; intros [g idx]; cbn [foldl]; [done|].
  by rewrite IH.
Qed.

Lemma add_shards_fst (allKeys : AllKeys)
    (st : gmap Address CLock * gmap Z (gmap Address bool)) :
  (foldl core.add_shard_locks st allKeys).1
  = foldl (λ locks (sk : Z * list CKeys), foldl lock_contract locks sk.2)
          st.1 allKeys.
Proof.
  revert st. induction allKeys as [|[shard sKeys] allKeys IH];
    intros [g idx]; cbn [foldl]; [done|].
  rewrite IH. f_equal. unfold core.add_shard_locks.
  by rewrite add_contracts_fst.
Qed.

(** The global table takes the locks of a committed transaction the way
    the tentative table takes those of an admitted one. *)
Lemma addNewLocks_gLocked (bc : core.BlockChain) (allKeys : AllKeys) :
  core.gLocked (core.addNewLocks bc allKeys)
  = foldl (λ locks (sk : Z * list CKeys), foldl lock_contract locks sk.2)
          (core.gLocked bc) allKeys.
Proof.
  unfold core.addNewLocks.
  pose proof (add_shards_fst allKeys (core.gLocked bc, core.lockedAddrMap bc))
    as Hfst.
  destruct (foldl core.add_shard_locks _ allKeys) as [g idx]. done.
Qed.

Lemma lock_shards_some (allKeys : AllKeys) (locks : gmap Address CLock)
    (a : Address) (k : Hash) :
  is_Some (lock_entry locks a k) ∨ touches allKeys a k →
  is_Some (lock_entry
             (foldl (λ locks (sk : Z * list CKeys),
                       foldl lock_contract locks sk.2) locks allKeys) a k).
Proof.
  unfold touches. revert locks.
  induction allKeys as [|sk allKeys IH]; intros locks; cbn [foldl].
  - intros [?|(? & ? & ?%elem_of_nil & _)]; done.
  - intros Hk. apply IH.
    destruct Hk as [?|(shardKeys & cKeys & [->|Hin]%elem_of_cons & Hc & Hn)].
    + left. apply lock_contracts_some. auto.
    + left. apply lock_contracts_some. right. eauto.
    + right. eauto.
Qed.

End CommittedKeys.

(** X29.  The keys of a committed cross-shard transaction keep writers
    out.  Once [UpdateRefStatus] has absorbed a successful cross-shard
    transaction, every pair of its key set holds an entry in the global
    lock table, and a worker on that chain turns down every key set that
    writes such a pair, unless a state commit accepted in the same
    attempt has marked the contract as about to be unlocked. *)
Theorem committed_keys_lock_out_writers `{Common} (bNum : Z)
    (bc bc' : core.BlockChain) (tx : Transaction) (receipt : core.Receipt)
    (shards : list Z) (allKeys : AllKeys) (a : Address) (k : Hash) :
  core.ref_status_tx bNum bc tx receipt = Some bc' →
  tx_TxType tx = CrossShard →
  core.tx_status CrossShard receipt = Some true →
  core.cross_keys tx = Some (shards, allKeys) →
  touches allKeys a k →
  is_Some (lock_entry (core.gLocked bc') a k) ∧
  ∀ (w : miner.worker) (keys : AllKeys),
    miner.chain w = bc' → miner.cUnlocked w !! a = None →
    writes keys a k → miner.checkTxStatus w keys = false.
Proof.
  unfold core.ref_status_tx. intros Hrun Hty Hok Hkeys Htouch.
  rewrite Hty, Hok in Hrun. simpl in Hrun.
  rewrite Hkeys in Hrun. simpl in Hrun. injection Hrun as <-.
  assert (Hentry : is_Some (lock_entry
                              (core.gLocked
                                 (core.addNewLocks
                                    (core.set_lastCtx
                                       (core.AddProcessed bc (tx_Hash tx))
                                       (foldl (λ m shard, <[shard := bNum]> m)
                                              (core.lastCtx bc) shards))
                                    allKeys)) a k)).
  { rewrite addNewLocks_gLocked. apply lock_shards_some. auto. }
  split; [done|].
  intros w keys Hw Hun (shardKeys & cKeys & Hs & Hc & Ha & Hk).
  unfold miner.checkTxStatus.
  apply not_true_is_false. intros Hall.
  rewrite forallb_forall in Hall.
  specialize (Hall shardKeys (proj1 (list_elem_of_In _ _) Hs)).
  rewrite forallb_forall in Hall.
  specialize (Hall cKeys (proj1 (list_elem_of_In _ _) Hc)).
  apply negb_true_iff in Hall.
  assert (Hlock : miner.checkLockStatus w (ck_Addr cKeys) (lockMap_of cKeys)
                  = true); [|congruence].
  apply checkLockStatus_conflicts. right.
  destruct Hentry as [gval Hg]. unfold lock_entry in Hg.
  rewrite <- Hw, <- Ha in Hg.
  destruct (core.gLocked (miner.chain w) !! ck_Addr cKeys) as [gl|] eqn:Hgl;
    [|done].
  exists k, true, gl, gval. rewrite Ha. rewrite Ha in Hgl.
  split; [|by auto].
  rewrite lockMap_of_lookup. unfold request_of.
  by rewrite bool_decide_eq_true_2.
Qed.

Lemma committed_keys_lock_out_writers_witness :
  let bc' := core.addNewLocks
               (core.set_lastCtx (core.AddProcessed ex_locked_chain 101%N)
                  {[ 2%Z := 7%Z ]}) ex_T1 in
  is_Some (lock_entry (core.gLocked bc') 10%N 1%N) ∧
  ∀ (w : miner.worker) (keys : AllKeys),
    miner.chain w = bc' → miner.cUnlocked w !! 10%N = None →
    writes keys 10%N 1%N → miner.checkTxStatus w keys = false.
Proof.
  intros bc'.
  apply (committed_keys_lock_out_writers (H := be_common) 7 ex_locked_chain
           bc' ex_tx1 ok_receipt [2%Z] ex_T1 10%N 1%N).
  - vm_compute. reflexivity.
  - reflexivity.
  - vm_compute. reflexivity.
  - vm_compute. reflexivity.
  - exists (2%Z, [{| ck_Addr := 10%N; ck_Keys := [1%N]; ck_WKeys := [1%N] |}]),
      {| ck_Addr := 10%N; ck_Keys := [1%N]; ck_WKeys := [1%N] |}.
    split; [apply list_elem_of_singleton; reflexivity|].
    split; [apply list_elem_of_singleton; reflexivity|].
    split; [reflexivity|]. left. apply list_elem_of_singleton. reflexivity.
Defined.

(** ** What a new reference head can set off *)

(** X30.  A new reference head never moves the local chain forward.
    Whatever the heights, the handler first passes the head on, keeps
    both intervals, rewinds the chain and the pool only together and
    only to the last own commit when that lies below the local head,
    and submits new work only as a reorganisation stamped with the
    current time; when the last commit lies above the local head, it
    does nothing but pass the head on. *)
Theorem ref_head_only_rewinds (lp lp' : miner.workLoop)
    (bc : core.BlockChain) (isHandler : bool)
    (parentBlock block : core.Block) (now logTime : Z)
    (effs : list miner.effect) :
  miner.on_ref_head lp bc isHandler parentBlock block now logTime
  = Some (lp', effs) →
  miner.recommit lp' = miner.recommit lp ∧
  miner.minRecommit lp' = miner.minRecommit lp ∧
  (∃ rest, effs = miner.NotifyUpdate (core.b_Number block) :: rest) ∧
  (∀ h, miner.ChainSetHead h ∈ effs →
        h = core.CommitNum bc ∧
        (core.CommitNum bc < core.b_Number parentBlock)%Z ∧
        miner.TxPoolResetHead h ∈ effs) ∧
  (∀ h, miner.TxPoolResetHead h ∈ effs → miner.ChainSetHead h ∈ effs) ∧
  (∀ reorg noempty t,
      miner.NewWorkReq reorg noempty t ∈ effs →
      reorg = true ∧ noempty = false ∧ t = now ∧
      (core.CommitNum bc ≤ core.b_Number parentBlock)%Z) ∧
  ((core.b_Number parentBlock < core.CommitNum bc)%Z →
   lp' = lp ∧ effs = [miner.NotifyUpdate (core.b_Number block)]).
Proof.
  unfold miner.on_ref_head, miner.commit.
  destruct (decide (core.CommitNum bc ≤ core.b_Number parentBlock)%Z)
    as [Hle|Hgt].
  - rewrite (bool_decide_eq_true_2 _ Hle).
    destruct (miner.scan_ctx _ _ _ _) as [[|]|]; simpl; [| |done].
    + destruct (decide (core.CommitNum bc < core.b_Number parentBlock)%Z)
        as [Hlt|Hge].
      * rewrite (bool_decide_eq_true_2 _ Hlt).
        intros [= <- <-]. simpl.
        split; [done|]. split; [done|]. split; [eauto|].
        destruct isHandler, (miner.has_interrupt lp); simpl;
          (split; [|split; [|split; [|intros; lia]]]);
          intros; repeat match goal with
                         | Hin : _ ∈ _ :: _ |- _ =>
                             apply elem_of_cons in Hin as [Hin|Hin];
                             [try discriminate Hin|]
                         | Hin : _ ∈ [] |- _ => by apply elem_of_nil in Hin
                         end;
          simplify_eq;
          repeat split; try done;
          repeat (first [by apply list_elem_of_here
                        |apply list_elem_of_further]).
      * rewrite (bool_decide_eq_false_2 _ Hge).
        intros [= <- <-]. simpl.
        split; [done|]. split; [done|]. split; [eauto|].
        destruct (miner.has_interrupt lp); simpl;
          (split; [|split; [|split; [|intros; lia]]]);
          intros; repeat match goal with
                         | Hin : _ ∈ _ :: _ |- _ =>
                             apply elem_of_cons in Hin as [Hin|Hin];
                             [try discriminate Hin|]
                         | Hin : _ ∈ [] |- _ => by apply elem_of_nil in Hin
                         end;
          simplify_eq; repeat split; done.
    + intros [= <- <-]. simpl.
      split; [done|]. split; [done|]. split; [eauto|].
      (split; [|split; [|split; [|intros; lia]]]);
        intros; repeat match goal with
                       | Hin : _ ∈ _ :: _ |- _ =>
                           apply elem_of_cons in Hin as [Hin|Hin];
                           [try discriminate Hin|]
                       | Hin : _ ∈ [] |- _ => by apply elem_of_nil in Hin
                       end.
  - rewrite (bool_decide_eq_false_2 _ Hgt).
    intros [= <- <-].
    split; [done|]. split; [done|]. split; [eauto|].
    (split; [|split; [|split; [|done]]]);
      intros; repeat match goal with
                     | Hin : _ ∈ _ :: _ |- _ =>
                         apply elem_of_cons in Hin as [Hin|Hin];
                         [try discriminate Hin|]
                     | Hin : _ ∈ [] |- _ => by apply elem_of_nil in Hin
                     end.
Qed.

Lemma ref_head_only_rewinds_witness :
  let lp' := {| miner.recommit := 3 * miner.Second;
                miner.minRecommit := miner.Second;
                miner.has_interrupt := true; miner.timestamp := 1234 |} in
  let effs := [miner.NotifyUpdate 7; miner.CrossWork;
               miner.ReorgLog 7 10 6 1235; miner.TxPoolResetHead 6;
               miner.ChainSetHead 6; miner.NewChainHead true;
               miner.Sleep (2 * miner.Second);
               miner.StoreInterrupt miner.commitInterruptNewHead;
               miner.NewWorkReq true false 1234;
               miner.TimerReset (3 * miner.Second); miner.ClearNewTxs] in
  miner.recommit lp' = miner.recommit ex_loop ∧
  miner.minRecommit lp' = miner.minRecommit ex_loop ∧
  (∃ rest, effs = miner.NotifyUpdate (core.b_Number ex_ref_head) :: rest) ∧
  (∀ h, miner.ChainSetHead h ∈ effs →
        h = core.CommitNum ex_reorg_chain ∧
        (core.CommitNum ex_reorg_chain < core.b_Number ex_local_head)%Z ∧
        miner.TxPoolResetHead h ∈ effs) ∧
  (∀ h, miner.TxPoolResetHead h ∈ effs → miner.ChainSetHead h ∈ effs) ∧
  (∀ reorg noempty t,
      miner.NewWorkReq reorg noempty t ∈ effs →
      reorg = true ∧ noempty = false ∧ t = 1234%Z ∧
      (core.CommitNum ex_reorg_chain ≤ core.b_Number ex_local_head)%Z) ∧
  ((core.b_Number ex_local_head < core.CommitNum ex_reorg_chain)%Z →
   lp' = ex_loop ∧ effs = [miner.NotifyUpdate (core.b_Number ex_ref_head)]).
Proof.
  intros lp' effs.
  apply (ref_head_only_rewinds ex_loop lp' ex_reorg_chain true ex_local_head
           ex_ref_head 1234 1235 effs).
  vm_compute. reflexivity.
Defined.
